(** * page-scrape: coordinate-based contact extraction

    A shallow embedding of [python_scraper/models.py],
    [python_scraper/pdf_extract.py] and [python_scraper/pairing.py].

    Modelling conventions.
    - Python [str] values are [string]s over 8-bit characters; the character
      predicates ([isupper], [isdigit], [isalpha], [\d], [\s]) and the case
      conversions are the ASCII restrictions of the Python ones.
    - Python [float] coordinates are exact rationals [Q]; comparisons and
      arithmetic are the exact ones.
    - Python [set]s are used only through membership and insertion and are
      modelled by lists.
    - The three compiled regular expressions are values of a small pattern
      type, run by a backtracking matcher with greedy quantifiers, which is
      the strategy of Python's [re] module.
    - Where a property depends on characters outside ASCII or on the
      rounding of [float]s, the two searches and the validator are taken
      from [Interp]: the same functions over code points, with the
      interpreter's character database, numbers and sort as parameters,
      instantiated by exact rationals and by binary64. *)

From Stdlib Require Import List String Ascii Bool Arith Lia.
From Stdlib Require Import QArith Qabs Permutation Sorted Lqa.
From Stdlib Require Import DecimalString NArith Floats.
Import ListNotations.

Local Open Scope string_scope.
Local Open Scope nat_scope.

(* ================================================================== *)
(** ** Characters and strings, as the Python built-ins treat them *)

Module Py.

Definition code (c : ascii) : nat := nat_of_ascii c.

Definition between (lo hi : nat) (c : ascii) : bool :=
  (lo <=? code c) && (code c <=? hi).

(** [c.isupper()], [c.islower()], [c.isdigit()], [c.isalpha()] on one
    character. *)
Definition is_upper : ascii -> bool := between 65 90.
Definition is_lower : ascii -> bool := between 97 122.
Definition is_digit : ascii -> bool := between 48 57.
Definition is_alpha (c : ascii) : bool := is_upper c || is_lower c.

(** Characters matched by [\s]: tab, line feed, vertical tab, form feed,
    carriage return, the four separators 0x1c-0x1f, and space. *)
Definition is_space (c : ascii) : bool :=
  between 9 13 c || between 28 31 c || (code c =? 32).

(** The characters below U+0080, on which the predicates and the case
    conversions above are those of Python. *)
Definition is_ascii (c : ascii) : bool := code c <? 128.

Definition lower_char (c : ascii) : ascii :=
  if is_upper c then ascii_of_nat (code c + 32) else c.

Definition upper_char (c : ascii) : ascii :=
  if is_lower c then ascii_of_nat (code c - 32) else c.

Fixpoint smap (f : ascii -> ascii) (s : string) : string :=
  match s with
  | EmptyString => EmptyString
  | String c s' => String (f c) (smap f s')
  end.

Fixpoint sall (p : ascii -> bool) (s : string) : bool :=
  match s with
  | EmptyString => true
  | String c s' => p c && sall p s'
  end.

Fixpoint sfilter (p : ascii -> bool) (s : string) : string :=
  match s with
  | EmptyString => EmptyString
  | String c s' => if p c then String c (sfilter p s') else sfilter p s'
  end.

(** [s.lower()], [s.upper()], [s.capitalize()]. *)
Definition lower (s : string) : string := smap lower_char s.
Definition upper (s : string) : string := smap upper_char s.
Definition capitalize (s : string) : string :=
  match s with
  | EmptyString => EmptyString
  | String c s' => String (upper_char c) (lower s')
  end.

(** [bool(s)]: a string is truthy when it is not empty. *)
Definition truthy (s : string) : bool :=
  match s with EmptyString => false | _ => true end.

(** [s.isdigit()], [s.isalpha()]: false on the empty string. *)
Definition isdigit (s : string) : bool := truthy s && sall is_digit s.
Definition isalpha (s : string) : bool := truthy s && sall is_alpha s.

(** [s[0].isupper()] for a non-empty [s]. *)
Definition first_isupper (s : string) : bool :=
  match s with
  | EmptyString => false
  | String c _ => is_upper c
  end.

(** [sub in s]. *)
Fixpoint contains (sub s : string) : bool :=
  prefix sub s ||
  match s with
  | EmptyString => false
  | String _ s' => contains sub s'
  end.

(** [c in s] for one character. *)
Fixpoint has_char (c : ascii) (s : string) : bool :=
  match s with
  | EmptyString => false
  | String d s' => Ascii.eqb c d || has_char c s'
  end.

(** [x in xs] for a collection of strings. *)
Definition mem (x : string) (xs : list string) : bool :=
  existsb (String.eqb x) xs.

(** [s[:n]] and [s[n:]]. *)
Fixpoint take (n : nat) (s : string) : string :=
  match n, s with
  | S n', String c s' => String c (take n' s')
  | _, _ => EmptyString
  end.

Fixpoint drop (n : nat) (s : string) : string :=
  match n, s with
  | S n', String _ s' => drop n' s'
  | _, _ => s
  end.

(** [s[i:j]]. *)
Definition slice (i j : nat) (s : string) : string := take (j - i) (drop i s).

(** Splitting at every character of a class: [s.split(c)] for a one
    character separator and [re.split] for a one character class.  The
    result always has at least one piece. *)
Fixpoint split_on (sep : ascii -> bool) (s : string) : list string :=
  match s with
  | EmptyString => [EmptyString]
  | String c s' =>
      if sep c then EmptyString :: split_on sep s'
      else match split_on sep s' with
           | [] => [String c EmptyString]
           | p :: ps => String c p :: ps
           end
  end.

(** [sep.join(xs)]. *)
Fixpoint join (sep : string) (xs : list string) : string :=
  match xs with
  | [] => EmptyString
  | [x] => x
  | x :: rest => x ++ sep ++ join sep rest
  end.

(** [s.split()]: the pieces between runs of white space, none empty. *)
Definition split_ws (s : string) : list string :=
  filter truthy (split_on is_space s).

(** [n] in decimal, as an f-string prints an [int]. *)
Definition str_of_nat (n : nat) : string :=
  NilZero.string_of_uint (Nat.to_uint n).

End Py.

(* ================================================================== *)
(** ** The fragment of [re] the program uses *)

Module Re.

(** A pattern is a sequence of greedy bounded repetitions of a character
    class, possibly followed by the end anchor. *)
Inductive item : Type :=
| Rep (cls : ascii -> bool) (lo : nat) (hi : option nat)
| Eol.

Definition pattern := list item.

Definition one (cls : ascii -> bool) : item := Rep cls 1 (Some 1).
Definition opt (cls : ascii -> bool) : item := Rep cls 0 (Some 1).
Definition plus (cls : ascii -> bool) : item := Rep cls 1 None.
Definition exactly (n : nat) (cls : ascii -> bool) : item := Rep cls n (Some n).
Definition at_least (n : nat) (cls : ascii -> bool) : item := Rep cls n None.

Definition may_take (hi : option nat) : bool :=
  match hi with
  | None => true
  | Some h => 0 <? h
  end.

(** [$] without MULTILINE: at the end, or before a final line feed. *)
Definition at_eol (s : string) : bool :=
  match s with
  | EmptyString => true
  | String c EmptyString => Py.code c =? 10
  | _ => false
  end.

(** Greedy repetition with backtracking: take one more character when
    allowed and try the rest; fall back to stopping here.  The result is
    the number of characters the whole match consumed. *)
Fixpoint rep (cls : ascii -> bool) (lo : nat) (hi : option nat)
         (k : string -> option nat) (s : string) : option nat :=
  let stop := if lo =? 0 then k s else None in
  match s with
  | String c s' =>
      if cls c && may_take hi then
        match rep cls (pred lo) (option_map pred hi) k s' with
        | Some n => Some (S n)
        | None => stop
        end
      else stop
  | EmptyString => stop
  end.

Fixpoint match_here (p : pattern) (s : string) : option nat :=
  match p with
  | [] => Some 0
  | Rep cls lo hi :: p' => rep cls lo hi (match_here p') s
  | Eol :: p' => if at_eol s then match_here p' s else None
  end.

(** [pattern.match(s)] as a truth value. *)
Definition matches (p : pattern) (s : string) : bool :=
  match match_here p s with
  | Some _ => true
  | None => false
  end.

(** [pattern.findall(s)] for a pattern without groups: the leftmost
    matches, not overlapping.  [skip] counts the characters of the
    previous match that are still to be passed over.  None of the
    program's patterns matches the empty string, so the empty match is
    treated like a failure. *)
Fixpoint findall_from (p : pattern) (skip : nat) (s : string) : list string :=
  match s with
  | EmptyString => []
  | String _ s' =>
      match skip with
      | S k => findall_from p k s'
      | O =>
          match match_here p s with
          | Some (S n) => Py.take (S n) s :: findall_from p n s'
          | _ => findall_from p 0 s'
          end
      end
  end.

Definition findall (p : pattern) (s : string) : list string :=
  findall_from p 0 s.

End Re.

(* ================================================================== *)
(** ** models.py *)

Module Models.

(** [PdfWord]: a word with its bounding box and page. *)
Record PdfWord : Type := mkPdfWord {
  text : string;
  x0 : Q;
  y0 : Q;
  x1 : Q;
  y1 : Q;
  page_num : nat
}.

Definition center_x (w : PdfWord) : Q := (x0 w + x1 w) / 2.
Definition center_y (w : PdfWord) : Q := (y0 w + y1 w) / 2.
Definition width (w : PdfWord) : Q := x1 w - x0 w.
Definition height (w : PdfWord) : Q := y1 w - y0 w.

(** The [email_coords] dictionary, which always has the keys x, y, page. *)
Record Coords : Type := mkCoords {
  coord_x : Q;
  coord_y : Q;
  coord_page : nat
}.

(** [PdfContact]: the intermediate record of the extraction. *)
Record PdfContact : Type := mkPdfContact {
  pc_email : string;
  pc_name : option string;
  pc_phone : option string;
  pc_email_coords : Coords;
  pc_page_num : nat
}.

(** [Contact]: the final record. *)
Record Contact : Type := mkContact {
  name : option string;
  email : string;
  phone : option string;
  profileUrl : option string;
  source : string;
  confidence : string;
  domain : option string;
  domainType : option string
}.

(** Truth value of an [Optional[str]]: [None] and the empty string are
    falsy. *)
Definition truthy_opt (o : option string) : bool :=
  match o with
  | Some s => Py.truthy s
  | None => false
  end.

End Models.

(* ================================================================== *)
(** ** pdf_extract.py *)

Module PdfExtract.
Import Models.

Definition BLACKLIST : list string :=
  [ "contact"; "email"; "phone"; "website"; "address"; "location";
    "sign in"; "log in"; "sign up"; "log out"; "register"; "login";
    "get help"; "contact us"; "about us"; "view profile"; "view all";
    "learn more"; "read more"; "see more"; "show more"; "load more";
    "find an agent"; "find a"; "search"; "filter"; "back to";
    "click here"; "more info"; "details";
    "menu"; "home"; "listings"; "properties"; "agents";
    "about"; "services"; "resources"; "blog"; "news";
    "compass"; "compass one"; "compass luxury"; "compass academy";
    "compass plus";
    "compass cares"; "private exclusives"; "coming soon";
    "new development"; "recently sold"; "sales leadership";
    "neighborhood guides"; "mortgage calculator"; "external suppliers";
    "agent"; "broker"; "realtor"; "licensed"; "certified";
    "team"; "group"; "partners"; "associates";
    "name"; "first name"; "last name"; "full name";
    "your name"; "enter name"; "user name"; "username";
    "manhattan"; "brooklyn"; "queens"; "bronx"; "staten island";
    "new york"; "ny"; "nyc"; "city"; "state"; "zip" ].

Definition alnum (c : ascii) : bool := Py.is_alpha c || Py.is_digit c.
Definition one_of (chars : string) (c : ascii) : bool := Py.has_char c chars.

(** [[a-zA-Z0-9._%+-]+@[a-zA-Z0-9.-]+\.[a-zA-Z]{2,}] *)
Definition EMAIL_PATTERN : Re.pattern :=
  [ Re.plus (fun c => alnum c || one_of "._%+-" c);
    Re.one (one_of "@");
    Re.plus (fun c => alnum c || one_of ".-" c);
    Re.one (one_of ".");
    Re.at_least 2 Py.is_alpha ].

Definition phone_sep (c : ascii) : bool := one_of "-." c || Py.is_space c.

(** [\(?\d{3}\)?[-.\s]?\d{3}[-.\s]?\d{4}] *)
Definition PHONE_PATTERN : Re.pattern :=
  [ Re.opt (one_of "(");
    Re.exactly 3 Py.is_digit;
    Re.opt (one_of ")");
    Re.opt phone_sep;
    Re.exactly 3 Py.is_digit;
    Re.opt phone_sep;
    Re.exactly 4 Py.is_digit ].

Definition name_char (c : ascii) : bool :=
  Py.is_alpha c || one_of "'-." c || Py.is_space c.

(** [^[A-Z][a-zA-Z'\-\.\s]{1,48}[a-zA-Z]$], used through [match], which
    anchors at the start. *)
Definition NAME_PATTERN : Re.pattern :=
  [ Re.one Py.is_upper;
    Re.Rep name_char 1 (Some 48);
    Re.one Py.is_alpha;
    Re.Eol ].

Definition ui_words : list string :=
  [ "find"; "agent"; "last name"; "first name"; "register"; "login";
    "view"; "profile" ].

Definition is_valid_name (text : string) : bool :=
  if negb (Py.truthy text) || (length text <? 2) || (50 <? length text)
  then false
  else
    let text_lower := Py.lower text in
    if Py.mem text_lower BLACKLIST then false
    else if existsb (fun word => Py.contains word text_lower) ui_words
    then false
    else if negb (Py.first_isupper text) then false
    else if negb (Re.matches NAME_PATTERN text) then false
    else true.

(** [find_emails_in_words]: every match in every word, lower-cased, with
    the word it was found in. *)
Definition find_emails_in_words (words : list PdfWord)
  : list (string * PdfWord) :=
  flat_map
    (fun word =>
       map (fun email => (Py.lower email, word))
           (Re.findall EMAIL_PATTERN (text word)))
    words.

(** Comparison of coordinates. *)
Definition Qlt_bool (a b : Q) : bool := negb (Qle_bool b a).

(** [lo <= v <= hi] *)
Definition in_band (lo v hi : Q) : bool := Qle_bool lo v && Qle_bool v hi.

(** [list.sort(key=...)]: a stable sort by a rational key. *)
Section Sort.
Context {A : Type} (key : A -> Q).

Fixpoint insert_by (x : A) (l : list A) : list A :=
  match l with
  | [] => [x]
  | y :: l' =>
      if Qle_bool (key x) (key y) then x :: l else y :: insert_by x l'
  end.

Definition sort_by (l : list A) : list A := fold_right insert_by [] l.
End Sort.

Definition Qsum (l : list Q) : Q := fold_left Qplus l 0%Q.

(** The span of a group of candidates: the texts joined by one space and
    the mean of the distances. *)
Definition combined_text (group : list (PdfWord * Q)) : string :=
  Py.join " " (map (fun c => text (fst c)) group).

Definition avg_distance (group : list (PdfWord * Q)) : Q :=
  (Qsum (map snd group) / inject_Z (Z.of_nat (List.length group)))%Q.

(** The candidate filter of the name search. *)
Definition name_candidate (email_word : PdfWord)
           (search_distance x_tolerance : Q) (word : PdfWord) : bool :=
  let email_x := center_x email_word in
  let email_y := y0 email_word in
  let y_min := (email_y - search_distance)%Q in
  let y_max := email_y in
  let x_min := (email_x - x_tolerance)%Q in
  let x_max := (email_x + x_tolerance)%Q in
  (page_num word =? page_num email_word)
  && in_band y_min (center_y word) y_max
  && in_band x_min (center_x word) x_max
  && Py.truthy (text word) && Py.first_isupper (text word).

(** State of the grouping loop. *)
Record walk : Type := mkWalk {
  name_candidates : list (string * Q);
  current_group : list (PdfWord * Q);
  last_y : option Q;
  last_x : option Q
}.

(** Saving a finished group: it becomes a name candidate when the
    validator accepts its text. *)
Definition save_group (group : list (PdfWord * Q))
           (acc : list (string * Q)) : list (string * Q) :=
  match group with
  | [] => acc
  | _ =>
      if is_valid_name (combined_text group)
      then acc ++ [(combined_text group, avg_distance group)]
      else acc
  end.

Definition same_line (st : walk) (word : PdfWord) : bool :=
  match last_y st, last_x st with
  | Some ly, Some lx =>
      Qlt_bool (Qabs (y0 word - ly)) 5 && Qlt_bool (Qabs (x0 word - lx)) 150
  | _, _ => false
  end.

Definition walk_step (st : walk) (c : PdfWord * Q) : walk :=
  let word := fst c in
  if same_line st word then
    mkWalk (name_candidates st) (current_group st ++ [c])
           (Some (y0 word)) (Some (x1 word))
  else
    mkWalk (save_group (current_group st) (name_candidates st)) [c]
           (Some (y0 word)) (Some (x1 word)).

Definition walk_init : walk := mkWalk [] [] None None.

Definition find_name_above_email_with
           (email_word : PdfWord) (all_words : list PdfWord)
           (search_distance x_tolerance : Q) : option string :=
  let email_y := y0 email_word in
  let candidates :=
    map (fun word => (word, Qabs (center_y word - email_y)))
        (filter (name_candidate email_word search_distance x_tolerance)
                all_words) in
  match candidates with
  | [] => None
  | _ =>
      let sorted := sort_by snd candidates in
      let st := fold_left walk_step sorted walk_init in
      let found := save_group (current_group st) (name_candidates st) in
      match sort_by snd found with
      | [] => None
      | best :: _ => Some (fst best)
      end
  end.

(** The call with the default [search_distance=60.0], [x_tolerance=100.0]. *)
Definition find_name_above_email (email_word : PdfWord)
           (all_words : list PdfWord) : option string :=
  find_name_above_email_with email_word all_words 60 100.

(** The normalisation at the end of [find_phone_below_email]. *)
Definition normalize_phone (phone : string) : string :=
  let digits := Py.sfilter Py.is_digit phone in
  if length digits =? 10 then
    "+1-" ++ Py.slice 0 3 digits ++ "-" ++ Py.slice 3 6 digits
          ++ "-" ++ Py.drop 6 digits
  else if (length digits =? 11) && String.eqb (Py.slice 0 1 digits) "1" then
    "+" ++ Py.slice 0 1 digits ++ "-" ++ Py.slice 1 4 digits
        ++ "-" ++ Py.slice 4 7 digits ++ "-" ++ Py.drop 7 digits
  else phone.

(** The candidate window of the phone search. *)
Definition phone_window (email_word : PdfWord)
           (search_distance x_tolerance : Q) (word : PdfWord) : bool :=
  let email_x := center_x email_word in
  let email_y := y1 email_word in
  let y_min := email_y in
  let y_max := (email_y + search_distance)%Q in
  let x_min := (email_x - x_tolerance)%Q in
  let x_max := (email_x + x_tolerance)%Q in
  (page_num word =? page_num email_word)
  && in_band y_min (center_y word) y_max
  && in_band x_min (center_x word) x_max.

(** The candidates of the phone search: the first match of every word
    of the window that has one, with its distance. *)
Definition phone_candidates_of (email_word : PdfWord)
           (all_words : list PdfWord)
           (search_distance x_tolerance : Q) : list (string * Q) :=
  flat_map
    (fun word =>
       if phone_window email_word search_distance x_tolerance word then
         match Re.findall PHONE_PATTERN (text word) with
         | [] => []
         | m :: _ => [(m, Qabs (center_y word - y1 email_word))]
         end
       else [])
    all_words.

Definition find_phone_below_email_with
           (email_word : PdfWord) (all_words : list PdfWord)
           (search_distance x_tolerance : Q) : option string :=
  match sort_by snd (phone_candidates_of email_word all_words
                                         search_distance x_tolerance) with
  | [] => None
  | best :: _ => Some (normalize_phone (fst best))
  end.

(** The call with the default [search_distance=40.0], [x_tolerance=100.0]. *)
Definition find_phone_below_email (email_word : PdfWord)
           (all_words : list PdfWord) : option string :=
  find_phone_below_email_with email_word all_words 40 100.

(** The contact built for one email and the word it was found in. *)
Definition make_contact (all_words : list PdfWord)
           (email_text : string) (email_word : PdfWord) : PdfContact :=
  mkPdfContact email_text
               (find_name_above_email email_word all_words)
               (find_phone_below_email email_word all_words)
               (mkCoords (center_x email_word) (center_y email_word)
                         (page_num email_word))
               (page_num email_word).

(** The loop over the emails: [contacts] and [seen_emails]. *)
Definition contacts_step (all_words : list PdfWord)
           (st : list PdfContact * list string) (e : string * PdfWord)
  : list PdfContact * list string :=
  let (contacts, seen_emails) := st in
  let (email_text, email_word) := e in
  if Py.mem email_text seen_emails then st
  else ((contacts ++ [make_contact all_words email_text email_word])%list,
        email_text :: seen_emails).

(** The body of [extract_contacts_from_pdf] once the words are read. *)
Definition extract_contacts_from_words (all_words : list PdfWord)
  : list PdfContact :=
  match all_words with
  | [] => []
  | _ =>
      match find_emails_in_words all_words with
      | [] => []
      | emails => fst (fold_left (contacts_step all_words) emails ([], []))
      end
  end.

(** Outcome of a call that can raise. *)
Inductive outcome (A : Type) : Type :=
| Returns (a : A)
| Raises_FileNotFoundError (msg : string).
Arguments Returns {A} a.
Arguments Raises_FileNotFoundError {A} msg.

(** A file system maps a path to the words [extract_words_from_pdf]
    reads from the document at that path, when there is one. *)
Definition file_system := string -> option (list PdfWord).

Definition extract_contacts_from_pdf (fs : file_system) (pdf_path : string)
  : outcome (list PdfContact) :=
  match fs pdf_path with
  | None => Raises_FileNotFoundError ("PDF not found: " ++ pdf_path)
  | Some all_words => Returns (extract_contacts_from_words all_words)
  end.

End PdfExtract.

(* ================================================================== *)
(** ** pairing.py *)

Module Pairing.
Import Models.

Definition GENERIC_PREFIXES : list string :=
  [ "info"; "contact"; "admin"; "support"; "help"; "sales";
    "hello"; "team"; "office"; "mail"; "noreply"; "no-reply" ].

Definition PERSONAL_DOMAINS : list string :=
  [ "gmail.com"; "yahoo.com"; "hotmail.com"; "outlook.com"; "aol.com";
    "icloud.com"; "me.com"; "mac.com"; "protonmail.com"; "mail.com";
    "yandex.com"; "gmx.com"; "zoho.com"; "live.com"; "msn.com" ].

Definition is_at (c : ascii) : bool := Ascii.eqb c "@".

(** [email.split('@')[i]]; the pieces exist where the program indexes. *)
Definition piece (i : nat) (email : string) : string :=
  nth i (Py.split_on is_at email) EmptyString.

Definition extract_domain (email : string) : option string :=
  if Py.has_char "@" email then Some (Py.lower (piece 1 email)) else None.

Definition classify_domain (domain : option string) : string :=
  if negb (truthy_opt domain) then "personal"
  else match domain with
       | Some d => if Py.mem d PERSONAL_DOMAINS then "personal" else "business"
       | None => "personal"
       end.

(** The loop of [derive_name_from_email] over the parts. *)
Definition name_part (part : string) : list string :=
  if negb (Py.truthy part) then []
  else if Py.isdigit part then []
  else if (length part =? 1) && Py.isalpha part
       then [Py.upper part ++ "."]
       else [Py.capitalize part].

Definition name_sep (c : ascii) : bool := Py.has_char c "._-".

Definition derive_name_from_email (email : string) : string :=
  if negb (Py.has_char "@" email) then "Unknown"
  else
    let prefix := Py.lower (piece 0 email) in
    if Py.mem prefix GENERIC_PREFIXES then "Unknown"
    else
      let parts := Py.split_on name_sep prefix in
      match flat_map name_part parts with
      | [] => "Unknown"
      | name_parts => Py.join " " name_parts
      end.

Definition has_name (c : Contact) : bool :=
  truthy_opt (name c) &&
  negb (match name c with
        | Some n => String.eqb n "Unknown"
        | None => false
        end).
Definition has_email (c : Contact) : bool := Py.truthy (email c).
Definition has_phone (c : Contact) : bool := truthy_opt (phone c).

Definition calculate_confidence (contact : Contact) : string :=
  if has_name contact && has_email contact && has_phone contact then "high"
  else if (has_name contact && has_email contact)
          || (has_email contact && has_phone contact) then "medium"
  else "low".

Definition set_confidence (c : Contact) (v : string) : Contact :=
  mkContact (name c) (email c) (phone c) (profileUrl c) (source c) v
            (domain c) (domainType c).

(** The body of the loop of [process_pdf_contacts]. *)
Definition process_one (pdf_contact : PdfContact) : Contact :=
  let name0 :=
    if truthy_opt (pc_name pdf_contact) then pc_name pdf_contact
    else Some (derive_name_from_email (pc_email pdf_contact)) in
  let domain := extract_domain (pc_email pdf_contact) in
  let domain_type := classify_domain domain in
  let contact :=
    mkContact
      (match name0 with
       | Some n => if String.eqb n "Unknown" then None else Some n
       | None => None
       end)
      (pc_email pdf_contact) (pc_phone pdf_contact) None "pdf" "medium"
      domain (Some domain_type) in
  set_confidence contact (calculate_confidence contact).

Definition process_pdf_contacts (pdf_contacts : list PdfContact)
           (page_url : string) : list Contact :=
  map process_one pdf_contacts.

(** The pipeline of [cli.main]: extraction, then pairing. *)
Definition pipeline (all_words : list PdfWord) (page_url : string)
  : list Contact :=
  process_pdf_contacts (PdfExtract.extract_contacts_from_words all_words)
                       page_url.

End Pairing.

(* ================================================================== *)
(** ** Notions used to state the properties *)

Module Props.
Import Models PdfExtract Pairing.

(** What a pattern accepts: [parses p m rest] holds when [p] can match
    the text [m] in front of the remaining input [rest]. *)
Inductive parses : Re.pattern -> string -> string -> Prop :=
| parses_nil : forall rest, parses [] EmptyString rest
| parses_rep : forall cls lo hi p piece m rest,
    Py.sall cls piece = true ->
    lo <= length piece ->
    (forall h, hi = Some h -> length piece <= h) ->
    parses p m rest ->
    parses (Re.Rep cls lo hi :: p) (piece ++ m) rest
| parses_eol : forall p m rest,
    Re.at_eol (m ++ rest) = true ->
    parses p m rest ->
    parses (Re.Eol :: p) m rest.

(** The least number of characters a pattern consumes. *)
Fixpoint min_len (p : Re.pattern) : nat :=
  match p with
  | [] => 0
  | Re.Rep _ lo _ :: p' => lo + min_len p'
  | Re.Eol :: p' => min_len p'
  end.

(** A canonical phone number: three, three and four digits. *)
Definition digits_n (n : nat) (s : string) : Prop :=
  length s = n /\ Py.sall Py.is_digit s = true.

Definition canonical_phone (s : string) : Prop :=
  exists a b c,
    digits_n 3 a /\ digits_n 3 b /\ digits_n 4 c /\
    s = "+1-" ++ a ++ "-" ++ b ++ "-" ++ c.

(** The groups the walk of [find_name_above_email] forms, before the
    validator is asked: the same loop, keeping every finished group. *)
Definition group := list (PdfWord * Q).

Record gwalk : Type := mkGwalk {
  finished : list group;
  open_group : group;
  g_last_y : option Q;
  g_last_x : option Q
}.

Definition close_group (g : group) (acc : list group) : list group :=
  match g with
  | [] => acc
  | _ => (acc ++ [g])%list
  end.

Definition g_same_line (st : gwalk) (word : PdfWord) : bool :=
  match g_last_y st, g_last_x st with
  | Some ly, Some lx =>
      Qlt_bool (Qabs (y0 word - ly)) 5 && Qlt_bool (Qabs (x0 word - lx)) 150
  | _, _ => false
  end.

Definition gwalk_step (st : gwalk) (c : PdfWord * Q) : gwalk :=
  let word := fst c in
  if g_same_line st word then
    mkGwalk (finished st) (open_group st ++ [c])%list
            (Some (y0 word)) (Some (x1 word))
  else
    mkGwalk (close_group (open_group st) (finished st)) [c]
            (Some (y0 word)) (Some (x1 word)).

Definition groups_of (sorted : list (PdfWord * Q)) : list group :=
  let st := fold_left gwalk_step sorted (mkGwalk [] [] None None) in
  close_group (open_group st) (finished st).

(** The spans of the groups the validator accepts, with their scores. *)
Definition spans_of (gs : list group) : list (string * Q) :=
  flat_map
    (fun g =>
       if is_valid_name (combined_text g)
       then [(combined_text g, avg_distance g)]
       else [])
    gs.

(** The walk of the program and the walk that keeps the groups agree. *)
Definition walks_agree (st : walk) (gst : gwalk) : Prop :=
  name_candidates st = spans_of (finished gst) /\
  current_group st = open_group gst /\
  last_y st = g_last_y gst /\
  last_x st = g_last_x gst.

(** A group whose joined text the validator accepts. *)
Definition accepted (g : group) : Prop :=
  is_valid_name (combined_text g) = true.

(** The search window of the name search, on the same page. *)
Definition in_name_window (email_word word : PdfWord) : Prop :=
  page_num word = page_num email_word /\
  (y0 email_word - 60 <= center_y word)%Q /\
  (center_y word <= y0 email_word)%Q /\
  (center_x email_word - 100 <= center_x word)%Q /\
  (center_x word <= center_x email_word + 100)%Q.

(** Order of two elements by their keys. *)
Definition key_le {A : Type} (key : A -> Q) (a b : A) : Prop :=
  (key a <= key b)%Q.

(** Order of the confidence tiers. *)
Definition rank (tier : string) : nat :=
  if String.eqb tier "high" then 2
  else if String.eqb tier "medium" then 1
  else 0.

(** Presence of the three fields of a contact. *)
Definition name_present (c : Contact) : Prop :=
  exists n, name c = Some n /\ n <> EmptyString /\ n <> "Unknown".
Definition email_present (c : Contact) : Prop := email c <> EmptyString.
Definition phone_present (c : Contact) : Prop :=
  exists p, phone c = Some p /\ p <> EmptyString.

(** Invariant of the extraction loop: it keeps [seen_emails] equal to the emails of [contacts], which
    are pairwise distinct. *)
Definition loop_inv (st : list PdfContact * list string) : Prop :=
  (forall e, In e (snd st) <-> In e (map pc_email (fst st))) /\
  NoDup (map pc_email (fst st)).

(** The emails of a word, as the locator reports them. *)
Definition emails_of (word : PdfWord) : list string :=
  map Py.lower (Re.findall EMAIL_PATTERN (text word)).

End Props.

(* ================================================================== *)
(** ** models.py: the properties of [Contact] *)

Module ContactMethods.
Import Models.

(** [Contact.is_complete], [Contact.has_name], [Contact.has_phone]. *)
Definition is_complete (c : Contact) : bool :=
  truthy_opt (name c) && Py.truthy (email c) && truthy_opt (phone c).
Definition has_name (c : Contact) : bool := truthy_opt (name c).
Definition has_phone (c : Contact) : bool := truthy_opt (phone c).

End ContactMethods.

(* ================================================================== *)
(** ** cli.py: the counts of the summary and the limit *)

Module Cli.
Import Models.

(** [c.domainType == t] *)
Definition domainType_is (t : string) (c : Contact) : bool :=
  match domainType c with
  | Some d => String.eqb d t
  | None => false
  end.

(** [sum(1 for c in contacts if p(c))] *)
Definition count_if (p : Contact -> bool) (contacts : list Contact) : nat :=
  List.length (filter p contacts).

(** The five numbers [print_summary] computes before it logs them. *)
Record summary : Type := mkSummary {
  total : nat;
  with_names : nat;
  with_phones : nat;
  complete : nat;
  business : nat
}.

Definition print_summary_counts (contacts : list Contact) : summary :=
  mkSummary (List.length contacts)
            (count_if ContactMethods.has_name contacts)
            (count_if ContactMethods.has_phone contacts)
            (count_if ContactMethods.is_complete contacts)
            (count_if (domainType_is "business") contacts).

(** [l[:n]] for an integer [n] of either sign. *)
Definition slice_to {A : Type} (n : Z) (l : list A) : list A :=
  if (0 <=? n)%Z then firstn (Z.to_nat n) l
  else firstn (List.length l - Z.to_nat (- n)) l.

(** The limit of [main]: [--limit] is an integer or absent. *)
Definition apply_limit (limit : option Z) (pdf_contacts : list PdfContact)
  : list PdfContact :=
  match limit with
  | None => pdf_contacts
  | Some n =>
      if negb (n =? 0)%Z && (n <? Z.of_nat (List.length pdf_contacts))%Z
      then slice_to n pdf_contacts
      else pdf_contacts
  end.

(** [main] from the extracted contacts on: limit, then pairing. *)
Definition main_contacts (limit : option Z) (pdf_contacts : list PdfContact)
           (url : string) : list Contact :=
  Pairing.process_pdf_contacts (apply_limit limit pdf_contacts) url.

End Cli.

(* ================================================================== *)
(** ** writer.py: the domain statistics *)

Module Writer.
Import Models.

(** A [defaultdict(int)], in insertion order. *)
Definition counter := list (string * nat).

(** [d[k] += 1] *)
Fixpoint incr (k : string) (d : counter) : counter :=
  match d with
  | [] => [(k, 1)]
  | (k', n) :: d' =>
      if String.eqb k k' then (k', S n) :: d' else (k', n) :: incr k d'
  end.

(** [sorted(d.items(), key=lambda x: x[1], reverse=True)]: stable, by
    decreasing count. *)
Fixpoint insert_desc (x : string * nat) (l : counter) : counter :=
  match l with
  | [] => [x]
  | y :: l' => if snd y <=? snd x then x :: l else y :: insert_desc x l'
  end.

Definition sorted_desc (d : counter) : counter := fold_right insert_desc [] d.

(** State of the counting loop. *)
Record tally : Type := mkTally {
  domain_counts : counter;
  business_counts : counter;
  personal_count : nat;
  business_count : nat
}.

Definition tally_step (t : tally) (contact : Contact) : tally :=
  match domain contact with
  | Some d =>
      if Py.truthy d then
        let dc := incr d (domain_counts t) in
        if Cli.domainType_is "business" contact then
          mkTally dc (incr d (business_counts t)) (personal_count t)
                  (S (business_count t))
        else if Cli.domainType_is "personal" contact then
          mkTally dc (business_counts t) (S (personal_count t))
                  (business_count t)
        else mkTally dc (business_counts t) (personal_count t)
                     (business_count t)
      else t
  | None => t
  end.

Definition tally_of (contacts : list Contact) : tally :=
  fold_left tally_step contacts (mkTally [] [] 0 0).

(** [contact.domain == d and contact.domainType == 'personal'] *)
Definition personal_at (d : string) (contact : Contact) : bool :=
  match domain contact with
  | Some d' => String.eqb d' d
  | None => false
  end && Cli.domainType_is "personal" contact.

(** The statistics.  The entries of the two top lists are given by their
    domain and count; the percentage string of an entry is a rendering of
    its count and is not part of the model. *)
Record domain_stats : Type := mkStats {
  uniqueDomains : nat;
  businessDomains : nat;
  personalDomains : nat;
  businessEmailCount : nat;
  personalEmailCount : nat;
  topDomains : counter;
  topBusinessDomains : counter
}.

Definition calculate_domain_stats (contacts : list Contact) : domain_stats :=
  let t := tally_of contacts in
  mkStats
    (List.length (domain_counts t))
    (List.length (business_counts t))
    (List.length
       (filter (fun dc => existsb (personal_at (fst dc)) contacts)
               (domain_counts t)))
    (business_count t)
    (personal_count t)
    (firstn 10 (sorted_desc (domain_counts t)))
    (firstn 10 (sorted_desc (business_counts t))).

End Writer.

(* ================================================================== *)
(** ** test_scraper.py: the validation of a contact list *)

Module TestScraper.
Import Models.

(** The issues [validate_contacts] reports, and the text of each. *)
Inductive issue : Type :=
| Duplicate_email (i : nat) (email : string)
| Invalid_email_format (i : nat) (email : string)
| Name_is_ui_element (i : nat) (name : string)
| Possible_cross_contamination (i : nat) (name email : string).

Definition render (x : issue) : string :=
  match x with
  | Duplicate_email i e =>
      "Contact " ++ Py.str_of_nat i ++ ": Duplicate email '" ++ e ++ "'"
  | Invalid_email_format i e =>
      "Contact " ++ Py.str_of_nat i ++ ": Invalid email format '" ++ e ++ "'"
  | Name_is_ui_element i n =>
      "Contact " ++ Py.str_of_nat i ++ ": Name appears to be UI element: '"
                 ++ n ++ "'"
  | Possible_cross_contamination i n e =>
      "Contact " ++ Py.str_of_nat i ++ ": Possible cross-contamination - "
                 ++ "Name '" ++ n ++ "' doesn't match email '" ++ e ++ "'"
  end.

Definition ui_elements : list string :=
  [ "sign in"; "contact us"; "email"; "phone"; "website" ].

(** [part[:3] in email_prefix or email_prefix[:3] in part], over the parts
    longer than two characters. *)
Definition has_match (name_parts : list string) (email_prefix : string) : bool :=
  existsb
    (fun part =>
       Py.contains (Py.take 3 part) email_prefix
       || Py.contains (Py.take 3 email_prefix) part)
    (filter (fun part => 2 <? length part) name_parts).

(** The checks of one contact, numbered [i], given the emails seen. *)
Definition check_contact (i : nat) (emails_seen : list string)
           (contact : Contact) : list issue :=
  ((if Py.mem (email contact) emails_seen
    then [Duplicate_email i (email contact)] else [])
   ++
   (if negb (Py.has_char "@" (email contact))
    then [Invalid_email_format i (email contact)] else [])
   ++
   match name contact with
   | Some n =>
       if Py.truthy n then
         let name_lower := Py.lower n in
         let email_lower := Py.lower (email contact) in
         (if existsb (fun ui => Py.contains ui name_lower) ui_elements
          then [Name_is_ui_element i n] else [])
         ++
         (if Py.has_char " " n then
            let name_parts := Py.split_ws name_lower in
            let email_prefix := Pairing.piece 0 email_lower in
            if negb (has_match name_parts email_prefix)
               && (2 <=? List.length name_parts)
            then [Possible_cross_contamination i n (email contact)]
            else []
          else [])
       else []
   | None => []
   end)%list.

(** The loop over [enumerate(contacts, 1)]. *)
Fixpoint issues_from (i : nat) (emails_seen : list string)
         (contacts : list Contact) : list issue :=
  match contacts with
  | [] => []
  | contact :: rest =>
      (check_contact i emails_seen contact
       ++ issues_from (S i) (email contact :: emails_seen) rest)%list
  end.

Record validation : Type := mkValidation {
  passed : bool;
  issues : list string
}.

Definition validate_contacts (contacts : list Contact) : validation :=
  let found := issues_from 1 [] contacts in
  mkValidation (List.length found =? 0) (map render found).

End TestScraper.

(* ================================================================== *)
(** ** rate_limiter.py: retry with exponential backoff *)

Module RateLimiter.

(** One call of the retried function: it returns or it raises.  The
    exception raised may be an [Exception], which [except Exception]
    catches, or another [BaseException] ([KeyboardInterrupt],
    [SystemExit]), which it lets through. *)
Inductive attempt_result (A E : Type) : Type :=
| Call_returns (a : A)
| Call_raises (e : E).
Arguments Call_returns {A E} a.
Arguments Call_raises {A E} e.

(** How [retry_with_backoff] ends.  With no attempt made, [raise None] is
    a [TypeError]. *)
Inductive retry_result (A E : Type) : Type :=
| Retry_returns (a : A)
| Retry_raises (e : E)
| Retry_raises_TypeError.
Arguments Retry_returns {A E} a.
Arguments Retry_raises {A E} e.
Arguments Retry_raises_TypeError {A E}.

(** A run: its end, the number of calls made, and the seconds slept
    before each retry, in order. *)
Record run (A E : Type) : Type := mkRun {
  result : retry_result A E;
  calls : nat;
  slept : list nat
}.
Arguments mkRun {A E} result calls slept.
Arguments result {A E} r.
Arguments calls {A E} r.
Arguments slept {A E} r.

Section Retry.
Context {A E : Type}.

(** [isinstance(e, Exception)] *)
Variable is_Exception : E -> bool.

(** [func k] is what the [k]-th call of the function does, from 0. *)
Variable func : nat -> attempt_result A E.
Variable max_retries : nat.

(** The loop [for attempt in range(max_retries)], with [remaining]
    iterations to go. *)
Fixpoint retry_from (attempt remaining : nat) (last_exception : option E)
         (slept : list nat) : run A E :=
  match remaining with
  | O =>
      mkRun (match last_exception with
             | Some e => Retry_raises e
             | None => Retry_raises_TypeError
             end) attempt slept
  | S remaining' =>
      match func attempt with
      | Call_returns a => mkRun (Retry_returns a) (S attempt) slept
      | Call_raises e =>
          if is_Exception e then
            if attempt <? max_retries - 1
            then retry_from (S attempt) remaining' (Some e)
                            (slept ++ [2 ^ attempt])%list
            else retry_from (S attempt) remaining' (Some e) slept
          else mkRun (Retry_raises e) (S attempt) slept
      end
  end.

Definition retry_with_backoff : run A E :=
  retry_from 0 max_retries None [].

End Retry.

End RateLimiter.

(* ================================================================== *)
(** ** Further notions used to state properties *)

Module MoreProps.
Import Models PdfExtract Pairing Props.

(** The character classes of the email pattern. *)
Definition local_char (c : ascii) : bool := alnum c || one_of "._%+-" c.
Definition domain_char (c : ascii) : bool := alnum c || one_of ".-" c.

(** An address [local@dom.tld]. *)
Definition email_shape (e : string) : Prop :=
  exists local dom tld,
    e = local ++ "@" ++ dom ++ "." ++ tld /\
    local <> EmptyString /\ Py.sall local_char local = true /\
    dom <> EmptyString /\ Py.sall domain_char dom = true /\
    2 <= length tld /\ Py.sall Py.is_alpha tld = true.

(** A string without [@]. *)
Definition no_at (s : string) : Prop := Py.has_char "@" s = false.

(** A group whose consecutive words continue one line: the next top edge
    within 5 units of the previous one, the next left edge within 150
    units of the previous right edge. *)
Fixpoint chained (g : group) : Prop :=
  match g with
  | [] => True
  | c :: rest =>
      match rest with
      | [] => True
      | c' :: _ =>
          (Qabs (y0 (fst c') - y0 (fst c)) < 5)%Q /\
          (Qabs (x0 (fst c') - x1 (fst c)) < 150)%Q /\
          chained rest
      end
  end.

(** Invariant of the grouping walk. *)
Definition gwalk_inv (st : gwalk) : Prop :=
  (forall g, In g (finished st) -> g <> [] /\ chained g) /\
  chained (open_group st) /\
  match open_group st with
  | [] => g_last_y st = None
  | c :: rest =>
      g_last_y st = Some (y0 (fst (last rest c))) /\
      g_last_x st = Some (x1 (fst (last rest c)))
  end.

(** The count a counter holds for a key, 0 when the key is absent. *)
Fixpoint get (k : string) (d : Writer.counter) : nat :=
  match d with
  | [] => 0
  | (k', n) :: d' => if String.eqb k k' then n else get k d'
  end.

(** A contact with the domain [d]. *)
Definition at_domain (d : string) (c : Contact) : bool :=
  match domain c with
  | Some d' => String.eqb d d'
  | None => false
  end.

(** A contact that has a domain. *)
Definition with_domain (c : Contact) : bool := truthy_opt (domain c).

(** Invariant of the counting loop of the statistics, over the contacts
    read so far. *)
Definition tally_inv (seen : list Contact) (t : Writer.tally) : Prop :=
  NoDup (map fst (Writer.domain_counts t)) /\
  (forall d n, In (d, n) (Writer.domain_counts t) -> 1 <= n /\ d <> EmptyString) /\
  (forall d, d <> EmptyString ->
             get d (Writer.domain_counts t)
             = Cli.count_if (at_domain d) seen) /\
  list_sum (map snd (Writer.domain_counts t)) = Cli.count_if with_domain seen /\
  Writer.business_count t
  = Cli.count_if (fun c => with_domain c && Cli.domainType_is "business" c)
                 seen /\
  Writer.personal_count t
  = Cli.count_if (fun c => with_domain c && Cli.domainType_is "personal" c)
                 seen.

(** A contact whose domain type is the class of its domain, as the pairing
    builds it. *)
Definition classified (c : Contact) : Prop :=
  domainType c = Some (classify_domain (domain c)).

(** A domain that is not a listed webmail domain. *)
Definition business_key (d : string) : bool :=
  negb (Py.mem d PERSONAL_DOMAINS).

(** For classified contacts the business counter holds the business
    domains of the domain counter, in the same order. *)
Definition keys_inv (t : Writer.tally) : Prop :=
  map fst (Writer.business_counts t)
  = filter business_key (map fst (Writer.domain_counts t)).

(** Decreasing order of the counts. *)
Definition count_ge (a b : string * nat) : Prop := snd b <= snd a.

(** The sum of the seconds slept. *)
Definition total_slept (l : list nat) : nat := list_sum l.

(** The first [k] calls of a function fail with an [Exception]. *)
Definition fails_first {A E : Type} (is_Exception : E -> bool)
           (func : nat -> RateLimiter.attempt_result A E) (k : nat) : Prop :=
  forall i,
    i < k ->
    exists e, func i = RateLimiter.Call_raises e /\ is_Exception e = true.

End MoreProps.

(* ================================================================== *)
(** ** The two searches over the interpreter's own text and numbers

    [find_name_above_email] and [find_phone_below_email] once more, with
    everything they take from the interpreter left open: a [str] is a
    sequence of code points; [\d], [\s], [str.isupper] and [str.lower]
    follow the Unicode database; the coordinates are [float]s with their
    own arithmetic, comparison and [sum]; and the lists are ordered by
    [list.sort]. *)

Module Interp.

Definition char : Type := N.
Definition str : Type := list char.

Definition chr (a : ascii) : char := N_of_ascii a.

(** A [str] literal of the source. *)
Definition lit (s : string) : str := map chr (list_ascii_of_string s).

Definition is_chr (a : ascii) (c : char) : bool := N.eqb c (chr a).

Definition between (lo hi : N) (c : char) : bool :=
  (N.leb lo c && N.leb c hi)%bool.

(** The classes [[A-Z]] and [[a-zA-Z]], which a pattern spells out. *)
Definition ascii_upper : char -> bool := between 65 90.
Definition ascii_letter (c : char) : bool :=
  between 65 90 c || between 97 122 c.

Record runtime : Type := mkRuntime {
  re_digit : char -> bool;        (* [\d]; [\D] is its complement *)
  re_space : char -> bool;        (* [\s] *)
  char_isupper : char -> bool;    (* [c.isupper()] for one character *)
  str_lower : str -> str;         (* [s.lower()] *)
  num : Type;                     (* [float] *)
  num_of_Z : Z -> num;            (* a literal, or an [int] met by a float *)
  num_add : num -> num -> num;
  num_sub : num -> num -> num;
  num_div : num -> num -> num;
  num_abs : num -> num;
  num_le : num -> num -> bool;
  num_lt : num -> num -> bool;
  num_sum : list num -> num;      (* [sum(l)] *)
  (* [l.sort(key=...)] *)
  sort_by : forall A : Type, (A -> num) -> list A -> list A
}.

(** *** Strings *)

Definition truthy (s : str) : bool :=
  match s with [] => false | _ => true end.

Fixpoint starts_with (sub s : str) : bool :=
  match sub, s with
  | [], _ => true
  | a :: sub', b :: s' => N.eqb a b && starts_with sub' s'
  | _ :: _, [] => false
  end.

(** [sub in s]. *)
Fixpoint contains (sub s : str) : bool :=
  starts_with sub s ||
  match s with
  | [] => false
  | _ :: s' => contains sub s'
  end.

Fixpoint str_eqb (a b : str) : bool :=
  match a, b with
  | [], [] => true
  | x :: a', y :: b' => N.eqb x y && str_eqb a' b'
  | _, _ => false
  end.

(** [x in xs] for a collection of strings. *)
Definition mem (x : str) (xs : list str) : bool := existsb (str_eqb x) xs.

(** [sep.join(xs)]. *)
Fixpoint join (sep : str) (xs : list str) : str :=
  match xs with
  | [] => []
  | [x] => x
  | x :: rest => (x ++ sep ++ join sep rest)%list
  end.

(** [s[i:j]] *)
Definition slice (i j : nat) (s : str) : str := firstn (j - i) (skipn i s).

(** *** Patterns and the matcher, as in [Re] *)

Inductive item : Type :=
| Rep (cls : char -> bool) (lo : nat) (hi : option nat)
| Eol.

Definition pattern := list item.

Definition one (cls : char -> bool) : item := Rep cls 1 (Some 1).
Definition opt (cls : char -> bool) : item := Rep cls 0 (Some 1).
Definition exactly (n : nat) (cls : char -> bool) : item :=
  Rep cls n (Some n).

Definition at_eol (s : str) : bool :=
  match s with
  | [] => true
  | [c] => N.eqb c 10
  | _ => false
  end.

Fixpoint rep (cls : char -> bool) (lo : nat) (hi : option nat)
         (k : str -> option nat) (s : str) : option nat :=
  let stop := if lo =? 0 then k s else None in
  match s with
  | c :: s' =>
      if cls c && Re.may_take hi then
        match rep cls (pred lo) (option_map pred hi) k s' with
        | Some n => Some (S n)
        | None => stop
        end
      else stop
  | [] => stop
  end.

Fixpoint match_here (p : pattern) (s : str) : option nat :=
  match p with
  | [] => Some 0
  | Rep cls lo hi :: p' => rep cls lo hi (match_here p') s
  | Eol :: p' => if at_eol s then match_here p' s else None
  end.

Definition matches (p : pattern) (s : str) : bool :=
  match match_here p s with
  | Some _ => true
  | None => false
  end.

Fixpoint findall_from (p : pattern) (skip : nat) (s : str) : list str :=
  match s with
  | [] => []
  | _ :: s' =>
      match skip with
      | S k => findall_from p k s'
      | O =>
          match match_here p s with
          | Some (S n) => firstn (S n) s :: findall_from p n s'
          | _ => findall_from p 0 s'
          end
      end
  end.

Definition findall (p : pattern) (s : str) : list str := findall_from p 0 s.

(** *** models.py *)

Record PdfWord (R : runtime) : Type := mkPdfWord {
  text : str;
  x0 : num R;
  y0 : num R;
  x1 : num R;
  y1 : num R;
  page_num : nat
}.
Arguments mkPdfWord {R} text x0 y0 x1 y1 page_num.
Arguments text {R} p.
Arguments x0 {R} p.
Arguments y0 {R} p.
Arguments x1 {R} p.
Arguments y1 {R} p.
Arguments page_num {R} p.

Definition center_x {R : runtime} (w : PdfWord R) : num R :=
  num_div R (num_add R (x0 w) (x1 w)) (num_of_Z R 2).

Definition center_y {R : runtime} (w : PdfWord R) : num R :=
  num_div R (num_add R (y0 w) (y1 w)) (num_of_Z R 2).

(** *** pdf_extract.py *)

Definition BLACKLIST : list str := map lit PdfExtract.BLACKLIST.

Definition ui_words : list str := map lit PdfExtract.ui_words.

Definition phone_sep (R : runtime) (c : char) : bool :=
  is_chr "-" c || is_chr "." c || re_space R c.

(** [\(?\d{3}\)?[-.\s]?\d{3}[-.\s]?\d{4}] *)
Definition PHONE_PATTERN (R : runtime) : pattern :=
  [ opt (is_chr "(");
    exactly 3 (re_digit R);
    opt (is_chr ")");
    opt (phone_sep R);
    exactly 3 (re_digit R);
    opt (phone_sep R);
    exactly 4 (re_digit R) ].

Definition name_char (R : runtime) (c : char) : bool :=
  ascii_letter c || is_chr "'" c || is_chr "-" c || is_chr "." c
  || re_space R c.

(** [^[A-Z][a-zA-Z'\-\.\s]{1,48}[a-zA-Z]$] *)
Definition NAME_PATTERN (R : runtime) : pattern :=
  [ one ascii_upper;
    Rep (name_char R) 1 (Some 48);
    one ascii_letter;
    Eol ].

(** [s[0].isupper()] for a non-empty [s]. *)
Definition first_isupper (R : runtime) (s : str) : bool :=
  match s with
  | [] => false
  | c :: _ => char_isupper R c
  end.

Definition is_valid_name (R : runtime) (text : str) : bool :=
  if negb (truthy text) || (List.length text <? 2)
     || (50 <? List.length text)
  then false
  else
    let text_lower := str_lower R text in
    if mem text_lower BLACKLIST then false
    else if existsb (fun word => contains word text_lower) ui_words
    then false
    else if negb (first_isupper R text) then false
    else if negb (matches (NAME_PATTERN R) text) then false
    else true.

(** [lo <= v <= hi] *)
Definition in_band (R : runtime) (lo v hi : num R) : bool :=
  num_le R lo v && num_le R v hi.

Definition combined_text {R : runtime} (group : list (PdfWord R * num R))
  : str :=
  join (lit " ") (map (fun c => text (fst c)) group).

Definition avg_distance {R : runtime} (group : list (PdfWord R * num R))
  : num R :=
  num_div R (num_sum R (map snd group))
          (num_of_Z R (Z.of_nat (List.length group))).

(** The candidate filter of the name search. *)
Definition name_candidate {R : runtime} (email_word : PdfWord R)
           (search_distance x_tolerance : num R) (word : PdfWord R) : bool :=
  let email_x := center_x email_word in
  let email_y := y0 email_word in
  let y_min := num_sub R email_y search_distance in
  let y_max := email_y in
  let x_min := num_sub R email_x x_tolerance in
  let x_max := num_add R email_x x_tolerance in
  (page_num word =? page_num email_word)
  && in_band R y_min (center_y word) y_max
  && in_band R x_min (center_x word) x_max
  && truthy (text word) && first_isupper R (text word).

(** State of the grouping loop. *)
Record walk (R : runtime) : Type := mkWalk {
  name_candidates : list (str * num R);
  current_group : list (PdfWord R * num R);
  last_y : option (num R);
  last_x : option (num R)
}.
Arguments mkWalk {R} name_candidates current_group last_y last_x.
Arguments name_candidates {R} w.
Arguments current_group {R} w.
Arguments last_y {R} w.
Arguments last_x {R} w.

Definition save_group {R : runtime} (group : list (PdfWord R * num R))
           (acc : list (str * num R)) : list (str * num R) :=
  match group with
  | [] => acc
  | _ =>
      if is_valid_name R (combined_text group)
      then (acc ++ [(combined_text group, avg_distance group)])%list
      else acc
  end.

(** The same line test on the previous word's top and right edge. *)
Definition near {R : runtime} (ly lx : option (num R)) (word : PdfWord R)
  : bool :=
  match ly, lx with
  | Some ly, Some lx =>
      num_lt R (num_abs R (num_sub R (y0 word) ly)) (num_of_Z R 5)
      && num_lt R (num_abs R (num_sub R (x0 word) lx)) (num_of_Z R 150)
  | _, _ => false
  end.

Definition walk_step {R : runtime} (st : walk R) (c : PdfWord R * num R)
  : walk R :=
  let word := fst c in
  if near (last_y st) (last_x st) word then
    mkWalk (name_candidates st) (current_group st ++ [c])%list
           (Some (y0 word)) (Some (x1 word))
  else
    mkWalk (save_group (current_group st) (name_candidates st)) [c]
           (Some (y0 word)) (Some (x1 word)).

Definition walk_init {R : runtime} : walk R := mkWalk [] [] None None.

(** The candidates with their distances, before they are sorted. *)
Definition name_candidates_of {R : runtime} (email_word : PdfWord R)
           (all_words : list (PdfWord R))
           (search_distance x_tolerance : num R)
  : list (PdfWord R * num R) :=
  map (fun word =>
         (word, num_abs R (num_sub R (center_y word) (y0 email_word))))
      (filter (name_candidate email_word search_distance x_tolerance)
              all_words).

Definition find_name_above_email_with {R : runtime}
           (email_word : PdfWord R) (all_words : list (PdfWord R))
           (search_distance x_tolerance : num R) : option str :=
  match name_candidates_of email_word all_words
                           search_distance x_tolerance with
  | [] => None
  | candidates =>
      let sorted := sort_by R _ snd candidates in
      let st := fold_left walk_step sorted walk_init in
      let found := save_group (current_group st) (name_candidates st) in
      match found with
      | [] => None
      | _ =>
          match sort_by R _ snd found with
          | best :: _ => Some (fst best)
          | [] => None
          end
      end
  end.

(** The call with the default [search_distance=60.0], [x_tolerance=100.0]. *)
Definition find_name_above_email {R : runtime} (email_word : PdfWord R)
           (all_words : list (PdfWord R)) : option str :=
  find_name_above_email_with email_word all_words
                             (num_of_Z R 60) (num_of_Z R 100).

(** The normalisation at the end of [find_phone_below_email]. *)
Definition normalize_phone (R : runtime) (phone : str) : str :=
  let digits := filter (re_digit R) phone in
  if List.length digits =? 10 then
    (lit "+1-" ++ slice 0 3 digits ++ lit "-" ++ slice 3 6 digits
         ++ lit "-" ++ skipn 6 digits)%list
  else if (List.length digits =? 11)
          && match digits with
             | c :: _ => is_chr "1" c
             | [] => false
             end then
    (lit "+" ++ slice 0 1 digits ++ lit "-" ++ slice 1 4 digits
         ++ lit "-" ++ slice 4 7 digits ++ lit "-" ++ skipn 7 digits)%list
  else phone.

Definition phone_window {R : runtime} (email_word : PdfWord R)
           (search_distance x_tolerance : num R) (word : PdfWord R) : bool :=
  let email_x := center_x email_word in
  let email_y := y1 email_word in
  let y_min := email_y in
  let y_max := num_add R email_y search_distance in
  let x_min := num_sub R email_x x_tolerance in
  let x_max := num_add R email_x x_tolerance in
  (page_num word =? page_num email_word)
  && in_band R y_min (center_y word) y_max
  && in_band R x_min (center_x word) x_max.

Definition phone_candidates_of {R : runtime} (email_word : PdfWord R)
           (all_words : list (PdfWord R))
           (search_distance x_tolerance : num R) : list (str * num R) :=
  flat_map
    (fun word =>
       if phone_window email_word search_distance x_tolerance word then
         match findall (PHONE_PATTERN R) (text word) with
         | [] => []
         | m :: _ =>
             [(m, num_abs R (num_sub R (center_y word) (y1 email_word)))]
         end
       else [])
    all_words.

Definition find_phone_below_email_with {R : runtime}
           (email_word : PdfWord R) (all_words : list (PdfWord R))
           (search_distance x_tolerance : num R) : option str :=
  match phone_candidates_of email_word all_words
                            search_distance x_tolerance with
  | [] => None
  | phone_candidates =>
      match sort_by R _ snd phone_candidates with
      | best :: _ => Some (normalize_phone R (fst best))
      | [] => None
      end
  end.

(** The call with the default [search_distance=40.0], [x_tolerance=100.0]. *)
Definition find_phone_below_email {R : runtime} (email_word : PdfWord R)
           (all_words : list (PdfWord R)) : option str :=
  find_phone_below_email_with email_word all_words
                              (num_of_Z R 40) (num_of_Z R 100).

(** *** Notions used to state properties *)

(** What a pattern accepts: [accepts p m rest] holds when [p] can match
    the text [m] in front of the remaining input [rest]. *)
Inductive accepts : pattern -> str -> str -> Prop :=
| accepts_nil : forall rest, accepts [] [] rest
| accepts_rep : forall cls lo hi p piece m rest,
    forallb cls piece = true ->
    lo <= List.length piece ->
    (forall h, hi = Some h -> List.length piece <= h) ->
    accepts p m rest ->
    accepts (Rep cls lo hi :: p) (piece ++ m)%list rest
| accepts_eol : forall p m rest,
    at_eol (m ++ rest)%list = true ->
    accepts p m rest ->
    accepts (Eol :: p) m rest.

(** [n] characters, all of them decimal digits for [\d]. *)
Definition digits_n (R : runtime) (n : nat) (s : str) : Prop :=
  List.length s = n /\ forallb (re_digit R) s = true.

(** The canonical form: [+1-], then three, three and four digits. *)
Definition canonical_phone (R : runtime) (s : str) : Prop :=
  exists a b c,
    digits_n R 3 a /\ digits_n R 3 b /\ digits_n R 4 c /\
    s = (lit "+1-" ++ a ++ lit "-" ++ b ++ lit "-" ++ c)%list.

(** Two facts of the Unicode database: the punctuation of the phone
    pattern is not a decimal digit, and no white space character is. *)
Definition digits_apart (R : runtime) : Prop :=
  re_digit R (chr "(") = false /\ re_digit R (chr ")") = false /\
  re_digit R (chr "-") = false /\ re_digit R (chr ".") = false /\
  forall c, re_space R c = true -> re_digit R c = false.

(** Sorting rearranges the list. *)
Definition sort_permutes (R : runtime) : Prop :=
  forall (A : Type) (key : A -> num R) (l : list A),
    Permutation (sort_by R A key l) l.

(** A float that is a number compares with itself; NaN does not. *)
Definition is_number (R : runtime) (d : num R) : Prop := num_le R d d = true.

(** Sorting puts a least element first when every key is a number. *)
Definition sort_least_first (R : runtime) : Prop :=
  forall (A : Type) (key : A -> num R) (l : list A) (b : A) (t : list A),
    (forall a, In a l -> is_number R (key a)) ->
    sort_by R A key l = b :: t ->
    forall a, In a l -> num_le R (key b) (key a) = true.

(** The groups the walk of [find_name_above_email] forms, before the
    validator is asked: the same loop, keeping every finished group. *)
Definition group (R : runtime) : Type := list (PdfWord R * num R).

Record gwalk (R : runtime) : Type := mkGwalk {
  finished : list (group R);
  open_group : group R;
  g_last_y : option (num R);
  g_last_x : option (num R)
}.
Arguments mkGwalk {R} finished open_group g_last_y g_last_x.
Arguments finished {R} g.
Arguments open_group {R} g.
Arguments g_last_y {R} g.
Arguments g_last_x {R} g.

Definition close_group {R : runtime} (g : group R) (acc : list (group R))
  : list (group R) :=
  match g with
  | [] => acc
  | _ => (acc ++ [g])%list
  end.

Definition gwalk_step {R : runtime} (st : gwalk R) (c : PdfWord R * num R)
  : gwalk R :=
  let word := fst c in
  if near (g_last_y st) (g_last_x st) word then
    mkGwalk (finished st) (open_group st ++ [c])%list
            (Some (y0 word)) (Some (x1 word))
  else
    mkGwalk (close_group (open_group st) (finished st)) [c]
            (Some (y0 word)) (Some (x1 word)).

Definition groups_of {R : runtime} (sorted : list (PdfWord R * num R))
  : list (group R) :=
  let st := fold_left gwalk_step sorted (mkGwalk [] [] None None) in
  close_group (open_group st) (finished st).

(** The groups of the search with the default distances. *)
Definition line_groups {R : runtime} (email_word : PdfWord R)
           (all_words : list (PdfWord R)) : list (group R) :=
  groups_of (sort_by R _ snd
                     (name_candidates_of email_word all_words
                                         (num_of_Z R 60) (num_of_Z R 100))).

(** The spans of the groups the validator accepts, with their scores. *)
Definition spans_of {R : runtime} (gs : list (group R))
  : list (str * num R) :=
  flat_map
    (fun g =>
       if is_valid_name R (combined_text g)
       then [(combined_text g, avg_distance g)]
       else [])
    gs.

Definition walks_agree {R : runtime} (st : walk R) (gst : gwalk R) : Prop :=
  name_candidates st = spans_of (finished gst) /\
  current_group st = open_group gst /\
  last_y st = g_last_y gst /\
  last_x st = g_last_x gst.

(** A group whose joined text the validator accepts. *)
Definition accepted {R : runtime} (g : group R) : Prop :=
  is_valid_name R (combined_text g) = true.

(** The window of the name search as the program tests it: the same
    page, and the computed center between the computed bounds. *)
Definition in_name_window {R : runtime} (email_word word : PdfWord R)
  : Prop :=
  page_num word = page_num email_word /\
  num_le R (num_sub R (y0 email_word) (num_of_Z R 60)) (center_y word)
  = true /\
  num_le R (center_y word) (y0 email_word) = true /\
  num_le R (num_sub R (center_x email_word) (num_of_Z R 100))
         (center_x word) = true /\
  num_le R (center_x word)
         (num_add R (center_x email_word) (num_of_Z R 100)) = true.

(** The window of the phone search as the program tests it. *)
Definition in_phone_window {R : runtime} (email_word word : PdfWord R)
  : Prop :=
  page_num word = page_num email_word /\
  num_le R (y1 email_word) (center_y word) = true /\
  num_le R (center_y word) (num_add R (y1 email_word) (num_of_Z R 40))
  = true /\
  num_le R (num_sub R (center_x email_word) (num_of_Z R 100))
         (center_x word) = true /\
  num_le R (center_x word)
         (num_add R (center_x email_word) (num_of_Z R 100)) = true.

(** Vertical distance of a word to the bottom of the email. *)
Definition below_distance {R : runtime} (email_word word : PdfWord R)
  : num R :=
  num_abs R (num_sub R (center_y word) (y1 email_word)).

(** More facts of the Unicode database: no ASCII letter, apostrophe or
    line feed is a decimal digit, and [@] is no white space. *)
Definition names_apart (R : runtime) : Prop :=
  (forall c, ascii_letter c = true -> re_digit R c = false) /\
  re_digit R (chr "'") = false /\ re_digit R 10%N = false /\
  re_space R (chr "@") = false.

(** *** Interpreters to run the searches on *)

Definition ascii_space (c : char) : bool :=
  between 9 13 c || between 28 32 c.

Definition ascii_lower_char (c : char) : char :=
  if between 65 90 c then (c + 32)%N else c.

(** Exact rational numbers, sorted by stable insertion. *)
Definition exact_runtime (digit space isupper : char -> bool)
           (lower : str -> str) : runtime :=
  mkRuntime digit space isupper lower
            Q inject_Z Qplus Qminus Qdiv Qabs Qle_bool PdfExtract.Qlt_bool
            PdfExtract.Qsum (fun A key => PdfExtract.sort_by key).

(** The database cut down to ASCII. *)
Definition ascii_runtime : runtime :=
  exact_runtime (between 48 57) ascii_space ascii_upper
                (map ascii_lower_char).

(** The Arabic-Indic digits U+0660..U+0669 and the no-break space U+00A0
    as well. *)
Definition wider_runtime : runtime :=
  exact_runtime (fun c => between 48 57 c || between 1632 1641 c)
                (fun c => ascii_space c || N.eqb c 160)
                ascii_upper (map ascii_lower_char).

(** Binary64 numbers: the arithmetic and the comparisons are the
    processor's, the sort is a stable insertion by [<], and [sum] adds
    from the left (later versions of the interpreter compensate the
    rounding of a sum of several floats; for one float there is none).
    Integers are converted exactly, which those of the program are. *)
Definition float_of_Z (z : Z) : float :=
  match z with
  | Z0 => 0%float
  | Zpos _ => PrimFloat.of_uint63 (Uint63.of_Z z)
  | Zneg p => PrimFloat.opp (PrimFloat.of_uint63 (Uint63.of_Z (Zpos p)))
  end.

Fixpoint float_insert {A : Type} (key : A -> float) (x : A) (l : list A)
  : list A :=
  match l with
  | [] => [x]
  | y :: l' =>
      if PrimFloat.ltb (key y) (key x) then y :: float_insert key x l'
      else x :: l
  end.

Definition float_sort {A : Type} (key : A -> float) (l : list A) : list A :=
  fold_right (float_insert key) [] l.

Definition float_sum (l : list float) : float :=
  fold_left PrimFloat.add l 0%float.

(** The interpreter's numbers, with the ASCII part of its character
    database, for ASCII texts. *)
Definition binary64_runtime : runtime :=
  mkRuntime (between 48 57) ascii_space ascii_upper (map ascii_lower_char)
            float float_of_Z PrimFloat.add PrimFloat.sub PrimFloat.div
            PrimFloat.abs PrimFloat.leb PrimFloat.ltb float_sum
            (fun A key => float_sort key).

(** The rational a finite float stands for. *)
Definition exact (f : float) : option Q :=
  match Prim2SF f with
  | S754_zero _ => Some 0%Q
  | S754_finite s m e =>
      let v := (inject_Z (Zpos m) * Qpower 2 e)%Q in
      Some (if s then Qopp v else v)
  | _ => None
  end.

(** The center of a word, computed without rounding. *)
Definition exact_center_y (w : PdfWord binary64_runtime) : option Q :=
  match exact (y0 w), exact (y1 w) with
  | Some a, Some b => Some ((a + b) / 2)%Q
  | _, _ => None
  end.

End Interp.

(* ================================================================== *)
(** ** Facts about characters and strings *)

Section StringFacts.

Ltac by_cases c :=
  destruct c as [[] [] [] [] [] [] [] []]; vm_compute; try reflexivity;
  try discriminate; auto.

Lemma lower_char_idem (c : ascii) :
  Py.lower_char (Py.lower_char c) = Py.lower_char c.
Proof. by_cases c. Qed.

Lemma lower_idem (s : string) : Py.lower (Py.lower s) = Py.lower s.
Proof.
  unfold Py.lower. induction s as [|c s IH]; simpl; [reflexivity|].
  now rewrite lower_char_idem, IH.
Qed.

Lemma append_nil_r (s : string) : s ++ "" = s.
Proof. induction s; simpl; congruence. Qed.

Lemma append_length (a b : string) : length (a ++ b) = length a + length b.
Proof. induction a; simpl; auto. Qed.

Lemma take_drop (n : nat) (s : string) : Py.take n s ++ Py.drop n s = s.
Proof.
  revert s; induction n; intros [|c s]; simpl; auto. now rewrite IHn.
Qed.

Lemma take_length (n : nat) (s : string) :
  n <= length s -> length (Py.take n s) = n.
Proof.
  revert s; induction n; intros [|c s]; simpl; intros; auto; try lia.
  rewrite IHn; lia.
Qed.

Lemma take_add (j m : nat) (s : string) :
  Py.take (j + m) s = Py.take j s ++ Py.take m (Py.drop j s).
Proof.
  revert s; induction j; intros s; simpl; [reflexivity|].
  destruct s; simpl; [now destruct m | now rewrite IHj].
Qed.

Lemma drop_add (j m : nat) (s : string) :
  Py.drop (j + m) s = Py.drop m (Py.drop j s).
Proof.
  revert s; induction j; intros s; simpl; [reflexivity|].
  destruct s; simpl; [now destruct m | now rewrite IHj].
Qed.

Lemma sfilter_app (p : ascii -> bool) (a b : string) :
  Py.sfilter p (a ++ b) = Py.sfilter p a ++ Py.sfilter p b.
Proof.
  induction a; simpl; [reflexivity|]. destruct (p a); simpl; congruence.
Qed.

Lemma sfilter_all (p : ascii -> bool) (s : string) :
  Py.sall p s = true -> Py.sfilter p s = s.
Proof.
  induction s; simpl; [reflexivity|]. intros H.
  apply andb_true_iff in H as [-> H]. now rewrite IHs.
Qed.

Lemma sfilter_none (p q : ascii -> bool) (s : string) :
  (forall c, q c = true -> p c = false) ->
  Py.sall q s = true -> Py.sfilter p s = "".
Proof.
  intros D. induction s; simpl; [reflexivity|]. intros H.
  apply andb_true_iff in H as [Ha H]. now rewrite (D _ Ha), IHs.
Qed.

Lemma mem_In (x : string) (xs : list string) :
  Py.mem x xs = true <-> In x xs.
Proof.
  unfold Py.mem. rewrite existsb_exists. split.
  - intros [y [Hy E]]. apply String.eqb_eq in E. now subst.
  - intros H. exists x. split; [assumption | apply String.eqb_refl].
Qed.

End StringFacts.

(* ================================================================== *)
(** ** Facts about the matcher *)

Section MatcherFacts.
Import Props.

(** A successful repetition took [j] characters of the class, within
    its bounds, and the continuation succeeded on what follows. *)
Lemma rep_sound (cls : ascii -> bool) (k : string -> option nat) :
  forall s lo hi n,
    Re.rep cls lo hi k s = Some n ->
    exists j m,
      n = j + m /\ j <= length s /\
      Py.sall cls (Py.take j s) = true /\
      lo <= j /\ (forall h, hi = Some h -> j <= h) /\
      k (Py.drop j s) = Some m.
Proof.
  assert (Stop : forall s lo hi n,
             (if lo =? 0 then k s else None) = Some n ->
             exists j m,
               n = j + m /\ j <= length s /\
               Py.sall cls (Py.take j s) = true /\
               lo <= j /\ (forall h, hi = Some h -> j <= h) /\
               k (Py.drop j s) = Some m).
  { intros s lo hi n H. destruct (Nat.eqb_spec lo 0); [|discriminate].
    exists 0, n. subst lo. repeat split; auto; try lia;
      now destruct s. }
  induction s as [|c s IH]; intros lo hi n H; simpl in H.
  - now apply Stop.
  - destruct (cls c && Re.may_take hi) eqn:T; [|now apply Stop].
    destruct (Re.rep cls (Nat.pred lo) (option_map Nat.pred hi) k s)
      as [n'|] eqn:R; [|now apply Stop].
    injection H as <-. apply andb_true_iff in T as [Tc Th].
    destruct (IH _ _ _ R) as (j & m & -> & Hj & Hall & Hlo & Hhi & Hk).
    exists (S j), m. simpl. rewrite Tc, Hall.
    repeat split; auto; try lia.
    intros h ->. simpl in Th, Hhi. apply Nat.ltb_lt in Th.
    specialize (Hhi _ eq_refl). lia.
Qed.

(** The matcher only reports matches the pattern accepts. *)
Lemma match_here_parses (p : Re.pattern) :
  forall s n,
    Re.match_here p s = Some n ->
    n <= length s /\ parses p (Py.take n s) (Py.drop n s).
Proof.
  induction p as [|[cls lo hi|] p IH]; intros s n H; simpl in H.
  - injection H as <-. split; [lia|]. destruct s; constructor.
  - apply rep_sound in H as (j & m & -> & Hj & Hall & Hlo & Hhi & Hk).
    apply IH in Hk as [Hm Hp].
    assert (L : length (Py.drop j s) = length s - j).
    { pose proof (take_drop j s) as E. apply (f_equal length) in E.
      rewrite append_length, take_length in E by assumption. lia. }
    split; [lia|].
    rewrite take_add, drop_add. constructor; auto;
      rewrite take_length by assumption; auto.
  - destruct (Re.at_eol s) eqn:E; [|discriminate].
    apply IH in H as [Hn Hp]. split; [assumption|].
    constructor; [now rewrite take_drop | assumption].
Qed.

Lemma parses_min_len (p : Re.pattern) (m rest : string) :
  parses p m rest -> min_len p <= length m.
Proof.
  induction 1; simpl; auto. rewrite append_length. lia.
Qed.

(** A match is never shorter than the pattern's least length. *)
Lemma match_here_min_len (p : Re.pattern) (s : string) (n : nat) :
  Re.match_here p s = Some n -> min_len p <= n /\ n <= length s.
Proof.
  intros H. apply match_here_parses in H as [Hn Hp].
  apply parses_min_len in Hp. rewrite take_length in Hp by assumption.
  split; assumption.
Qed.

(** Every string [findall] reports is a match of the pattern at some
    position of the text. *)
Lemma findall_from_spec (p : Re.pattern) :
  forall s skip m,
    In m (Re.findall_from p skip s) ->
    exists s' n, Re.match_here p s' = Some n /\ m = Py.take n s'.
Proof.
  induction s as [|c s IH]; intros skip m H; simpl in H; [contradiction|].
  destruct skip as [|k]; [|now apply IH in H].
  destruct (Re.match_here p (String c s)) as [[|n]|] eqn:M;
    try now apply IH in H.
  destruct H as [<-|H]; [|now apply IH in H].
  exists (String c s), (S n). split; [assumption | reflexivity].
Qed.

Lemma findall_spec (p : Re.pattern) (s m : string) :
  In m (Re.findall p s) ->
  exists s' n, Re.match_here p s' = Some n /\ m = Py.take n s'.
Proof. apply findall_from_spec. Qed.

Lemma parses_rep_inv cls lo hi (p : Re.pattern) (m rest : string) :
  parses (Re.Rep cls lo hi :: p) m rest ->
  exists piece m',
    m = piece ++ m' /\ Py.sall cls piece = true /\ lo <= length piece /\
    (forall h, hi = Some h -> length piece <= h) /\ parses p m' rest.
Proof.
  intros H. inversion H; subst. eexists _, _. repeat split; eauto.
Qed.

(** Normalising ten digits gives the canonical form. *)
Lemma normalize_ten_digits (raw a b c : string) :
  digits_n 3 a -> digits_n 3 b -> digits_n 4 c ->
  Py.sfilter Py.is_digit raw = a ++ b ++ c ->
  PdfExtract.normalize_phone raw = "+1-" ++ a ++ "-" ++ b ++ "-" ++ c.
Proof.
  intros [La _] [Lb _] [Lc _] E. unfold PdfExtract.normalize_phone.
  rewrite E.
  destruct a as [|a1 [|a2 [|a3 [|]]]]; try discriminate La.
  destruct b as [|b1 [|b2 [|b3 [|]]]]; try discriminate Lb.
  destruct c as [|c1 [|c2 [|c3 [|c4 [|]]]]]; try discriminate Lc.
  reflexivity.
Qed.

End MatcherFacts.

(* ================================================================== *)
(** ** Facts about the stable sort *)

Section SortFacts.
Context {A : Type} (key : A -> Q).

Lemma insert_by_perm (x : A) (l : list A) :
  Permutation (PdfExtract.insert_by key x l) (x :: l).
Proof.
  induction l as [|y l IH]; simpl; [reflexivity|].
  destruct (Qle_bool (key x) (key y)); [reflexivity|].
  rewrite IH. apply perm_swap.
Qed.

Lemma sort_by_perm (l : list A) : Permutation (PdfExtract.sort_by key l) l.
Proof.
  induction l as [|x l IH]; simpl; [reflexivity|].
  rewrite insert_by_perm. now constructor.
Qed.

Lemma sort_by_In (l : list A) (x : A) :
  In x (PdfExtract.sort_by key l) <-> In x l.
Proof.
  split; apply Permutation_in;
    [apply sort_by_perm | symmetry; apply sort_by_perm].
Qed.

Lemma insert_by_sorted (x : A) (l : list A) :
  StronglySorted (Props.key_le key) l -> StronglySorted (Props.key_le key) (PdfExtract.insert_by key x l).
Proof.
  induction 1 as [|y l S IH F]; simpl.
  - repeat constructor.
  - destruct (Qle_bool (key x) (key y)) eqn:E.
    + apply Qle_bool_iff in E.
      constructor; [now constructor|].
      constructor; [exact E|].
      eapply Forall_impl; [|exact F].
      intros z Hz. unfold Props.key_le in *.
      now apply Qle_trans with (key y).
    + assert (L : Props.key_le key y x).
      { unfold Props.key_le. apply Qlt_le_weak, Qnot_le_lt. intros C.
        apply Qle_bool_iff in C. congruence. }
      constructor; [assumption|].
      eapply Permutation_Forall; [symmetry; apply insert_by_perm|].
      now constructor.
Qed.

Lemma sort_by_sorted (l : list A) :
  StronglySorted (Props.key_le key) (PdfExtract.sort_by key l).
Proof.
  induction l; simpl; [constructor | now apply insert_by_sorted].
Qed.

(** The first element of a sorted list has the least key. *)
Lemma sort_by_head_least (l t : list A) (b : A) :
  PdfExtract.sort_by key l = b :: t ->
  In b l /\ forall x, In x l -> (key b <= key x)%Q.
Proof.
  intros E. split.
  - apply sort_by_In. rewrite E. now left.
  - intros x Hx. apply sort_by_In in Hx. rewrite E in Hx.
    pose proof (sort_by_sorted l) as S. rewrite E in S.
    inversion S as [|? ? _ F]; subst.
    destruct Hx as [<-|Hx]; [apply Qle_refl|].
    rewrite Forall_forall in F. now apply (F x).
Qed.

End SortFacts.

(* ================================================================== *)
(** ** The name validator *)

Section Validator.
Import PdfExtract Props.

(** What an accepted name went through. *)
Lemma is_valid_name_inv (s : string) :
  is_valid_name s = true ->
  2 <= length s <= 50 /\
  Py.mem (Py.lower s) BLACKLIST = false /\
  Py.first_isupper s = true /\
  Re.matches NAME_PATTERN s = true.
Proof.
  unfold is_valid_name. intros H.
  destruct (negb (Py.truthy s) || (length s <? 2) || (50 <? length s))
    eqn:E1; [discriminate|].
  destruct (Py.mem (Py.lower s) BLACKLIST) eqn:E2; [discriminate|].
  destruct (existsb _ ui_words); [discriminate|].
  destruct (Py.first_isupper s); [|discriminate].
  destruct (Re.matches NAME_PATTERN s); [|discriminate].
  apply orb_false_iff in E1 as [E1 E3].
  apply orb_false_iff in E1 as [_ E1].
  apply Nat.ltb_ge in E1, E3. repeat split; auto.
Qed.

Lemma blacklist_lower_case :
  forallb (fun b => String.eqb (Py.lower b) b) BLACKLIST = true.
Proof. vm_compute. reflexivity. Qed.

Lemma name_pattern_needs_three (s : string) :
  Re.matches NAME_PATTERN s = true -> 3 <= length s.
Proof.
  unfold Re.matches. destruct (Re.match_here NAME_PATTERN s) eqn:M;
    [|discriminate].
  intros _. apply match_here_min_len in M. simpl in M. lia.
Qed.

(** C6. The validator rejects every string that equals a blacklist
    entry up to case, and every string shorter than 2 or longer than 50
    characters. *)
Theorem is_valid_name_sound (s : string) :
  (exists b, In b BLACKLIST /\ Py.lower s = Py.lower b) \/
  length s < 2 \/ 50 < length s ->
  is_valid_name s = false.
Proof.
  intros H. destruct (is_valid_name s) eqn:V; [|reflexivity].
  apply is_valid_name_inv in V as (L & B & _ & _).
  destruct H as [(b & Hb & E)|H]; [|lia].
  assert (Lb : Py.lower b = b).
  { pose proof blacklist_lower_case as F.
    rewrite forallb_forall in F. now apply String.eqb_eq, F. }
  rewrite E, Lb in B. apply mem_In in Hb. congruence.
Qed.

Lemma is_valid_name_sound_witness :
  is_valid_name "View Profile" = false /\
  is_valid_name "Z" = false /\
  is_valid_name
    "Aaaaaaaaaaaaaaaaaaaaaaaaaaaaaaaaaaaaaaaaaaaaaaaaaaa" = false.
Proof.
  split; [|split].
  - apply is_valid_name_sound. left. exists "view profile".
    split; [vm_compute; tauto | reflexivity].
  - apply is_valid_name_sound. right. left. simpl. lia.
  - apply is_valid_name_sound. right. right. simpl. lia.
Defined.

(** C10. No string of exactly two characters is accepted: the name
    pattern needs an upper-case letter, at least one middle character
    and a final letter. *)
Theorem is_valid_name_rejects_length_two (s : string) :
  length s = 2 -> is_valid_name s = false.
Proof.
  intros L. destruct (is_valid_name s) eqn:V; [|reflexivity].
  apply is_valid_name_inv in V as (_ & _ & _ & M).
  apply name_pattern_needs_three in M. lia.
Qed.

Lemma is_valid_name_rejects_length_two_witness :
  is_valid_name "Al" = false.
Proof. apply is_valid_name_rejects_length_two. reflexivity. Defined.

End Validator.

(* ================================================================== *)
(** ** Phone normalisation and the phone search *)

Section Phone.
Import Models PdfExtract Pairing Props.


End Phone.

(* ================================================================== *)
(** ** The searches over the interpreter's text and numbers *)

Section InterpFacts.
Import Interp.

Lemma firstn_plus {A : Type} (j m : nat) :
  forall s : list A,
    firstn (j + m) s = (firstn j s ++ firstn m (skipn j s))%list.
Proof.
  induction j as [|j IH]; intros s; simpl; [reflexivity|].
  destruct s as [|c s]; simpl.
  - now rewrite firstn_nil.
  - now rewrite IH.
Qed.

Lemma filter_all {A : Type} (f : A -> bool) (l : list A) :
  forallb f l = true -> filter f l = l.
Proof.
  induction l as [|x l IH]; simpl; [reflexivity|].
  intros H. apply andb_true_iff in H as [Hx Hl].
  now rewrite Hx, IH.
Qed.

Lemma filter_none {A : Type} (f g : A -> bool) (l : list A) :
  (forall x, g x = true -> f x = false) ->
  forallb g l = true -> filter f l = [].
Proof.
  intros Hfg. induction l as [|x l IH]; simpl; [reflexivity|].
  intros H. apply andb_true_iff in H as [Hx Hl].
  now rewrite (Hfg x Hx), IH.
Qed.

(** A successful repetition took [j] characters of the class, within
    its bounds, and the continuation succeeded on what follows. *)
Lemma rep_sound_str (cls : char -> bool) (k : str -> option nat) :
  forall s lo hi n,
    rep cls lo hi k s = Some n ->
    exists j m,
      n = j + m /\ j <= List.length s /\
      forallb cls (firstn j s) = true /\
      lo <= j /\ (forall h, hi = Some h -> j <= h) /\
      k (skipn j s) = Some m.
Proof.
  assert (Stop : forall s lo hi n,
             (if lo =? 0 then k s else None) = Some n ->
             exists j m,
               n = j + m /\ j <= List.length s /\
               forallb cls (firstn j s) = true /\
               lo <= j /\ (forall h, hi = Some h -> j <= h) /\
               k (skipn j s) = Some m).
  { intros s lo hi n H. destruct (Nat.eqb_spec lo 0); [|discriminate].
    exists 0, n. subst lo. repeat split; auto; lia. }
  induction s as [|c s IH]; intros lo hi n H; simpl in H.
  - now apply Stop.
  - destruct (cls c && Re.may_take hi) eqn:T; [|now apply Stop].
    destruct (rep cls (Nat.pred lo) (option_map Nat.pred hi) k s)
      as [n'|] eqn:Hrep; [|now apply Stop].
    injection H as <-. apply andb_true_iff in T as [Tc Th].
    destruct (IH _ _ _ Hrep) as (j & m & -> & Hj & Hall & Hlo & Hhi & Hk).
    exists (S j), m. simpl. rewrite Tc, Hall.
    repeat split; auto; try lia.
    intros h ->. simpl in Th, Hhi. apply Nat.ltb_lt in Th.
    specialize (Hhi _ eq_refl). lia.
Qed.

(** The matcher only reports what the pattern accepts. *)
Lemma match_here_accepts (p : pattern) :
  forall s n,
    match_here p s = Some n ->
    n <= List.length s /\ accepts p (firstn n s) (skipn n s).
Proof.
  induction p as [|[cls lo hi|] p IH]; intros s n H; simpl in H.
  - injection H as <-. split; [lia | constructor].
  - apply rep_sound_str in H as (j & m & -> & Hj & Hall & Hlo & Hhi & Hk).
    apply IH in Hk as [Hm Hp].
    rewrite length_skipn in Hm.
    split; [lia|].
    rewrite firstn_plus, (Nat.add_comm j m), <- skipn_skipn.
    constructor; auto;
      rewrite length_firstn, Nat.min_l by assumption; auto.
  - destruct (at_eol s) eqn:E; [|discriminate].
    apply IH in H as [Hn Hp]. split; [assumption|].
    constructor; [now rewrite firstn_skipn | assumption].
Qed.

Lemma findall_from_accepts (p : pattern) :
  forall s skip m,
    In m (findall_from p skip s) -> exists rest, accepts p m rest.
Proof.
  induction s as [|c s IH]; intros skip m H; simpl in H; [contradiction|].
  destruct skip as [|k]; [|now apply IH in H].
  destruct (match_here p (c :: s)) as [[|n]|] eqn:M;
    try now apply IH in H.
  destruct H as [<-|H]; [|now apply IH in H].
  apply match_here_accepts in M as [_ M]. eexists. exact M.
Qed.

Lemma accepts_rep_inv cls lo hi (p : pattern) (m rest : str) :
  accepts (Rep cls lo hi :: p) m rest ->
  exists piece m',
    m = (piece ++ m')%list /\ forallb cls piece = true /\
    lo <= List.length piece /\
    (forall h, hi = Some h -> List.length piece <= h) /\
    accepts p m' rest.
Proof.
  intros H. inversion H; subst. eexists _, _. repeat split; eauto.
Qed.

Section OneRuntime.
Variable R : runtime.

Section PhoneDigits.
Hypothesis apart : digits_apart R.

Lemma is_chr_not_digit (a : ascii) :
  re_digit R (chr a) = false ->
  forall c, is_chr a c = true -> re_digit R c = false.
Proof.
  intros H c E. unfold is_chr in E. apply N.eqb_eq in E. now subst c.
Qed.

Lemma phone_sep_not_re_digit (c : char) :
  phone_sep R c = true -> re_digit R c = false.
Proof.
  destruct apart as (_ & _ & Hd & Hp & Hs). unfold phone_sep.
  intros H. apply orb_true_iff in H as [H|H];
    [apply orb_true_iff in H as [H|H]|].
  - now apply (is_chr_not_digit "-").
  - now apply (is_chr_not_digit ".").
  - now apply Hs.
Qed.

(** The digits of what the phone pattern accepts: three, three and
    four. *)
Lemma phone_accepts_digits (m rest : str) :
  accepts (PHONE_PATTERN R) m rest ->
  exists a b c,
    digits_n R 3 a /\ digits_n R 3 b /\ digits_n R 4 c /\
    filter (re_digit R) m = (a ++ b ++ c)%list.
Proof.
  intros H. unfold PHONE_PATTERN, opt, exactly in H.
  apply accepts_rep_inv in H as (p1 & m1 & -> & A1 & _ & _ & H).
  apply accepts_rep_inv in H as (a & m2 & -> & Aa & La & Ua & H).
  apply accepts_rep_inv in H as (p2 & m3 & -> & A2 & _ & _ & H).
  apply accepts_rep_inv in H as (p3 & m4 & -> & A3 & _ & _ & H).
  apply accepts_rep_inv in H as (b & m5 & -> & Ab & Lb & Ub & H).
  apply accepts_rep_inv in H as (p4 & m6 & -> & A4 & _ & _ & H).
  apply accepts_rep_inv in H as (c & m7 & -> & Ac & Lc & Uc & H).
  inversion H; subst; clear H.
  specialize (Ua _ eq_refl). specialize (Ub _ eq_refl).
  specialize (Uc _ eq_refl).
  exists a, b, c. repeat split; auto; try lia.
  destruct apart as (Ho & Hc & _).
  rewrite !filter_app.
  rewrite (filter_none _ _ p1 (is_chr_not_digit "(" Ho) A1).
  rewrite (filter_none _ _ p2 (is_chr_not_digit ")" Hc) A2).
  rewrite (filter_none _ _ p3 phone_sep_not_re_digit A3).
  rewrite (filter_none _ _ p4 phone_sep_not_re_digit A4).
  rewrite (filter_all _ _ Aa), (filter_all _ _ Ab), (filter_all _ _ Ac).
  simpl. now rewrite app_nil_r.
Qed.

(** Ten digits take the first branch of the normalisation. *)
Lemma normalize_ten (raw a b c : str) :
  digits_n R 3 a -> digits_n R 3 b -> digits_n R 4 c ->
  filter (re_digit R) raw = (a ++ b ++ c)%list ->
  normalize_phone R raw
  = (lit "+1-" ++ a ++ lit "-" ++ b ++ lit "-" ++ c)%list.
Proof.
  intros [La _] [Lb _] [Lc _] E. unfold normalize_phone.
  rewrite E.
  destruct a as [|a1 [|a2 [|a3 [|]]]]; try discriminate La.
  destruct b as [|b1 [|b2 [|b3 [|]]]]; try discriminate Lb.
  destruct c as [|c1 [|c2 [|c3 [|c4 [|]]]]]; try discriminate Lc.
  reflexivity.
Qed.

Lemma match_is_normalized (t m : str) :
  In m (findall (PHONE_PATTERN R) t) ->
  List.length (filter (re_digit R) m) = 10 /\
  canonical_phone R (normalize_phone R m).
Proof.
  intros Hm. apply findall_from_accepts in Hm as (rest & Hm).
  apply phone_accepts_digits in Hm as (a & b & c & Ha & Hb & Hc & E).
  split.
  - rewrite E, !length_app.
    destruct Ha as [-> _], Hb as [-> _], Hc as [-> _]. reflexivity.
  - exists a, b, c. repeat split; try apply Ha; try apply Hb; try apply Hc.
    now apply normalize_ten.
Qed.

End PhoneDigits.

Lemma candidates_are_matches (e : PdfWord R) (ws : list (PdfWord R))
      (sd xt : num R) (m : str) (d : num R) :
  In (m, d) (phone_candidates_of e ws sd xt) ->
  exists t, In m (findall (PHONE_PATTERN R) t).
Proof.
  unfold phone_candidates_of. rewrite in_flat_map.
  intros (w & _ & H). destruct (phone_window e sd xt w); [|contradiction].
  destruct (findall (PHONE_PATTERN R) (text w)) as [|m0 rest] eqn:F;
    [contradiction|].
  destruct H as [H|[]]. injection H as -> _.
  exists (text w). rewrite F. now left.
Qed.

(** *** The name search *)

Lemma in_band_true (lo v hi : num R) :
  in_band R lo v hi = true <-> num_le R lo v = true /\ num_le R v hi = true.
Proof. unfold in_band. now rewrite andb_true_iff. Qed.

Lemma first_isupper_truthy_str (s : str) :
  first_isupper R s = true -> truthy s = true.
Proof. now destruct s. Qed.

Lemma name_candidate_window (e w : PdfWord R) :
  name_candidate e (num_of_Z R 60) (num_of_Z R 100) w = true <->
  in_name_window e w /\ first_isupper R (text w) = true.
Proof.
  unfold name_candidate, in_name_window.
  rewrite !andb_true_iff, !in_band_true, Nat.eqb_eq. split.
  - tauto.
  - intros [H U]. pose proof (first_isupper_truthy_str _ U). tauto.
Qed.

Lemma spans_of_app_str (a b : list (group R)) :
  spans_of (a ++ b) = (spans_of a ++ spans_of b)%list.
Proof. unfold spans_of. apply flat_map_app. Qed.

Lemma save_group_spans_str (g : group R) (gs : list (group R)) :
  save_group g (spans_of gs) = spans_of (close_group g gs).
Proof.
  destruct g as [|c g]; [reflexivity|].
  unfold save_group, close_group. rewrite spans_of_app_str. simpl.
  destruct (is_valid_name R (combined_text (c :: g))); simpl;
    [reflexivity | now rewrite app_nil_r].
Qed.

Lemma walk_step_agree_str (st : walk R) (gst : gwalk R)
      (c : PdfWord R * num R) :
  walks_agree st gst -> walks_agree (walk_step st c) (gwalk_step gst c).
Proof.
  intros (Hn & Hc & Hy & Hx). unfold walk_step, gwalk_step.
  rewrite Hy, Hx.
  destruct (near (g_last_y gst) (g_last_x gst) (fst c));
    repeat split; simpl; auto.
  - now rewrite Hc.
  - now rewrite Hn, Hc, save_group_spans_str.
Qed.

Lemma walk_agree_str (l : list (PdfWord R * num R)) :
  forall st gst,
    walks_agree st gst ->
    walks_agree (fold_left walk_step l st) (fold_left gwalk_step l gst).
Proof.
  induction l as [|c l IH]; intros st gst H; simpl; [assumption|].
  now apply IH, walk_step_agree_str.
Qed.

(** The name candidates of the program are the accepted spans of the
    groups. *)
Lemma found_spans_str (l : list (PdfWord R * num R)) :
  let st := fold_left walk_step l walk_init in
  save_group (current_group st) (name_candidates st) = spans_of (groups_of l).
Proof.
  simpl. unfold groups_of.
  assert (A : walks_agree (@walk_init R) (mkGwalk [] [] None None)).
  { repeat split. }
  destruct (walk_agree_str l _ _ A) as (Hn & Hc & _ & _).
  now rewrite Hn, Hc, save_group_spans_str.
Qed.

Lemma concat_close_group_str (g : group R) (gs : list (group R)) :
  List.concat (close_group g gs) = (List.concat gs ++ g)%list.
Proof.
  destruct g; simpl; [now rewrite app_nil_r|].
  rewrite concat_app. simpl. now rewrite app_nil_r.
Qed.

Lemma gwalk_concat_str (l : list (PdfWord R * num R)) :
  forall st,
    let st' := fold_left gwalk_step l st in
    List.concat (close_group (open_group st') (finished st')) =
    (List.concat (close_group (open_group st) (finished st)) ++ l)%list.
Proof.
  induction l as [|c l IH]; intros st; simpl.
  - now rewrite app_nil_r.
  - simpl in IH. rewrite IH. unfold gwalk_step.
    destruct (near (g_last_y st) (g_last_x st) (fst c)); simpl;
      rewrite ?concat_app, !concat_close_group_str; simpl;
      rewrite <- ?app_assoc; reflexivity.
Qed.

(** The groups split the sorted candidates, in order. *)
Lemma groups_of_concat_str (l : list (PdfWord R * num R)) :
  List.concat (groups_of l) = l.
Proof.
  unfold groups_of.
  now rewrite (gwalk_concat_str l (mkGwalk [] [] None None)).
Qed.

Lemma in_spans_of_str (gs : list (group R)) (n : str) (d : num R) :
  In (n, d) (spans_of gs) <->
  exists g, In g gs /\ accepted g /\ n = combined_text g /\ d = avg_distance g.
Proof.
  unfold spans_of, accepted. rewrite in_flat_map. split.
  - intros (g & Hg & H). exists g.
    destruct (is_valid_name R (combined_text g)); [|contradiction].
    destruct H as [H|[]]. injection H as <- <-. auto.
  - intros (g & Hg & V & -> & ->). exists g. split; [assumption|].
    rewrite V. now left.
Qed.

Hypothesis perm : sort_permutes R.

Lemma sort_by_In_str {A : Type} (key : A -> num R) (l : list A) (x : A) :
  In x (sort_by R A key l) <-> In x l.
Proof.
  split; apply Permutation_in;
    [exact (perm A key l) | symmetry; exact (perm A key l)].
Qed.

Lemma sort_by_nil_str {A : Type} (key : A -> num R) (l : list A) :
  sort_by R A key l = [] <-> l = [].
Proof.
  split; intros H.
  - apply Permutation_nil. rewrite <- H. exact (perm A key l).
  - subst l. apply Permutation_nil. symmetry. exact (perm A key []).
Qed.

Lemma find_name_by_groups (e : PdfWord R) (ws : list (PdfWord R)) :
  find_name_above_email e ws =
  match sort_by R _ snd (spans_of (line_groups e ws)) with
  | [] => None
  | best :: _ => Some (fst best)
  end.
Proof.
  unfold find_name_above_email, find_name_above_email_with, line_groups.
  destruct (name_candidates_of e ws (num_of_Z R 60) (num_of_Z R 100))
    as [|c cs] eqn:E.
  - rewrite (proj2 (sort_by_nil_str snd [])) by reflexivity.
    cbn. now rewrite (proj2 (sort_by_nil_str snd [])).
  - rewrite found_spans_str.
    destruct (spans_of (groups_of (sort_by R _ snd (c :: cs))))
      as [|s ss] eqn:S; [|reflexivity].
    now rewrite (proj2 (sort_by_nil_str snd [])).
Qed.

Lemma group_member_iff (e : PdfWord R) (ws : list (PdfWord R))
      (w : PdfWord R) (d : num R) :
  (exists g, In g (line_groups e ws) /\ In (w, d) g) <->
  In w ws /\
  name_candidate e (num_of_Z R 60) (num_of_Z R 100) w = true /\
  d = num_abs R (num_sub R (center_y w) (y0 e)).
Proof.
  assert (C : In (w, d) (List.concat (line_groups e ws)) <->
              In w ws /\
              name_candidate e (num_of_Z R 60) (num_of_Z R 100) w = true /\
              d = num_abs R (num_sub R (center_y w) (y0 e))).
  { unfold line_groups. rewrite groups_of_concat_str.
    unfold name_candidates_of. rewrite sort_by_In_str, in_map_iff. split.
    - intros (w' & E & H). injection E as -> <-.
      apply filter_In in H. tauto.
    - intros (H1 & H2 & ->). exists w. split; [reflexivity|].
      apply filter_In. tauto. }
  rewrite <- C. split.
  - intros (g & Hg & Hin). apply in_concat. now exists g.
  - intros H. apply in_concat in H as (g & Hg & Hin). now exists g.
Qed.

Lemma in_phone_candidates (e : PdfWord R) (ws : list (PdfWord R))
      (m : str) (d : num R) :
  In (m, d) (phone_candidates_of e ws (num_of_Z R 40) (num_of_Z R 100)) <->
  exists w rest,
    In w ws /\ in_phone_window e w /\
    findall (PHONE_PATTERN R) (text w) = m :: rest /\
    d = below_distance e w.
Proof.
  assert (W : forall w,
             phone_window e (num_of_Z R 40) (num_of_Z R 100) w = true <->
             in_phone_window e w).
  { intros w. unfold phone_window, in_phone_window.
    rewrite !andb_true_iff, !in_band_true, Nat.eqb_eq. tauto. }
  unfold phone_candidates_of. rewrite in_flat_map. split.
  - intros (w & Hw & H).
    destruct (phone_window e (num_of_Z R 40) (num_of_Z R 100) w) eqn:Win;
      [|contradiction].
    destruct (findall (PHONE_PATTERN R) (text w)) as [|m0 rest] eqn:F;
      [contradiction|].
    destruct H as [H|[]]. injection H as -> <-.
    exists w, rest. apply W in Win.
    split; [assumption|]. split; [assumption|].
    split; [assumption | reflexivity].
  - intros (w & rest & Hw & Win & F & ->). exists w. split; [assumption|].
    apply W in Win. rewrite Win, F. now left.
Qed.

End OneRuntime.

(** C9. Whatever the interpreter's [\d] and [\s], its numbers and its
    sort are: every match of the phone pattern holds exactly ten digit
    characters and is normalised to the canonical form, and whatever the
    phone search returns is in the canonical form, [+1-] followed by
    three, three and four digits.  The fallback of the normalisation is
    not reached. *)
Theorem find_phone_result_canonical (R : runtime) :
  digits_apart R -> sort_permutes R ->
  (forall t m,
      In m (findall (PHONE_PATTERN R) t) ->
      List.length (filter (re_digit R) m) = 10 /\
      canonical_phone R (normalize_phone R m)) /\
  (forall (e : PdfWord R) ws sd xt r,
      find_phone_below_email_with e ws sd xt = Some r ->
      canonical_phone R r) /\
  (forall (e : PdfWord R) ws r,
      find_phone_below_email e ws = Some r -> canonical_phone R r).
Proof.
  intros apart perm.
  assert (G : forall (e : PdfWord R) ws sd xt r,
             find_phone_below_email_with e ws sd xt = Some r ->
             canonical_phone R r).
  { intros e ws sd xt r. unfold find_phone_below_email_with.
    destruct (phone_candidates_of e ws sd xt) as [|p ps] eqn:C;
      [discriminate|].
    rewrite <- C. clear C p ps.
    destruct (sort_by R _ snd (phone_candidates_of e ws sd xt))
      as [|[m d] rest] eqn:S; [discriminate|].
    intros H. injection H as <-. simpl.
    assert (Hin : In (m, d) (phone_candidates_of e ws sd xt)).
    { apply (Permutation_in _ (perm _ snd _)). rewrite S. now left. }
    apply candidates_are_matches in Hin as (t & Hm).
    now apply (match_is_normalized R apart t m). }
  split; [|split; [exact G | intros e ws r; apply G]].
  intros t m. apply (match_is_normalized R apart).
Qed.

(** C2. With the centers, the bounds and the mean distances as the
    program computes them: the groups of the walk hold exactly the words
    of the input that are in the window and start with an upper-case
    character; the search returns the text of an accepted group, which
    has the least mean distance among the accepted groups when these
    means are numbers, and returns nothing exactly when no group is
    accepted; a word whose computed center is below the computed bound,
    60 under the email top, is in no group. *)
Theorem find_name_above_email_spec (R : runtime) (e : PdfWord R)
        (ws : list (PdfWord R)) :
  sort_permutes R -> sort_least_first R ->
  (forall g w d,
      In g (line_groups e ws) -> In (w, d) g ->
      In w ws /\ in_name_window e w /\
      first_isupper R (text w) = true /\
      d = num_abs R (num_sub R (center_y w) (y0 e))) /\
  (forall w,
      In w ws -> in_name_window e w -> first_isupper R (text w) = true ->
      exists g, In g (line_groups e ws) /\ In w (map fst g)) /\
  (forall n,
      find_name_above_email e ws = Some n ->
      exists g,
        In g (line_groups e ws) /\ accepted g /\ n = combined_text g /\
        ((forall g', In g' (line_groups e ws) -> accepted g' ->
                     is_number R (avg_distance g')) ->
         forall g', In g' (line_groups e ws) -> accepted g' ->
                    num_le R (avg_distance g) (avg_distance g') = true)) /\
  (find_name_above_email e ws = None <->
   forall g, In g (line_groups e ws) -> ~ accepted g) /\
  (forall w g,
      num_le R (num_sub R (y0 e) (num_of_Z R 60)) (center_y w) = false ->
      In g (line_groups e ws) -> ~ In w (map fst g)).
Proof.
  intros perm least.
  assert (Members : forall g w d,
             In g (line_groups e ws) -> In (w, d) g ->
             In w ws /\ in_name_window e w /\
             first_isupper R (text w) = true /\
             d = num_abs R (num_sub R (center_y w) (y0 e))).
  { intros g w d Hg Hw.
    destruct (proj1 (group_member_iff R perm e ws w d)) as (H1 & H2 & H3);
      [now exists g|].
    apply name_candidate_window in H2. tauto. }
  split; [exact Members|]. split; [|split; [|split]].
  - intros w Hin Hwin Hup.
    destruct (proj2 (group_member_iff
                       R perm e ws w
                       (num_abs R (num_sub R (center_y w) (y0 e)))))
      as (g & Hg & Hm).
    { repeat split; auto. apply name_candidate_window. tauto. }
    exists g. split; [assumption|].
    apply in_map_iff.
    now exists (w, num_abs R (num_sub R (center_y w) (y0 e))).
  - intros n. rewrite (find_name_by_groups R perm).
    destruct (sort_by R _ snd (spans_of (line_groups e ws)))
      as [|[b d] t] eqn:S; [discriminate|].
    intros H. injection H as <-.
    assert (Hb : In (b, d) (spans_of (line_groups e ws))).
    { apply (sort_by_In_str R perm snd). rewrite S. now left. }
    apply in_spans_of_str in Hb as (g & Hg & V & Eb & Ed).
    exists g. repeat split; auto.
    intros Num g' Hg' V'.
    assert (Keys : forall a,
               In a (spans_of (line_groups e ws)) -> is_number R (snd a)).
    { intros [n0 d0] Ha.
      apply in_spans_of_str in Ha as (g0 & H0 & V0 & _ & ->).
      now apply Num. }
    rewrite <- Ed.
    apply (least _ snd _ _ _ Keys S (combined_text g', avg_distance g')).
    apply in_spans_of_str. now exists g'.
  - rewrite (find_name_by_groups R perm).
    destruct (sort_by R _ snd (spans_of (line_groups e ws)))
      as [|[b d] t] eqn:S.
    + apply (sort_by_nil_str R perm) in S. split; [|reflexivity].
      intros _ g Hg V.
      assert (H : In (combined_text g, avg_distance g)
                     (spans_of (line_groups e ws))).
      { apply in_spans_of_str. now exists g. }
      now rewrite S in H.
    + split; [discriminate|]. intros H. exfalso.
      assert (Hb : In (b, d) (spans_of (line_groups e ws))).
      { apply (sort_by_In_str R perm snd). rewrite S. now left. }
      apply in_spans_of_str in Hb as (g & Hg & V & _).
      exact (H g Hg V).
  - intros w g Hlow Hg Hin. apply in_map_iff in Hin as ([w' d] & E & Hin).
    simpl in E. subst w'.
    destruct (Members g w d Hg Hin) as (_ & (_ & Hlo & _) & _).
    congruence.
Qed.

Lemma exact_runtime_permutes digit space isupper lower :
  sort_permutes (exact_runtime digit space isupper lower).
Proof. intros A key l. apply sort_by_perm. Qed.

Lemma exact_runtime_least digit space isupper lower :
  sort_least_first (exact_runtime digit space isupper lower).
Proof.
  intros A key l b t _ E a Ha. simpl in *.
  apply sort_by_head_least in E as [_ H].
  apply Qle_bool_iff. now apply H.
Qed.

Lemma ascii_runtime_apart : digits_apart ascii_runtime.
Proof.
  repeat split; try reflexivity.
  intros c. unfold ascii_runtime, exact_runtime, ascii_space, between.
  simpl.
  destruct (N.leb_spec 48 c), (N.leb_spec c 57); simpl; try reflexivity.
  destruct (N.leb_spec 9 c), (N.leb_spec c 13), (N.leb_spec 28 c),
    (N.leb_spec c 32); simpl; try discriminate; lia.
Qed.

Lemma wider_runtime_apart : digits_apart wider_runtime.
Proof.
  repeat split; try reflexivity.
  intros c. unfold wider_runtime, exact_runtime, ascii_space, between.
  simpl.
  destruct (N.eqb_spec c 160) as [->|_]; [reflexivity|].
  rewrite orb_false_r.
  destruct (N.leb_spec 48 c), (N.leb_spec c 57), (N.leb_spec 1632 c),
    (N.leb_spec c 1641); simpl; try reflexivity;
    destruct (N.leb_spec 9 c), (N.leb_spec c 13), (N.leb_spec 28 c),
      (N.leb_spec c 32); simpl; try discriminate; lia.
Qed.

Lemma find_phone_result_canonical_witness :
  canonical_phone ascii_runtime (lit "+1-212-555-0100") /\
  canonical_phone wider_runtime
                  ([43; 49; 45; 1634; 1633; 1634; 45; 1637; 1637; 1637;
                    45; 1632; 1633; 1632; 1632]%N).
Proof.
  split.
  - destruct (find_phone_result_canonical
                ascii_runtime ascii_runtime_apart
                (exact_runtime_permutes _ _ _ _)) as (_ & _ & Hfind).
    apply (Hfind (mkPdfWord (R := ascii_runtime)
                            (lit "jane.doe@example.com")
                            50%Q 60%Q 140%Q 72%Q 0)
                 [mkPdfWord (R := ascii_runtime)
                            (lit "Tel: (212) 555-0100")
                            60%Q 75%Q 130%Q 88%Q 0]).
    vm_compute. reflexivity.
  - destruct (find_phone_result_canonical
                wider_runtime wider_runtime_apart
                (exact_runtime_permutes _ _ _ _)) as (_ & _ & Hfind).
    apply (Hfind (mkPdfWord (R := wider_runtime)
                            (lit "jane.doe@example.com")
                            50%Q 60%Q 140%Q 72%Q 0)
                 [mkPdfWord (R := wider_runtime)
                            ([1634; 1633; 1634; 160; 1637; 1637; 1637; 45;
                              1632; 1633; 1632; 1632]%N)
                            60%Q 75%Q 130%Q 88%Q 0]).
    vm_compute. reflexivity.
Defined.

Lemma find_name_above_email_spec_witness :
  let e := mkPdfWord (R := ascii_runtime) (lit "jane.doe@example.com")
                     50%Q 260%Q 140%Q 272%Q 0 in
  let far := mkPdfWord (R := ascii_runtime) (lit "John Roe")
                       80%Q 52%Q 120%Q 68%Q 0 in
  let ws := [far;
             mkPdfWord (R := ascii_runtime) (lit "Jane Doe")
                       80%Q 240%Q 120%Q 255%Q 0;
             e] in
  (exists g,
      In g (line_groups e ws) /\ accepted g /\
      lit "Jane Doe" = combined_text g /\
      forall g', In g' (line_groups e ws) -> accepted g' ->
                 Qle_bool (avg_distance g) (avg_distance g') = true) /\
  (forall g, In g (line_groups e ws) -> ~ In far (map fst g)).
Proof.
  intros e far ws.
  destruct (find_name_above_email_spec
              ascii_runtime e ws
              (exact_runtime_permutes _ _ _ _)
              (exact_runtime_least _ _ _ _))
    as (_ & _ & Hsome & _ & Hfar).
  split.
  - destruct (Hsome (lit "Jane Doe")) as (g & Hg & V & E & Hmin).
    { vm_compute. reflexivity. }
    exists g. repeat split; auto.
    apply Hmin. intros g' _ _. apply Qle_bool_iff, Qle_refl.
  - intros g. apply Hfar. vm_compute. reflexivity.
Defined.

(** C2 as it is stated does not hold in binary64, where the window is
    the computed one.  A word whose center
    (34 - 2^-47 + 46) / 2 lies under the band [40, 100] of the email, by
    2^-48, is returned: the sum rounds to 80 and the computed center is
    40.  A word whose center is 200 under an email top of 2^62 is
    returned: both the center and the bound round to 2^62.  And with the
    email top at infinity the distance of the word returned is no
    number, so it is not the least of anything. *)
Lemma name_window_is_rounded :
  (let e := mkPdfWord (R := binary64_runtime) (lit "jane.doe@example.com")
                      50%float 100%float 140%float 112%float 0 in
   let w := mkPdfWord (R := binary64_runtime) (lit "Jane Doe")
                      80%float (34 - 0x1p-47)%float 120%float 46%float 0 in
   exists c top : Q,
     exact_center_y w = Some c /\ exact (y0 e) = Some top /\
     (c < top - 60)%Q /\
     find_name_above_email e [w; e] = Some (lit "Jane Doe")) /\
  (let e := mkPdfWord (R := binary64_runtime) (lit "jane.doe@example.com")
                      50%float 0x1p62%float 140%float 0x1p62%float 0 in
   let w := mkPdfWord (R := binary64_runtime) (lit "Jane Doe")
                      80%float (-400)%float 120%float 0x1p63%float 0 in
   exists c top : Q,
     exact_center_y w = Some c /\ exact (y0 e) = Some top /\
     (c == top - 200)%Q /\
     find_name_above_email e [w; e] = Some (lit "Jane Doe")) /\
  (let e := mkPdfWord (R := binary64_runtime) (lit "jane.doe@example.com")
                      50%float infinity 140%float infinity 0 in
   let w := mkPdfWord (R := binary64_runtime) (lit "Jane Doe")
                      80%float infinity 120%float infinity 0 in
   find_name_above_email e [w; e] = Some (lit "Jane Doe") /\
   exists g,
     line_groups e [w; e] = [g] /\ is_valid_name binary64_runtime
                                                  (combined_text g) = true /\
     PrimFloat.leb (avg_distance g) (avg_distance g) = false).
Proof.
  cbv zeta. split; [|split].
  - eexists. eexists.
    split; [vm_compute; reflexivity|].
    split; [vm_compute; reflexivity|].
    split; vm_compute; reflexivity.
  - eexists. eexists.
    split; [vm_compute; reflexivity|].
    split; [vm_compute; reflexivity|].
    split; vm_compute; reflexivity.
  - split; [vm_compute; reflexivity|].
    eexists. split; [vm_compute; reflexivity|].
    split; vm_compute; reflexivity.
Qed.

Lemma accepts_eol_inv (p : pattern) (m rest : str) :
  accepts (Eol :: p) m rest ->
  at_eol (m ++ rest)%list = true /\ accepts p m rest.
Proof. intros H. inversion H; subst. now split. Qed.

Lemma one_char (cls : char -> bool) (piece : str) :
  forallb cls piece = true -> 1 <= List.length piece ->
  (forall h, Some 1 = Some h -> List.length piece <= h) ->
  exists c, piece = [c] /\ cls c = true.
Proof.
  intros A L U. specialize (U 1 eq_refl).
  destruct piece as [|c [|c' piece]]; simpl in *; try lia.
  exists c. rewrite andb_true_r in A. now split.
Qed.

(** A text the name pattern matches from its start. *)
Lemma name_match_shape_str (R : runtime) (s : str) :
  matches (NAME_PATTERN R) s = true ->
  exists u mid l tail,
    s = (u :: mid ++ l :: tail)%list /\
    ascii_upper u = true /\
    forallb (name_char R) mid = true /\
    1 <= List.length mid <= 48 /\
    ascii_letter l = true /\
    (tail = [] \/ tail = [10%N]).
Proof.
  unfold matches.
  destruct (match_here (NAME_PATTERN R) s) as [n|] eqn:M; [|discriminate].
  intros _. apply match_here_accepts in M as [_ H].
  unfold NAME_PATTERN, one in H.
  apply accepts_rep_inv in H as (p1 & m1 & E1 & A1 & L1 & U1 & H).
  apply accepts_rep_inv in H as (mid & m2 & -> & Am & Lm & Um & H).
  apply accepts_rep_inv in H as (p3 & m3 & -> & A3 & L3 & U3 & H).
  apply accepts_eol_inv in H as [End H]. inversion H; subst; clear H.
  destruct (one_char _ _ A1 L1 U1) as (u & -> & Hu).
  destruct (one_char _ _ A3 L3 U3) as (l & -> & Hl).
  specialize (Um _ eq_refl).
  exists u, mid, l, (skipn n s).
  rewrite <- (firstn_skipn n s) at 1. rewrite E1.
  split; [simpl; now rewrite <- !app_assoc|].
  repeat split; auto.
  simpl in End. destruct (skipn n s) as [|c [|c' t]];
    [now left | right | discriminate].
  apply N.eqb_eq in End. now subst c.
Qed.

(** X3. Whatever the interpreter's [\s], [isupper] and [lower] are: a
    name the validator accepts is an upper-case ASCII letter, 1 to 48
    ASCII letters, apostrophes, hyphens, periods or white space
    characters, and an ASCII letter, which one line feed may follow; it
    has between 3 and 50 characters, no decimal digit and no [@]. *)
Theorem accepted_name_shape (R : runtime) (s : str) :
  is_valid_name R s = true ->
  (exists u mid l tail,
      s = (u :: mid ++ l :: tail)%list /\
      ascii_upper u = true /\ char_isupper R u = true /\
      forallb (name_char R) mid = true /\
      1 <= List.length mid <= 48 /\
      ascii_letter l = true /\
      (tail = [] \/ tail = [10%N])) /\
  3 <= List.length s <= 50 /\
  (digits_apart R -> names_apart R ->
   filter (re_digit R) s = [] /\ ~ In (chr "@") s).
Proof.
  unfold is_valid_name. intros V.
  destruct (negb (truthy s) || (List.length s <? 2)
            || (50 <? List.length s)) eqn:G; [discriminate|].
  destruct (mem (str_lower R s) BLACKLIST); [discriminate|].
  destruct (existsb _ ui_words); [discriminate|].
  destruct (first_isupper R s) eqn:U; [|discriminate].
  destruct (matches (NAME_PATTERN R) s) eqn:M; [|discriminate].
  apply orb_false_iff in G as [_ G50]. apply Nat.ltb_ge in G50.
  destruct (name_match_shape_str R s M)
    as (u & mid & l & tail & -> & Hu & Hm & Lm & Hl & Ht).
  simpl in U.
  assert (Len : 3 <= List.length (u :: mid ++ l :: tail)%list).
  { simpl. rewrite length_app. simpl. lia. }
  split; [now exists u, mid, l, tail|]. split; [lia|].
  intros (Ho & Hc & Hd & Hp & Hs) (Hletter & Hq & Hnl & Hat).
  assert (Dname : forall c, name_char R c = true -> re_digit R c = false).
  { intros c H. unfold name_char in H.
    apply orb_true_iff in H as [H|H]; [|now apply Hs].
    apply orb_true_iff in H as [H|H];
      [|now apply (is_chr_not_digit R ".")].
    apply orb_true_iff in H as [H|H];
      [|now apply (is_chr_not_digit R "-")].
    apply orb_true_iff in H as [H|H];
      [now apply Hletter | now apply (is_chr_not_digit R "'")]. }
  assert (Aname : forall c, name_char R c = true -> c <> chr "@").
  { intros c H E. subst c. unfold name_char in H. rewrite Hat in H.
    vm_compute in H. discriminate H. }
  assert (Aletter : forall c, ascii_letter c = true -> c <> chr "@").
  { intros c H E. subst c. vm_compute in H. discriminate H. }
  assert (Uletter : ascii_letter u = true).
  { unfold ascii_letter. unfold ascii_upper in Hu. now rewrite Hu. }
  split.
  - simpl. rewrite (Hletter u Uletter), filter_app, (filter_none _ _ mid Dname Hm).
    simpl. rewrite (Hletter l Hl).
    destruct Ht as [->| ->]; simpl; [reflexivity | now rewrite Hnl].
  - simpl. intros [H|H]; [now apply (Aletter u Uletter)|].
    apply in_app_iff in H as [H|[H|H]].
    + rewrite forallb_forall in Hm. now apply (Aname _ (Hm _ H)).
    + now apply (Aletter l Hl).
    + destruct Ht as [->| ->]; [contradiction|].
      destruct H as [H|[]]. discriminate H.
Qed.

Lemma ascii_runtime_names_apart : names_apart ascii_runtime.
Proof.
  repeat split; try reflexivity.
  intros c. unfold ascii_letter, ascii_runtime, exact_runtime, between.
  simpl.
  destruct (N.leb_spec 48 c), (N.leb_spec c 57); simpl; try reflexivity.
  destruct (N.leb_spec 65 c), (N.leb_spec c 90), (N.leb_spec 97 c),
    (N.leb_spec c 122); simpl; try discriminate; lia.
Qed.

Lemma accepted_name_shape_witness :
  filter (re_digit ascii_runtime) (lit "Mary-Ann O'Neil") = [] /\
  ~ In (chr "@") (lit "Mary-Ann O'Neil").
Proof.
  destruct (accepted_name_shape ascii_runtime (lit "Mary-Ann O'Neil"))
    as (_ & _ & H).
  - vm_compute. reflexivity.
  - apply H; [apply ascii_runtime_apart | apply ascii_runtime_names_apart].
Defined.

(** X6. With the window and the distances as the program computes them:
    the phone search returns the normal form of the first match of a word
    of the window that holds a phone number, a closest one when the
    distances are numbers, and nothing exactly when no word of the window
    holds one. *)
Theorem find_phone_closest (R : runtime) (e : PdfWord R)
        (ws : list (PdfWord R)) :
  sort_permutes R -> sort_least_first R ->
  (forall r,
      find_phone_below_email e ws = Some r ->
      exists w m rest,
        In w ws /\ in_phone_window e w /\
        findall (PHONE_PATTERN R) (text w) = m :: rest /\
        r = normalize_phone R m /\
        ((forall w', In w' ws -> in_phone_window e w' ->
                     is_number R (below_distance e w')) ->
         forall w',
           In w' ws -> in_phone_window e w' ->
           findall (PHONE_PATTERN R) (text w') <> [] ->
           num_le R (below_distance e w) (below_distance e w') = true)) /\
  (find_phone_below_email e ws = None <->
   forall w,
     In w ws -> in_phone_window e w ->
     findall (PHONE_PATTERN R) (text w) = []).
Proof.
  intros perm least.
  unfold find_phone_below_email, find_phone_below_email_with.
  set (cands := phone_candidates_of e ws (num_of_Z R 40) (num_of_Z R 100)).
  assert (Hnil : cands = [] ->
                 forall w, In w ws -> in_phone_window e w ->
                           findall (PHONE_PATTERN R) (text w) = []).
  { intros C w Hw W.
    destruct (findall (PHONE_PATTERN R) (text w)) as [|m rest] eqn:F;
      [reflexivity|].
    assert (H : In (m, below_distance e w) cands).
    { apply in_phone_candidates. now exists w, rest. }
    now rewrite C in H. }
  destruct cands as [|c0 cs] eqn:C.
  - split; [discriminate|]. split; [|reflexivity]. intros _. now apply Hnil.
  - rewrite <- C in *. clear Hnil.
    destruct (sort_by R _ snd cands) as [|[m d] t] eqn:S.
    { apply (sort_by_nil_str R perm) in S. rewrite S in C. discriminate. }
    assert (Hb : In (m, d) cands).
    { apply (sort_by_In_str R perm snd). rewrite S. now left. }
    apply in_phone_candidates in Hb as (w & rest & Hw & W & F & Ed).
    split.
    + intros r H. injection H as <-. exists w, m, rest.
      repeat split; auto; try apply W.
      intros Num w' Hw' W' F'.
      destruct (findall (PHONE_PATTERN R) (text w')) as [|m' rest'] eqn:E';
        [contradiction|].
      assert (Keys : forall a, In a cands -> is_number R (snd a)).
      { intros [m0 d0] Ha.
        apply in_phone_candidates in Ha as (w0 & r0 & H0 & W0 & _ & ->).
        now apply Num. }
      rewrite <- Ed.
      apply (least _ snd _ _ _ Keys S (m', below_distance e w')).
      apply in_phone_candidates. now exists w', rest'.
    + split; [discriminate|]. intros H.
      rewrite (H w Hw W) in F. discriminate.
Qed.

Lemma find_phone_closest_witness :
  let e := mkPdfWord (R := ascii_runtime) (lit "jane.doe@example.com")
                     40%Q 60%Q 150%Q 72%Q 0 in
  let ws := [ mkPdfWord (R := ascii_runtime) (lit "646-555-0199")
                        60%Q 95%Q 130%Q 107%Q 0;
              mkPdfWord (R := ascii_runtime) (lit "212-555-0100")
                        60%Q 75%Q 130%Q 88%Q 0;
              mkPdfWord (R := ascii_runtime) (lit "917-555-0142")
                        60%Q 175%Q 130%Q 188%Q 0 ] in
  exists w m rest,
    In w ws /\ in_phone_window e w /\
    findall (PHONE_PATTERN ascii_runtime) (text w) = m :: rest /\
    lit "+1-212-555-0100" = normalize_phone ascii_runtime m /\
    forall w',
      In w' ws -> in_phone_window e w' ->
      findall (PHONE_PATTERN ascii_runtime) (text w') <> [] ->
      Qle_bool (below_distance e w) (below_distance e w') = true.
Proof.
  intros e ws.
  destruct (proj1 (find_phone_closest
                     ascii_runtime e ws
                     (exact_runtime_permutes _ _ _ _)
                     (exact_runtime_least _ _ _ _))
                  (lit "+1-212-555-0100"))
    as (w & m & rest & Hw & W & F & E & Hmin).
  { vm_compute. reflexivity. }
  exists w, m, rest. repeat split; auto; try apply W.
  apply Hmin. intros w' _ _. apply Qle_bool_iff, Qle_refl.
Defined.

End InterpFacts.


(* ================================================================== *)
(** ** Pairing and classification *)

Section PairingFacts.
Import Models PdfExtract Pairing Props.

Lemma has_name_iff (c : Contact) : has_name c = true <-> name_present c.
Proof.
  unfold has_name, name_present, truthy_opt. split.
  - destruct (name c) as [n|]; [|discriminate]. intros H.
    apply andb_true_iff in H as [T U]. exists n. repeat split.
    + intros ->. discriminate.
    + intros ->. discriminate.
  - intros (n & -> & Hn & Hu). apply andb_true_iff. split.
    + destruct n; [contradiction | reflexivity].
    + destruct (String.eqb_spec n "Unknown"); [contradiction | reflexivity].
Qed.

Lemma has_email_iff (c : Contact) : has_email c = true <-> email_present c.
Proof.
  unfold has_email, email_present. destruct (email c); simpl; split;
    congruence.
Qed.

Lemma has_phone_iff (c : Contact) : has_phone c = true <-> phone_present c.
Proof.
  unfold has_phone, phone_present, truthy_opt. split.
  - destruct (phone c) as [p|]; [|discriminate]. intros H. exists p.
    split; [reflexivity|]. intros ->. discriminate.
  - intros (p & -> & Hp). destruct p; [contradiction | reflexivity].
Qed.

Lemma calculate_confidence_table (c : Contact) :
  calculate_confidence c =
  match has_name c, has_email c, has_phone c with
  | true, true, true => "high"
  | true, true, false => "medium"
  | false, true, true => "medium"
  | _, _, _ => "low"
  end.
Proof.
  unfold calculate_confidence.
  now destruct (has_name c), (has_email c), (has_phone c).
Qed.

Lemma process_one_confidence (pc : PdfContact) :
  confidence (process_one pc) = calculate_confidence (process_one pc).
Proof. reflexivity. Qed.

(** C5. The tier of a contact is fixed by which of name, email and
    phone are present; the contacts of the pairing carry that tier; and
    the tier never drops when more of the three are present. *)
Theorem confidence_by_presence :
  (forall c,
      (calculate_confidence c = "high" <->
       name_present c /\ email_present c /\ phone_present c) /\
      (calculate_confidence c = "medium" <->
       ~ (name_present c /\ email_present c /\ phone_present c) /\
       ((name_present c /\ email_present c) \/
        (email_present c /\ phone_present c))) /\
      (calculate_confidence c = "low" <->
       ~ ((name_present c /\ email_present c) \/
          (email_present c /\ phone_present c)))) /\
  (forall pcs url c,
      In c (process_pdf_contacts pcs url) ->
      confidence c = calculate_confidence c) /\
  (forall c1 c2,
      (name_present c1 -> name_present c2) ->
      (email_present c1 -> email_present c2) ->
      (phone_present c1 -> phone_present c2) ->
      rank (calculate_confidence c1) <= rank (calculate_confidence c2)) /\
  (forall full two one,
      name_present full /\ email_present full /\ phone_present full ->
      ~ name_present two /\ email_present two /\ phone_present two ->
      ~ name_present one /\ email_present one /\ ~ phone_present one ->
      rank (calculate_confidence one) <= rank (calculate_confidence two) /\
      rank (calculate_confidence two) <= rank (calculate_confidence full)).
Proof.
  split; [|split; [|split]].
  - intros c. rewrite calculate_confidence_table.
    rewrite <- has_name_iff, <- has_email_iff, <- has_phone_iff.
    destruct (has_name c), (has_email c), (has_phone c);
      repeat split; intros; try discriminate; try tauto;
      intuition discriminate.
  - intros pcs url c H. unfold process_pdf_contacts in H.
    apply in_map_iff in H as (pc & <- & _). apply process_one_confidence.
  - intros c1 c2.
    rewrite <- !has_name_iff, <- !has_email_iff, <- !has_phone_iff.
    rewrite !calculate_confidence_table.
    destruct (has_name c1), (has_email c1), (has_phone c1),
      (has_name c2), (has_email c2), (has_phone c2);
      intros Hn He Hp; try (vm_compute; lia);
      try (specialize (Hn eq_refl); discriminate);
      try (specialize (He eq_refl); discriminate);
      try (specialize (Hp eq_refl); discriminate).
  - intros full two one.
    rewrite <- !has_name_iff, <- !has_email_iff, <- !has_phone_iff.
    rewrite !calculate_confidence_table.
    destruct (has_name full), (has_email full), (has_phone full),
      (has_name two), (has_email two), (has_phone two),
      (has_name one), (has_email one), (has_phone one);
      intros (F1 & F2 & F3) (T1 & T2 & T3) (O1 & O2 & O3);
      try discriminate; try (now elim T1); try (now elim O1);
      try (now elim O3); vm_compute; lia.
Qed.

Lemma confidence_by_presence_witness :
  rank (calculate_confidence
          (mkContact None "a@b.co" None None "pdf" "medium" None None))
  <= rank (calculate_confidence
             (mkContact None "a@b.co" (Some "+1-212-555-0100") None "pdf"
                        "medium" None None)) /\
  confidence
    (process_one (mkPdfContact "a@b.co" None None (mkCoords 0 0 0) 0))
  = calculate_confidence
      (process_one (mkPdfContact "a@b.co" None None (mkCoords 0 0 0) 0)).
Proof.
  destruct confidence_by_presence as (_ & Hc & Hm & _). split.
  - apply Hm.
    + intros (n & H & _). discriminate H.
    + intros _. unfold email_present. simpl. discriminate.
    + intros (p & H & _). discriminate H.
  - apply (Hc [mkPdfContact "a@b.co" None None (mkCoords 0 0 0) 0] "").
    simpl. left. reflexivity.
Defined.

Lemma process_one_name (pc : PdfContact) :
  name (process_one pc) =
  match (if truthy_opt (pc_name pc) then pc_name pc
         else Some (derive_name_from_email (pc_email pc))) with
  | Some n => if String.eqb n "Unknown" then None else Some n
  | None => None
  end.
Proof. reflexivity. Qed.

(** C7. No contact of the pairing is named "Unknown"; when no name was
    found and the derivation fails, for a generic mailbox or because no
    segment survives, the name is absent. *)
Theorem name_never_placeholder :
  (forall pcs url c,
      In c (process_pdf_contacts pcs url) -> name c <> Some "Unknown") /\
  (forall e,
      Py.mem (Py.lower (piece 0 e)) GENERIC_PREFIXES = true \/
      flat_map name_part (Py.split_on name_sep (Py.lower (piece 0 e))) = [] ->
      derive_name_from_email e = "Unknown") /\
  (forall pcs url pc,
      In pc pcs ->
      truthy_opt (pc_name pc) = false ->
      derive_name_from_email (pc_email pc) = "Unknown" ->
      In (process_one pc) (process_pdf_contacts pcs url) /\
      name (process_one pc) = None).
Proof.
  split; [|split].
  - intros pcs url c H. unfold process_pdf_contacts in H.
    apply in_map_iff in H as (pc & <- & _). rewrite process_one_name.
    destruct (if truthy_opt (pc_name pc) then pc_name pc
              else Some (derive_name_from_email (pc_email pc))) as [n|];
      [|discriminate].
    destruct (String.eqb_spec n "Unknown"); [discriminate|congruence].
  - intros e H. unfold derive_name_from_email.
    destruct (negb (Py.has_char "@" e)); [reflexivity|].
    destruct (Py.mem (Py.lower (piece 0 e)) GENERIC_PREFIXES) eqn:G;
      [reflexivity|].
    destruct H as [H|H]; [discriminate|]. now rewrite H.
  - intros pcs url pc Hin Hn Hd. split.
    + unfold process_pdf_contacts. now apply in_map.
    + rewrite process_one_name, Hn, Hd. reflexivity.
Qed.

Lemma name_never_placeholder_witness :
  name (process_one
          (mkPdfContact "info@acme.com" None None (mkCoords 0 0 0) 0))
  = None /\
  derive_name_from_email "2024@acme.com" = "Unknown".
Proof.
  destruct name_never_placeholder as (_ & Hd & Hn). split.
  - apply (Hn [mkPdfContact "info@acme.com" None None (mkCoords 0 0 0) 0]
              "https://acme.com/team").
    + left. reflexivity.
    + reflexivity.
    + apply Hd. left. reflexivity.
  - apply Hd. right. reflexivity.
Defined.

End PairingFacts.

(* ================================================================== *)
(** ** The extraction loop *)

Section Extraction.
Import Models PdfExtract Pairing Props.

Variable all_words : list PdfWord.

Lemma contacts_loop_spec (emails : list (string * PdfWord)) :
  forall st,
    loop_inv st ->
    loop_inv (fold_left (contacts_step all_words) emails st) /\
    forall c,
      In c (fst (fold_left (contacts_step all_words) emails st)) ->
      In c (fst st) \/
      exists pre w post,
        emails = (pre ++ (pc_email c, w) :: post)%list /\
        ~ In (pc_email c) (map fst pre) /\
        ~ In (pc_email c) (snd st) /\
        c = make_contact all_words (pc_email c) w.
Proof.
  induction emails as [|[e w] rest IH]; intros [cs seen] Inv; simpl.
  - split; [assumption | auto].
  - destruct (Py.mem e seen) eqn:M.
    + destruct (IH (cs, seen) Inv) as [Inv' Hc]. split; [assumption|].
      intros c Hin. destruct (Hc c Hin) as [H|(pre & w' & post & E & N & S & C)];
        [now left | right].
      exists ((e, w) :: pre), w', post. simpl in *. subst rest.
      repeat split; auto.
      intros [Heq|H]; [|contradiction].
      apply mem_In in M. rewrite Heq in M. contradiction.
    + assert (Nseen : ~ In e seen).
      { intros H. apply mem_In in H. congruence. }
      destruct Inv as [Iseen Ind]. simpl in Iseen, Ind.
      assert (Inv1 : loop_inv
                       ((cs ++ [make_contact all_words e w])%list, e :: seen)).
      { split; simpl.
        - intros e'. rewrite map_app, in_app_iff. simpl.
          rewrite <- Iseen. tauto.
        - rewrite map_app. simpl.
          apply NoDup_app; [assumption | repeat constructor; auto |].
          intros x Hx [<-|[]]. apply Nseen. now apply Iseen. }
      destruct (IH _ Inv1) as [Inv' Hc]. split; [assumption|].
      intros c Hin. simpl in Hc.
      destruct (Hc c Hin) as [H|(pre & w' & post & E & N & S & C)].
      * apply in_app_iff in H as [H|[<-|[]]]; [now left | right].
        exists [], w, rest. simpl. repeat split; auto.
      * right. exists ((e, w) :: pre), w', post. simpl in *. subst rest.
        repeat split; auto. tauto.
Qed.

End Extraction.

Section Locator.
Import Models PdfExtract Pairing Props.

Lemma find_emails_cons (w : PdfWord) (ws : list PdfWord) :
  find_emails_in_words (w :: ws) =
  (map (fun e => (e, w)) (emails_of w) ++ find_emails_in_words ws)%list.
Proof.
  unfold find_emails_in_words, emails_of. simpl. now rewrite map_map.
Qed.

Lemma map_fst_tagged (w : PdfWord) (es : list string) :
  map fst (map (fun e => (e, w)) es) = es.
Proof. induction es; simpl; congruence. Qed.

(** The first pair of an email in the locator's list comes from the first
    word, in input order, that holds this email. *)
Lemma first_pair_first_word :
  forall ws pre e w post,
    find_emails_in_words ws = (pre ++ (e, w) :: post)%list ->
    ~ In e (map fst pre) ->
    exists before after,
      ws = (before ++ w :: after)%list /\
      In e (emails_of w) /\
      forall w', In w' before -> ~ In e (emails_of w').
Proof.
  induction ws as [|w0 ws IH]; intros pre e w post E N.
  - destruct pre; discriminate.
  - rewrite find_emails_cons in E.
    assert (Later : forall l,
               pre = (map (fun e => (e, w0)) (emails_of w0) ++ l)%list ->
               find_emails_in_words ws = (l ++ (e, w) :: post)%list ->
               exists before after,
                 w0 :: ws = (before ++ w :: after)%list /\
                 In e (emails_of w) /\
                 forall w', In w' before -> ~ In e (emails_of w')).
    { intros l Hpre Hrest.
      assert (N0 : ~ In e (emails_of w0)).
      { intros H. apply N. rewrite Hpre, map_app, map_fst_tagged.
        apply in_app_iff. now left. }
      assert (Nl : ~ In e (map fst l)).
      { intros H. apply N. rewrite Hpre, map_app.
        apply in_app_iff. now right. }
      destruct (IH _ _ _ _ Hrest Nl) as (before & after & -> & Hin & Hb).
      exists (w0 :: before), after. repeat split; auto.
      intros w' [<-|H]; auto. }
    apply app_eq_app in E as [l [[E1 E2]|[E1 E2]]].
    + destruct l as [|p l].
      * rewrite app_nil_r in E1. simpl in E2.
        apply (Later []); [now rewrite app_nil_r | now symmetry].
      * simpl in E2. injection E2 as Hp _. subst p.
        assert (Hin : In (e, w) (map (fun e => (e, w0)) (emails_of w0))).
        { rewrite E1. apply in_app_iff. right. now left. }
        apply in_map_iff in Hin as (e' & He & Hin). injection He as -> ->.
        exists [], ws. repeat split; auto.
    + now apply (Later l).
Qed.


(** Every contact of the extraction is the one built for the first word
    that holds its email. *)
Lemma extract_contacts_spec (ws : list PdfWord) :
  NoDup (map pc_email (extract_contacts_from_words ws)) /\
  forall c,
    In c (extract_contacts_from_words ws) ->
    exists before w after,
      ws = (before ++ w :: after)%list /\
      In (pc_email c) (emails_of w) /\
      (forall w', In w' before -> ~ In (pc_email c) (emails_of w')) /\
      c = make_contact ws (pc_email c) w.
Proof.
  unfold extract_contacts_from_words.
  destruct ws as [|w0 ws0] eqn:Ews; [split; [constructor | intros c []]|].
  rewrite <- Ews. clear Ews w0 ws0.
  destruct (find_emails_in_words ws) as [|p ps] eqn:F;
    [split; [constructor | intros c []]|].
  rewrite <- F.
  assert (Inv0 : loop_inv (@nil PdfContact, @nil string)).
  { split; simpl; [tauto | constructor]. }
  destruct (contacts_loop_spec ws (find_emails_in_words ws) _ Inv0)
    as [[_ Hnd] Hc].
  split; [exact Hnd|].
  intros c Hin. destruct (Hc c Hin) as [[]|(pre & w & post & E & N & _ & C)].
  destruct (first_pair_first_word _ _ _ _ _ E N)
    as (before & after & Hws & He & Hb).
  now exists before, w, after.
Qed.

Lemma pipeline_emails (ws : list PdfWord) (url : string) :
  map email (pipeline ws url) = map pc_email (extract_contacts_from_words ws).
Proof.
  unfold pipeline, process_pdf_contacts. rewrite map_map. reflexivity.
Qed.

(** C8. With no words, or with no email in the words, the extraction
    returns the empty list. *)
Theorem nothing_found_is_empty (fs : file_system) (pdf_path : string)
        (ws : list PdfWord) :
  fs pdf_path = Some ws ->
  ws = [] \/ find_emails_in_words ws = [] ->
  extract_contacts_from_pdf fs pdf_path = Returns [] /\
  pipeline ws pdf_path = [].
Proof.
  intros Hfs H. unfold extract_contacts_from_pdf, pipeline. rewrite Hfs.
  assert (E : extract_contacts_from_words ws = []).
  { unfold extract_contacts_from_words. destruct H as [->| ->].
    - reflexivity.
    - now destruct ws. }
  now rewrite E.
Qed.

Lemma nothing_found_is_empty_witness :
  extract_contacts_from_pdf (fun _ => Some []) "empty.pdf" = Returns [] /\
  pipeline [mkPdfWord "Directory" 10 20 80 32 0] "staff.pdf" = [].
Proof.
  split.
  - apply (nothing_found_is_empty (fun _ => Some []) "empty.pdf" []);
      [reflexivity | left; reflexivity].
  - apply (nothing_found_is_empty
             (fun _ => Some [mkPdfWord "Directory" 10 20 80 32 0])
             "staff.pdf" [mkPdfWord "Directory" 10 20 80 32 0]);
      [reflexivity | right; reflexivity].
Defined.

End Locator.

(* ================================================================== *)
(** ** The name search *)

Section NameSearch.
Import Models PdfExtract Pairing Props.

Lemma in_band_iff (lo v hi : Q) :
  in_band lo v hi = true <-> (lo <= v)%Q /\ (v <= hi)%Q.
Proof.
  unfold in_band. now rewrite andb_true_iff, !Qle_bool_iff.
Qed.

Lemma first_isupper_truthy (s : string) :
  Py.first_isupper s = true -> Py.truthy s = true.
Proof. now destruct s. Qed.

Lemma name_candidate_iff (e w : PdfWord) :
  name_candidate e 60 100 w = true <->
  in_name_window e w /\ Py.first_isupper (text w) = true.
Proof.
  unfold name_candidate, in_name_window.
  rewrite !andb_true_iff, !in_band_iff, Nat.eqb_eq. split.
  - tauto.
  - intros [H U]. pose proof (first_isupper_truthy _ U). tauto.
Qed.

Lemma spans_of_app (a b : list group) :
  spans_of (a ++ b) = (spans_of a ++ spans_of b)%list.
Proof. unfold spans_of. apply flat_map_app. Qed.

Lemma save_group_spans (g : group) (gs : list group) :
  save_group g (spans_of gs) = spans_of (close_group g gs).
Proof.
  destruct g as [|c g]; [reflexivity|].
  unfold save_group, close_group. rewrite spans_of_app. simpl.
  destruct (is_valid_name (combined_text (c :: g))); simpl;
    [reflexivity | now rewrite app_nil_r].
Qed.

Lemma walk_step_agree (st : walk) (gst : gwalk) (c : PdfWord * Q) :
  walks_agree st gst -> walks_agree (walk_step st c) (gwalk_step gst c).
Proof.
  intros (Hn & Hc & Hy & Hx). unfold walk_step, gwalk_step.
  assert (S : same_line st (fst c) = g_same_line gst (fst c)).
  { unfold same_line, g_same_line. now rewrite Hy, Hx. }
  rewrite S. destruct (g_same_line gst (fst c)); repeat split; simpl; auto.
  - now rewrite Hc.
  - now rewrite Hn, Hc, save_group_spans.
Qed.

Lemma walk_agree (l : list (PdfWord * Q)) :
  forall st gst,
    walks_agree st gst ->
    walks_agree (fold_left walk_step l st) (fold_left gwalk_step l gst).
Proof.
  induction l as [|c l IH]; intros st gst H; simpl; [assumption|].
  now apply IH, walk_step_agree.
Qed.

(** The name candidates of the program are the accepted spans of the
    groups. *)
Lemma found_spans (l : list (PdfWord * Q)) :
  let st := fold_left walk_step l walk_init in
  save_group (current_group st) (name_candidates st) = spans_of (groups_of l).
Proof.
  simpl. unfold groups_of.
  assert (A : walks_agree walk_init (mkGwalk [] [] None None)).
  { repeat split. }
  destruct (walk_agree l _ _ A) as (Hn & Hc & _ & _).
  now rewrite Hn, Hc, save_group_spans.
Qed.

Lemma concat_close_group (g : group) (gs : list group) :
  List.concat (close_group g gs) = (List.concat gs ++ g)%list.
Proof.
  destruct g; simpl; [now rewrite app_nil_r|].
  rewrite concat_app. simpl. now rewrite app_nil_r.
Qed.

Lemma gwalk_concat (l : list (PdfWord * Q)) :
  forall st,
    let st' := fold_left gwalk_step l st in
    List.concat (close_group (open_group st') (finished st')) =
    (List.concat (close_group (open_group st) (finished st)) ++ l)%list.
Proof.
  induction l as [|c l IH]; intros st; simpl.
  - now rewrite app_nil_r.
  - simpl in IH. rewrite IH. unfold gwalk_step.
    destruct (g_same_line st (fst c)); simpl;
      rewrite ?concat_app, !concat_close_group; simpl;
      rewrite <- ?app_assoc; reflexivity.
Qed.

(** The groups split the sorted candidates, in order. *)
Lemma groups_of_concat (l : list (PdfWord * Q)) : List.concat (groups_of l) = l.
Proof.
  unfold groups_of. now rewrite (gwalk_concat l (mkGwalk [] [] None None)).
Qed.

Lemma in_spans_of (gs : list group) (n : string) (d : Q) :
  In (n, d) (spans_of gs) <->
  exists g, In g gs /\ accepted g /\ n = combined_text g /\ d = avg_distance g.
Proof.
  unfold spans_of, accepted. rewrite in_flat_map. split.
  - intros (g & Hg & H). exists g.
    destruct (is_valid_name (combined_text g)); [|contradiction].
    destruct H as [H|[]]. injection H as <- <-. auto.
  - intros (g & Hg & V & -> & ->). exists g. split; [assumption|].
    rewrite V. now left.
Qed.

End NameSearch.

(* ================================================================== *)
(** ** The spatial pairing scenario *)

Section Scenario.
Import Models PdfExtract Pairing Props.

Lemma phone_window_iff (e w : PdfWord) :
  phone_window e 40 100 w = true <->
  page_num w = page_num e /\
  (y1 e <= center_y w)%Q /\ (center_y w <= y1 e + 40)%Q /\
  (center_x e - 100 <= center_x w)%Q /\ (center_x w <= center_x e + 100)%Q.
Proof.
  unfold phone_window.
  rewrite !andb_true_iff, !in_band_iff, Nat.eqb_eq. tauto.
Qed.

(** With one candidate in the window the search returns its text, when
    the validator accepts it. *)
Lemma find_name_single (e w : PdfWord) (ws : list PdfWord) :
  filter (name_candidate e 60 100) ws = [w] ->
  find_name_above_email e ws =
  if is_valid_name (text w) then Some (text w) else None.
Proof.
  intros F. unfold find_name_above_email, find_name_above_email_with.
  rewrite F. cbn [map sort_by fold_right insert_by fold_left].
  unfold walk_step. cbn [same_line walk_init last_y last_x fst].
  cbn [current_group name_candidates save_group combined_text map fst Py.join].
  destruct (is_valid_name (text w)); reflexivity.
Qed.

(** With one phone candidate the search returns its normal form. *)
Lemma find_phone_single (e : PdfWord) (ws : list PdfWord) (m : string) (d : Q) :
  phone_candidates_of e ws 40 100 = [(m, d)] ->
  find_phone_below_email e ws = Some (normalize_phone m).
Proof.
  intros F. unfold find_phone_below_email, find_phone_below_email_with.
  now rewrite F.
Qed.

(** C1. The three tokens of the scenario, with any horizontal extents that
    put the name and the phone within 100 units of the email's center,
    give exactly one contact, with the fields of the scenario. *)
Theorem spatial_pairing_scenario
        (nx0 nx1 ex0 ex1 px0 px1 : Q) (page_url : string) :
  let name_word := mkPdfWord "Jane Doe" nx0 40 nx1 55 0 in
  let email_word := mkPdfWord "jane.doe@example.com" ex0 60 ex1 72 0 in
  let phone_word := mkPdfWord "212-555-0100" px0 75 px1 88 0 in
  (center_x email_word - 100 <= center_x name_word)%Q ->
  (center_x name_word <= center_x email_word + 100)%Q ->
  (center_x email_word - 100 <= center_x phone_word)%Q ->
  (center_x phone_word <= center_x email_word + 100)%Q ->
  pipeline [name_word; email_word; phone_word] page_url =
  [ mkContact (Some "Jane Doe") "jane.doe@example.com"
              (Some "+1-212-555-0100") None "pdf" "high"
              (Some "example.com") (Some "business") ].
Proof.
  intros name_word email_word phone_word Hn1 Hn2 Hp1 Hp2.
  set (ws := [name_word; email_word; phone_word]).
  assert (Emails : find_emails_in_words ws
                   = [("jane.doe@example.com", email_word)]).
  { vm_compute. reflexivity. }
  assert (Cn : name_candidate email_word 60 100 name_word = true).
  { apply name_candidate_iff. split; [|reflexivity].
    unfold in_name_window. repeat split; auto;
      apply Qle_bool_iff; vm_compute; reflexivity. }
  assert (Ce : name_candidate email_word 60 100 email_word = false).
  { destruct (name_candidate email_word 60 100 email_word) eqn:C;
      [|reflexivity].
    apply name_candidate_iff in C as [_ C]. discriminate C. }
  assert (Cp : name_candidate email_word 60 100 phone_word = false).
  { destruct (name_candidate email_word 60 100 phone_word) eqn:C;
      [|reflexivity].
    apply name_candidate_iff in C as [_ C]. discriminate C. }
  assert (Name : find_name_above_email email_word ws = Some "Jane Doe").
  { rewrite (find_name_single email_word name_word).
    - reflexivity.
    - unfold ws. cbn [filter]. now rewrite Cn, Ce, Cp. }
  assert (Wn : phone_window email_word 40 100 name_word = false).
  { destruct (phone_window email_word 40 100 name_word) eqn:C;
      [|reflexivity].
    apply phone_window_iff in C as (_ & C & _).
    apply Qle_bool_iff in C. vm_compute in C. discriminate C. }
  assert (We : phone_window email_word 40 100 email_word = false).
  { destruct (phone_window email_word 40 100 email_word) eqn:C;
      [|reflexivity].
    apply phone_window_iff in C as (_ & C & _).
    apply Qle_bool_iff in C. vm_compute in C. discriminate C. }
  assert (Wp : phone_window email_word 40 100 phone_word = true).
  { apply phone_window_iff. repeat split; auto;
      apply Qle_bool_iff; vm_compute; reflexivity. }
  assert (Found : Re.findall PHONE_PATTERN "212-555-0100" = ["212-555-0100"]).
  { vm_compute. reflexivity. }
  assert (Phone : find_phone_below_email email_word ws
                  = Some "+1-212-555-0100").
  { rewrite (find_phone_single email_word ws "212-555-0100"
               (Qabs (center_y phone_word - y1 email_word))).
    - reflexivity.
    - unfold phone_candidates_of, ws. cbn [flat_map].
      rewrite Wn, We, Wp. cbn [text phone_word]. rewrite Found.
      reflexivity. }
  unfold pipeline, extract_contacts_from_words. fold ws.
  change ws with [name_word; email_word; phone_word] at 1.
  cbv iota. rewrite Emails.
  cbn [fold_left contacts_step Py.mem existsb app fst].
  unfold make_contact. rewrite Name, Phone. reflexivity.
Qed.

Lemma spatial_pairing_scenario_witness :
  pipeline [ mkPdfWord "Jane Doe" 72 40 128 55 0;
             mkPdfWord "jane.doe@example.com" 40 60 150 72 0;
             mkPdfWord "212-555-0100" 66 75 130 88 0 ]
           "https://example.com/staff" =
  [ mkContact (Some "Jane Doe") "jane.doe@example.com"
              (Some "+1-212-555-0100") None "pdf" "high"
              (Some "example.com") (Some "business") ].
Proof.
  apply (spatial_pairing_scenario 72 128 40 150 66 130);
    apply Qle_bool_iff; vm_compute; reflexivity.
Defined.

End Scenario.

(* ================================================================== *)
(** ** Addresses: the shape of a located email and its domain *)

Section Addresses.
Import Models PdfExtract Pairing Props MoreProps.

Ltac ascii_cases c :=
  destruct c as [[] [] [] [] [] [] [] []]; vm_compute; try reflexivity;
  try discriminate; auto.

Lemma local_char_lower (c : ascii) :
  local_char c = true -> local_char (Py.lower_char c) = true.
Proof. ascii_cases c. Qed.

Lemma domain_char_lower (c : ascii) :
  domain_char c = true -> domain_char (Py.lower_char c) = true.
Proof. ascii_cases c. Qed.

Lemma is_alpha_lower (c : ascii) :
  Py.is_alpha c = true -> Py.is_alpha (Py.lower_char c) = true.
Proof. ascii_cases c. Qed.

Lemma local_char_not_at (c : ascii) :
  local_char c = true -> Ascii.eqb "@" c = false.
Proof. ascii_cases c. Qed.

Lemma domain_char_not_at (c : ascii) :
  domain_char c = true -> Ascii.eqb "@" c = false.
Proof. ascii_cases c. Qed.

Lemma is_alpha_not_at (c : ascii) :
  Py.is_alpha c = true -> Ascii.eqb "@" c = false.
Proof. ascii_cases c. Qed.

Lemma lower_app (a b : string) :
  Py.lower (a ++ b) = Py.lower a ++ Py.lower b.
Proof. unfold Py.lower. induction a; simpl; congruence. Qed.

Lemma lower_preserves_length (s : string) : length (Py.lower s) = length s.
Proof. unfold Py.lower. induction s; simpl; auto. Qed.

Lemma sall_lower (p : ascii -> bool) (s : string) :
  (forall c, p c = true -> p (Py.lower_char c) = true) ->
  Py.sall p s = true -> Py.sall p (Py.lower s) = true.
Proof.
  intros P. unfold Py.lower. induction s as [|c s IH]; simpl; [reflexivity|].
  intros H. apply andb_true_iff in H as [Hc Hs].
  now rewrite (P _ Hc), IH.
Qed.

Lemma sall_no_at (p : ascii -> bool) (s : string) :
  (forall c, p c = true -> Ascii.eqb "@" c = false) ->
  Py.sall p s = true -> no_at s.
Proof.
  intros P. unfold no_at. induction s as [|c s IH]; cbn [Py.has_char Py.sall Py.split_on append]; [reflexivity|].
  intros H. apply andb_true_iff in H as [Hc Hs].
  now rewrite (P _ Hc), IH.
Qed.

Lemma no_at_app (a b : string) : no_at a -> no_at b -> no_at (a ++ b).
Proof.
  unfold no_at. induction a as [|c a IH]; cbn [Py.has_char Py.sall Py.split_on append]; [auto|].
  intros H Hb. apply orb_false_iff in H as [Hc Ha].
  now rewrite Hc, IH.
Qed.

Lemma has_at_app (a b : string) : Py.has_char "@" (a ++ "@" ++ b) = true.
Proof.
  cbn [append].
  induction a as [|c a IH]; cbn [Py.has_char Py.sall Py.split_on append];
    [reflexivity|].
  rewrite IH. apply orb_true_r.
Qed.

Lemma is_at_sym (c : ascii) : is_at c = Ascii.eqb "@" c.
Proof. unfold is_at. apply Ascii.eqb_sym. Qed.

(** Splitting a string without separator gives the string. *)
Lemma split_no_at (s : string) : no_at s -> Py.split_on is_at s = [s].
Proof.
  unfold no_at. induction s as [|c s IH]; cbn [Py.has_char Py.sall Py.split_on append]; [reflexivity|].
  intros H. apply orb_false_iff in H as [Hc Hs].
  rewrite is_at_sym, Hc, (IH Hs). reflexivity.
Qed.

(** Splitting at the first separator. *)
Lemma split_at_first (a b : string) :
  no_at a -> Py.split_on is_at (a ++ "@" ++ b) = a :: Py.split_on is_at b.
Proof.
  unfold no_at. cbn [append].
  induction a as [|c a IH]; cbn [Py.has_char Py.sall Py.split_on append].
  - intros _. rewrite is_at_sym. reflexivity.
  - intros H. apply orb_false_iff in H as [Hc Ha].
    rewrite is_at_sym, Hc, (IH Ha). reflexivity.
Qed.

Lemma pieces_of_address (local d : string) :
  no_at local -> no_at d ->
  piece 0 (local ++ "@" ++ d) = local /\ piece 1 (local ++ "@" ++ d) = d.
Proof.
  intros Hl Hd. unfold piece.
  rewrite (split_at_first _ _ Hl), (split_no_at _ Hd). split; reflexivity.
Qed.

Lemma single_char (p : ascii -> bool) (x : ascii) (s : string) :
  (forall c, p c = true -> c = x) ->
  Py.sall p s = true -> 1 <= length s -> length s <= 1 ->
  s = String x EmptyString.
Proof.
  intros P H L U. destruct s as [|c [|c' s]]; simpl in *; try lia.
  apply andb_true_iff in H as [Hc _]. now rewrite (P _ Hc).
Qed.

Lemma one_of_single (x c : ascii) :
  one_of (String x EmptyString) c = true -> c = x.
Proof.
  unfold one_of. simpl. rewrite orb_false_r. apply Ascii.eqb_eq.
Qed.

(** A match of the email pattern is an address. *)
Lemma email_match_shape (s : string) (n : nat) :
  Re.match_here EMAIL_PATTERN s = Some n -> email_shape (Py.take n s).
Proof.
  intros H. apply match_here_parses in H as [_ H].
  unfold EMAIL_PATTERN, Re.plus, Re.one, Re.at_least in H.
  apply parses_rep_inv in H as (local & m1 & -> & Al & Ll & _ & H).
  apply parses_rep_inv in H as (at_ & m2 & -> & Aa & La & Ua & H).
  apply parses_rep_inv in H as (dom & m3 & -> & Ad & Ld & _ & H).
  apply parses_rep_inv in H as (dot & m4 & -> & Ao & Lo & Uo & H).
  apply parses_rep_inv in H as (tld & m5 & -> & At & Lt & _ & H).
  inversion H; subst; clear H.
  specialize (Ua _ eq_refl). specialize (Uo _ eq_refl).
  rewrite (single_char _ "@" at_ (one_of_single "@") Aa La Ua).
  rewrite (single_char _ "." dot (one_of_single ".") Ao Lo Uo).
  exists local, dom, tld. rewrite append_nil_r.
  repeat split; auto.
  - intros ->. simpl in Ll. lia.
  - intros ->. simpl in Ld. lia.
Qed.

(** Lower-casing an address keeps it an address, now in lower case. *)
Lemma email_shape_lower (m : string) :
  email_shape m -> email_shape (Py.lower m).
Proof.
  intros (local & dom & tld & -> & Nl & Al & Nd & Ad & Lt & At).
  exists (Py.lower local), (Py.lower dom), (Py.lower tld).
  rewrite !lower_app. repeat split.
  - intros E. apply (f_equal length) in E.
    rewrite lower_preserves_length in E. destruct local; [auto|discriminate].
  - apply sall_lower; [exact local_char_lower | assumption].
  - intros E. apply (f_equal length) in E.
    rewrite lower_preserves_length in E. destruct dom; [auto|discriminate].
  - apply sall_lower; [exact domain_char_lower | assumption].
  - now rewrite lower_preserves_length.
  - apply sall_lower; [exact is_alpha_lower | assumption].
Qed.

(** An address splits at its only [@]. *)
Lemma email_shape_parts (e : string) :
  email_shape e ->
  exists local d,
    e = local ++ "@" ++ d /\ local <> EmptyString /\ d <> EmptyString /\
    no_at local /\ no_at d.
Proof.
  intros (local & dom & tld & -> & Nl & Al & Nd & Ad & Lt & At).
  exists local, (dom ++ "." ++ tld). repeat split; auto.
  - destruct dom; [contradiction | discriminate].
  - apply (sall_no_at _ _ local_char_not_at Al).
  - apply no_at_app; [apply (sall_no_at _ _ domain_char_not_at Ad)|].
    apply (no_at_app "."); [reflexivity|].
    apply (sall_no_at _ _ is_alpha_not_at At).
Qed.

Lemma located_email_shape (w : PdfWord) (e : string) :
  In e (emails_of w) -> email_shape e /\ Py.lower e = e.
Proof.
  unfold emails_of. rewrite in_map_iff. intros (m & <- & Hm).
  split; [|apply lower_idem].
  apply findall_spec in Hm as (s' & n & M & ->).
  apply email_shape_lower, (email_match_shape _ _ M).
Qed.

Lemma find_emails_In (ws : list PdfWord) (e : string) (w : PdfWord) :
  In (e, w) (find_emails_in_words ws) <-> In w ws /\ In e (emails_of w).
Proof.
  unfold find_emails_in_words, emails_of. rewrite in_flat_map. split.
  - intros (w' & Hw & H). apply in_map_iff in H as (m & E & Hm).
    injection E as <- <-. split; [assumption|].
    apply in_map_iff. now exists m.
  - intros (Hw & H). apply in_map_iff in H as (m & <- & Hm).
    exists w. split; [assumption|]. apply in_map_iff. now exists m.
Qed.

(** X1. Every email the locator reports is found in a word of the input
    and is a full address [local@dom.tld] in lower case: a non-empty local
    part, a non-empty domain and a top-level label of at least two
    letters. *)
Theorem located_emails_are_addresses
        (ws : list PdfWord) (e : string) (w : PdfWord) :
  In (e, w) (find_emails_in_words ws) ->
  In w ws /\ email_shape e /\ Py.lower e = e.
Proof.
  intros H. apply find_emails_In in H as [Hw He].
  split; [assumption|]. now apply located_email_shape in He.
Qed.

Lemma located_emails_are_addresses_witness :
  email_shape "ann.lee@acme.org" /\ Py.lower "ann.lee@acme.org" = "ann.lee@acme.org".
Proof.
  apply (located_emails_are_addresses
           [mkPdfWord "<Ann.Lee@Acme.org>," 10 60 90 72 0]
           "ann.lee@acme.org"
           (mkPdfWord "<Ann.Lee@Acme.org>," 10 60 90 72 0)).
  vm_compute. left. reflexivity.
Defined.

Lemma extract_domain_address (local d : string) :
  no_at local -> no_at d ->
  extract_domain (local ++ "@" ++ d) = Some (Py.lower d).
Proof.
  intros Hl Hd. unfold extract_domain.
  rewrite has_at_app. now destruct (pieces_of_address local d Hl Hd) as [_ ->].
Qed.

Lemma classify_some (d : string) :
  d <> EmptyString ->
  classify_domain (Some d) =
  if Py.mem d PERSONAL_DOMAINS then "personal" else "business".
Proof.
  intros N. unfold classify_domain. simpl.
  destruct d; [contradiction | reflexivity].
Qed.

Lemma has_at_false_no_split (s : string) :
  Py.has_char "@" s = false -> extract_domain s = None.
Proof. intros H. unfold extract_domain. now rewrite H. Qed.

(** X2. For an address [local@d] with [d] in ASCII the domain is [d] in
    lower case, and it is classified personal exactly when it is one of
    the listed webmail domains, business otherwise; a string without [@]
    has no domain and is classified personal. *)
Theorem domain_of_address :
  (forall local d,
      no_at local -> no_at d -> d <> EmptyString ->
      Py.sall Py.is_ascii d = true ->
      extract_domain (local ++ "@" ++ d) = Some (Py.lower d) /\
      classify_domain (extract_domain (local ++ "@" ++ d)) =
      if Py.mem (Py.lower d) PERSONAL_DOMAINS then "personal"
      else "business") /\
  (forall s,
      no_at s ->
      extract_domain s = None /\
      classify_domain (extract_domain s) = "personal").
Proof.
  split.
  - intros local d Hl Hd Nd _.
    rewrite (extract_domain_address _ _ Hl Hd). split; [reflexivity|].
    apply classify_some. intros E. apply (f_equal length) in E.
    rewrite lower_preserves_length in E. destruct d; [auto | discriminate].
  - intros s H. rewrite (has_at_false_no_split _ H). split; reflexivity.
Qed.

Lemma domain_of_address_witness :
  classify_domain (extract_domain "Ann.Lee@GMail.com") = "personal" /\
  classify_domain (extract_domain "not an address") = "personal".
Proof.
  destruct domain_of_address as [Haddr Hnone]. split.
  - apply (Haddr "Ann.Lee" "GMail.com");
      [reflexivity | reflexivity | discriminate | reflexivity].
  - apply (Hnone "not an address"). reflexivity.
Defined.

End Addresses.

(* ================================================================== *)
(** ** Accepted names *)

Section AcceptedNames.
Import Models PdfExtract Pairing Props MoreProps.

Ltac ascii_cases c :=
  destruct c as [[] [] [] [] [] [] [] []]; vm_compute; try reflexivity;
  try discriminate; auto.

Lemma name_char_not_digit (c : ascii) :
  name_char c = true -> Py.is_digit c = false.
Proof. ascii_cases c. Qed.

Lemma name_char_not_at (c : ascii) : name_char c = true -> c <> "@"%char.
Proof. ascii_cases c. Qed.

Lemma upper_is_name_char (c : ascii) :
  Py.is_upper c = true -> name_char c = true.
Proof. ascii_cases c. Qed.

Lemma alpha_is_name_char (c : ascii) :
  Py.is_alpha c = true -> name_char c = true.
Proof. ascii_cases c. Qed.

Lemma line_feed_is_name_char (c : ascii) :
  (Py.code c =? 10) = true -> name_char c = true /\ c = "010"%char.
Proof. ascii_cases c. Qed.

Lemma at_eol_cases (s : string) :
  Re.at_eol s = true -> s = EmptyString \/ s = String "010" EmptyString.
Proof.
  destruct s as [|c [|c' s]]; simpl; intros H; try discriminate; auto.
  right. now destruct (line_feed_is_name_char c H) as [_ ->].
Qed.

Lemma sall_has_char (p : ascii -> bool) (s : string) (c : ascii) :
  Py.sall p s = true -> Py.has_char c s = true -> p c = true.
Proof.
  induction s as [|d s IH]; cbn [Py.sall Py.has_char]; [discriminate|].
  intros H Hc. apply andb_true_iff in H as [Hd Hs].
  apply orb_true_iff in Hc as [E|Hc]; [|now apply IH].
  apply Ascii.eqb_eq in E. now subst.
Qed.

Lemma sall_append (p : ascii -> bool) (a b : string) :
  Py.sall p a = true -> Py.sall p b = true -> Py.sall p (a ++ b) = true.
Proof.
  induction a as [|c a IH]; simpl; [auto|]. intros H Hb.
  apply andb_true_iff in H as [-> Ha]. now apply IH.
Qed.

Lemma append_snoc (a : string) (c : ascii) (t : string) :
  (a ++ String c EmptyString) ++ t = a ++ String c t.
Proof. induction a; simpl; congruence. Qed.

(** The text the name pattern matches, and what may follow it. *)
Lemma name_match_shape (s : string) :
  Re.matches NAME_PATTERN s = true ->
  exists u mid l tail,
    s = String u mid ++ String l tail /\
    Py.is_upper u = true /\
    Py.sall name_char mid = true /\ 1 <= length mid <= 48 /\
    Py.is_alpha l = true /\
    (tail = EmptyString \/ tail = String "010" EmptyString).
Proof.
  unfold Re.matches.
  destruct (Re.match_here NAME_PATTERN s) as [n|] eqn:M; [|discriminate].
  intros _. apply match_here_parses in M as [_ H].
  unfold NAME_PATTERN, Re.one in H.
  apply parses_rep_inv in H as (pu & m1 & E1 & Au & Lu & Uu & H).
  apply parses_rep_inv in H as (mid & m2 & -> & Am & Lm & Um & H).
  apply parses_rep_inv in H as (pl & m3 & -> & Al & Ll & Ul & H).
  inversion H as [| |? ? ? Heol Hnil]; subst. inversion Hnil; subst.
  specialize (Uu _ eq_refl). specialize (Um _ eq_refl).
  specialize (Ul _ eq_refl).
  destruct pu as [|u [|? ?]]; simpl in Lu, Uu; try lia.
  destruct pl as [|l [|? ?]]; simpl in Ll, Ul; try lia.
  simpl in Au, Al. rewrite andb_true_r in Au, Al.
  simpl in Heol. apply at_eol_cases in Heol.
  exists u, mid, l, (Py.drop n s). repeat split; auto.
  rewrite <- (take_drop n s) at 1. rewrite E1. simpl. f_equal.
  apply append_snoc.
Qed.

Lemma is_valid_name_no_ui (s : string) :
  is_valid_name s = true ->
  existsb (fun word => Py.contains word (Py.lower s)) ui_words = false.
Proof.
  unfold is_valid_name.
  destruct (negb (Py.truthy s) || (length s <? 2) || (50 <? length s));
    [discriminate|].
  destruct (Py.mem (Py.lower s) BLACKLIST); [discriminate|].
  destruct (existsb _ ui_words); [discriminate | reflexivity].
Qed.

(** Every character of an accepted name is a character of the pattern's
    middle class. *)
Lemma valid_name_chars (s : string) :
  is_valid_name s = true -> Py.sall name_char s = true.
Proof.
  intros V. pose proof (is_valid_name_inv s V) as (_ & _ & _ & M).
  pose proof (name_match_shape s M)
    as (u & mid & l & tail & E & Hu & Hm & _ & Hl & Ht).
  rewrite E. simpl. rewrite (upper_is_name_char _ Hu). simpl.
  apply sall_append; [assumption|]. simpl.
  rewrite (alpha_is_name_char _ Hl). simpl.
  destruct Ht as [->| ->]; reflexivity.
Qed.

Lemma name_chars_no_at (s : string) :
  Py.sall name_char s = true -> no_at s.
Proof.
  intros A. unfold no_at. destruct (Py.has_char "@" s) eqn:H; [|reflexivity].
  pose proof (sall_has_char _ _ _ A H) as C.
  now apply name_char_not_at in C.
Qed.

(** The result of the name search is the text of an accepted span. *)
Lemma find_name_with_accepted (e : PdfWord) (ws : list PdfWord) (sd xt : Q)
      (n : string) :
  find_name_above_email_with e ws sd xt = Some n ->
  exists g,
    (exists l, In g (groups_of l)) /\
    accepted g /\ n = combined_text g /\
    forall c, In c g ->
              In (fst c) ws /\ name_candidate e sd xt (fst c) = true.
Proof.
  unfold find_name_above_email_with.
  set (cands := map (fun word => (word, Qabs (center_y word - y0 e)))
                    (filter (name_candidate e sd xt) ws)).
  destruct cands as [|c0 cs] eqn:Ec; [discriminate|].
  rewrite <- Ec. rewrite found_spans.
  destruct (sort_by snd (spans_of (groups_of (sort_by snd cands))))
    as [|[b d] t] eqn:S; [discriminate|].
  intros H. injection H as <-.
  apply sort_by_head_least in S as [Hb _].
  apply in_spans_of in Hb as (g & Hg & V & -> & _).
  exists g. split; [now exists (sort_by snd cands)|].
  repeat split; auto;
    assert (Hc : In c (sort_by snd cands))
      by (rewrite <- (groups_of_concat (sort_by snd cands));
          apply in_concat; now exists g);
    apply sort_by_In in Hc; unfold cands in Hc;
    apply in_map_iff in Hc as (w & <- & Hw);
    apply filter_In in Hw; simpl; tauto.
Qed.

(** X4. Whatever the search distances, a name returned by the name search
    is accepted by the validator: its lower-cased form is no blacklist
    entry, it contains none of the rejected fragments, and it holds no
    digit and no [@]. *)
Theorem found_name_is_valid (e : PdfWord) (ws : list PdfWord) (sd xt : Q)
        (n : string) :
  find_name_above_email_with e ws sd xt = Some n ->
  is_valid_name n = true /\
  ~ In (Py.lower n) BLACKLIST /\
  (forall word, In word ui_words -> Py.contains word (Py.lower n) = false) /\
  Py.sfilter Py.is_digit n = EmptyString /\
  no_at n.
Proof.
  intros H. apply find_name_with_accepted in H as (g & _ & V & -> & _).
  unfold accepted in V. split; [assumption|].
  pose proof (is_valid_name_inv _ V) as (_ & B & _ & _).
  pose proof (is_valid_name_no_ui _ V) as U.
  pose proof (valid_name_chars _ V) as Ch.
  pose proof (sfilter_none _ _ _ name_char_not_digit Ch) as D.
  pose proof (name_chars_no_at _ Ch) as A.
  repeat split; auto.
  - intros Hin. apply mem_In in Hin. congruence.
  - intros word Hw.
    destruct (Py.contains word (Py.lower (combined_text g))) eqn:C;
      [|reflexivity].
    assert (T : existsb (fun word =>
                           Py.contains word (Py.lower (combined_text g)))
                        ui_words = true).
    { apply existsb_exists. now exists word. }
    congruence.
Qed.

Lemma found_name_is_valid_witness :
  is_valid_name "Jane Doe" = true /\ ~ In (Py.lower "Jane Doe") BLACKLIST.
Proof.
  destruct (found_name_is_valid
              (mkPdfWord "jane.doe@example.com" 40 60 150 72 0)
              [ mkPdfWord "View" 60 20 90 32 0;
                mkPdfWord "Profile" 94 20 140 32 0;
                mkPdfWord "Jane" 60 40 92 52 0;
                mkPdfWord "Doe" 96 40 124 52 0 ]
              30 80 "Jane Doe") as (V & B & _).
  - vm_compute. reflexivity.
  - split; assumption.
Defined.

End AcceptedNames.

(* ================================================================== *)
(** ** More on phones *)

Section MorePhone.
Import Models PdfExtract Pairing Props MoreProps.

Lemma sfilter_sall (p : ascii -> bool) (s : string) :
  Py.sall p (Py.sfilter p s) = true.
Proof.
  induction s as [|c s IH]; simpl; [reflexivity|].
  destruct (p c) eqn:E; simpl; [now rewrite E|assumption].
Qed.

Lemma digits_split (n : nat) (d : string) :
  Py.sall Py.is_digit d = true -> n <= length d ->
  digits_n n (Py.take n d) /\
  Py.sall Py.is_digit (Py.drop n d) = true /\
  length (Py.drop n d) = length d - n.
Proof.
  revert d. induction n as [|n IH]; intros d A L.
  - repeat split; destruct d; simpl; auto; lia.
  - destruct d as [|c d]; simpl in L; [lia|].
    simpl in A. apply andb_true_iff in A as [Hc A].
    destruct (IH d A) as ([L1 A1] & A2 & L2); [lia|].
    repeat split; simpl; auto. now rewrite Hc.
Qed.

(** Ten digits are three, three and four. *)
Lemma ten_digits (d : string) :
  Py.sall Py.is_digit d = true -> length d = 10 ->
  exists a b c,
    digits_n 3 a /\ digits_n 3 b /\ digits_n 4 c /\ d = a ++ b ++ c.
Proof.
  intros A L.
  destruct (digits_split 3 d A) as (Ha & A1 & L1); [lia|].
  destruct (digits_split 3 (Py.drop 3 d) A1) as (Hb & A2 & L2); [lia|].
  exists (Py.take 3 d), (Py.take 3 (Py.drop 3 d)), (Py.drop 3 (Py.drop 3 d)).
  repeat split; try apply Ha; try apply Hb; auto; try lia.
  now rewrite !take_drop.
Qed.

Lemma normalize_eleven_digits (raw a b c : string) :
  digits_n 3 a -> digits_n 3 b -> digits_n 4 c ->
  Py.sfilter Py.is_digit raw = "1" ++ a ++ b ++ c ->
  normalize_phone raw = "+1-" ++ a ++ "-" ++ b ++ "-" ++ c.
Proof.
  intros [La _] [Lb _] [Lc _] E. unfold normalize_phone. rewrite E.
  destruct a as [|a1 [|a2 [|a3 [|]]]]; try discriminate La.
  destruct b as [|b1 [|b2 [|b3 [|]]]]; try discriminate Lb.
  destruct c as [|c1 [|c2 [|c3 [|c4 [|]]]]]; try discriminate Lc.
  reflexivity.
Qed.

Lemma canonical_digits (a b c : string) :
  digits_n 3 a -> digits_n 3 b -> digits_n 4 c ->
  Py.sfilter Py.is_digit ("+1-" ++ a ++ "-" ++ b ++ "-" ++ c)
  = "1" ++ a ++ b ++ c.
Proof.
  intros [_ Aa] [_ Ab] [_ Ac]. rewrite !sfilter_app.
  rewrite (sfilter_all _ _ Aa), (sfilter_all _ _ Ab), (sfilter_all _ _ Ac).
  reflexivity.
Qed.

(** The canonical form is left as it is. *)
Lemma canonical_fixed (a b c : string) :
  digits_n 3 a -> digits_n 3 b -> digits_n 4 c ->
  normalize_phone ("+1-" ++ a ++ "-" ++ b ++ "-" ++ c)
  = "+1-" ++ a ++ "-" ++ b ++ "-" ++ c.
Proof.
  intros Ha Hb Hc.
  apply normalize_eleven_digits; auto. now apply canonical_digits.
Qed.

(** X5. Normalising twice is normalising once, and normalising keeps the
    digits of the raw match, at most putting the country code 1 in
    front. *)
Theorem normalize_phone_idempotent (raw : string) :
  normalize_phone (normalize_phone raw) = normalize_phone raw /\
  (Py.sfilter Py.is_digit (normalize_phone raw)
   = Py.sfilter Py.is_digit raw \/
   Py.sfilter Py.is_digit (normalize_phone raw)
   = "1" ++ Py.sfilter Py.is_digit raw).
Proof.
  pose proof (sfilter_sall Py.is_digit raw) as A.
  destruct (Nat.eq_dec (length (Py.sfilter Py.is_digit raw)) 10) as [L|L].
  - destruct (ten_digits _ A L) as (a & b & c & Ha & Hb & Hc & E).
    rewrite (normalize_ten_digits raw a b c Ha Hb Hc E).
    split; [now apply canonical_fixed|].
    right. rewrite E. now apply canonical_digits.
  - destruct (Nat.eq_dec (length (Py.sfilter Py.is_digit raw)) 11) as [L'|L'].
    + destruct (String.eqb_spec (Py.slice 0 1 (Py.sfilter Py.is_digit raw))
                                "1") as [One|One].
      * destruct (Py.sfilter Py.is_digit raw) as [|d0 d] eqn:D;
          [discriminate|].
        unfold Py.slice in One. simpl in One. injection One as ->.
        simpl in A, L'.
        destruct (ten_digits d A) as (a & b & c & Ha & Hb & Hc & ->); [lia|].
        rewrite (normalize_eleven_digits raw a b c Ha Hb Hc D).
        split; [now apply canonical_fixed|].
        left. now apply canonical_digits.
      * assert (E : normalize_phone raw = raw).
        { unfold normalize_phone.
          apply Nat.eqb_neq in L. rewrite L.
          apply String.eqb_neq in One. rewrite One, andb_false_r.
          reflexivity. }
        rewrite !E. auto.
    + assert (E : normalize_phone raw = raw).
      { unfold normalize_phone.
        apply Nat.eqb_neq in L, L'. now rewrite L, L'. }
      rewrite !E. auto.
Qed.

End MorePhone.

(* ================================================================== *)
(** ** More on the extraction and the pipeline *)

Section MoreExtraction.
Import Models PdfExtract Pairing Props MoreProps.

Lemma contacts_step_inv (ws : list PdfWord)
      (st : list PdfContact * list string) (p : string * PdfWord) :
  loop_inv st -> loop_inv (contacts_step ws st p).
Proof.
  destruct st as [cs seen], p as [e w]. intros [Iseen Ind]. simpl in *.
  destruct (Py.mem e seen) eqn:M; [now split|].
  assert (Nseen : ~ In e seen).
  { intros H. apply mem_In in H. congruence. }
  split; simpl.
  - intros e'. rewrite map_app, in_app_iff. simpl. rewrite <- Iseen. tauto.
  - rewrite map_app. simpl.
    apply NoDup_app; [assumption | repeat constructor; auto |].
    intros x Hx [<-|[]]. apply Nseen. now apply Iseen.
Qed.

Lemma contacts_step_emails (ws : list PdfWord)
      (st : list PdfContact * list string) (p : string * PdfWord) (e : string) :
  loop_inv st ->
  (In e (map pc_email (fst (contacts_step ws st p))) <->
   In e (map pc_email (fst st)) \/ e = fst p).
Proof.
  destruct st as [cs seen], p as [e0 w]. intros [Iseen _]. simpl in *.
  destruct (Py.mem e0 seen) eqn:M; simpl.
  - apply mem_In, Iseen in M. split; [auto|]. intros [H| ->]; assumption.
  - rewrite map_app, in_app_iff. simpl. intuition congruence.
Qed.

Lemma contacts_loop_emails (ws : list PdfWord)
      (emails : list (string * PdfWord)) :
  forall st e,
    loop_inv st ->
    (In e (map pc_email (fst (fold_left (contacts_step ws) emails st))) <->
     In e (map pc_email (fst st)) \/ In e (map fst emails)).
Proof.
  induction emails as [|p rest IH]; intros st e Inv; simpl.
  - tauto.
  - rewrite (IH _ e (contacts_step_inv ws st p Inv)).
    rewrite (contacts_step_emails ws st p e Inv). intuition congruence.
Qed.

Lemma contacts_loop_length (ws : list PdfWord)
      (emails : list (string * PdfWord)) :
  forall st,
    List.length (fst (fold_left (contacts_step ws) emails st))
    <= List.length (fst st) + List.length emails.
Proof.
  induction emails as [|[e w] rest IH]; intros [cs seen]; simpl; [lia|].
  destruct (Py.mem e seen).
  - specialize (IH (cs, seen)). simpl in IH. lia.
  - specialize (IH ((cs ++ [make_contact ws e w])%list, e :: seen)).
    simpl in IH. rewrite length_app in IH. simpl in IH. lia.
Qed.

Lemma extract_unfold (ws : list PdfWord) :
  extract_contacts_from_words ws =
  fst (fold_left (contacts_step ws) (find_emails_in_words ws) ([], [])).
Proof.
  unfold extract_contacts_from_words. destruct ws as [|w ws]; [reflexivity|].
  now destruct (find_emails_in_words (w :: ws)).
Qed.



(** X7. Every email the locator finds gets a contact, and no other email
    does; there are no more contacts than located emails; and each
    contact is anchored at the center and the page of a word of the input
    that holds its email, with the name and phone searched from that
    word. *)
Theorem extraction_complete (ws : list PdfWord) :
  (forall e,
      In e (map pc_email (extract_contacts_from_words ws)) <->
      exists w, In w ws /\ In e (emails_of w)) /\
  List.length (extract_contacts_from_words ws)
  <= List.length (find_emails_in_words ws) /\
  (forall c,
      In c (extract_contacts_from_words ws) ->
      exists w,
        In w ws /\ In (pc_email c) (emails_of w) /\
        pc_email_coords c
        = mkCoords (center_x w) (center_y w) (page_num w) /\
        pc_page_num c = page_num w /\
        pc_name c = find_name_above_email w ws /\
        pc_phone c = find_phone_below_email w ws).
Proof.
  assert (Inv0 : loop_inv (@nil PdfContact, @nil string)).
  { split; simpl; [tauto | constructor]. }
  split; [|split].
  - intros e. rewrite extract_unfold.
    rewrite (contacts_loop_emails ws _ _ e Inv0). simpl. split.
    + intros [[]|H]. apply in_map_iff in H as ([e' w] & <- & H).
      apply find_emails_In in H. now exists w.
    + intros (w & Hw & He). right. apply in_map_iff. exists (e, w).
      split; [reflexivity|]. now apply find_emails_In.
  - rewrite extract_unfold.
    apply (contacts_loop_length ws (find_emails_in_words ws) ([], [])).
  - intros c Hin.
    destruct (proj2 (extract_contacts_spec ws) c Hin)
      as (before & w & after & Hws & He & _ & C).
    exists w. split; [rewrite Hws; apply in_elt|]. split; [assumption|].
    rewrite C. simpl. repeat split; reflexivity.
Qed.

Lemma extraction_complete_witness :
  In "ann.lee@acme.org"
     (map pc_email
          (extract_contacts_from_words
             [ mkPdfWord "Contact:" 10 60 60 72 0;
               mkPdfWord "Ann.Lee@Acme.org" 70 60 190 72 0 ])).
Proof.
  apply (proj1 (extraction_complete _)).
  exists (mkPdfWord "Ann.Lee@Acme.org" 70 60 190 72 0). split.
  - simpl. right. left. reflexivity.
  - vm_compute. left. reflexivity.
Defined.

Lemma append_inj_length (a a' b b' : string) :
  length a = length a' -> a ++ b = a' ++ b' -> a = a' /\ b = b'.
Proof.
  revert a'. induction a as [|c a IH]; intros [|c' a'] L E;
    simpl in *; try discriminate; [auto|].
  injection E as -> E. destruct (IH a') as [-> ->]; auto.
Qed.

(** An address in lower case has a lower-case domain. *)
Lemma lower_address_parts (e : string) :
  email_shape e -> Py.lower e = e ->
  exists local d,
    e = local ++ "@" ++ d /\ local <> EmptyString /\ d <> EmptyString /\
    no_at local /\ no_at d /\ Py.lower d = d.
Proof.
  intros S L. destruct (email_shape_parts e S) as (local & d & E & H).
  exists local, d. split; [assumption|].
  repeat split; try apply H.
  rewrite E, lower_app in L.
  apply append_inj_length in L as [_ L];
    [|apply lower_preserves_length].
  rewrite lower_app in L. simpl in L. now injection L.
Qed.

(** The email of an extracted contact is a lower-case address. *)
Lemma extracted_email_parts (ws : list PdfWord) (pc : PdfContact) :
  In pc (extract_contacts_from_words ws) ->
  exists local d,
    pc_email pc = local ++ "@" ++ d /\
    local <> EmptyString /\ d <> EmptyString /\ no_at local /\ no_at d /\
    Py.lower d = d.
Proof.
  intros Hin.
  destruct (proj2 (extract_contacts_spec ws) pc Hin)
    as (_ & w & _ & _ & He & _ & _).
  apply located_email_shape in He as [S L].
  apply (lower_address_parts _ S L).
Qed.

(** The domain and the domain type the pairing gives to an address. *)
Lemma process_one_domain (pc : PdfContact) (local d : string) :
  pc_email pc = local ++ "@" ++ d ->
  no_at local -> no_at d -> d <> EmptyString -> Py.lower d = d ->
  domain (process_one pc) = Some d /\
  domainType (process_one pc)
  = Some (if Py.mem d PERSONAL_DOMAINS then "personal" else "business").
Proof.
  intros E Al Ad Nd Ld.
  change (domain (process_one pc)) with (extract_domain (pc_email pc)).
  change (domainType (process_one pc))
    with (Some (classify_domain (extract_domain (pc_email pc)))).
  rewrite E, (extract_domain_address _ _ Al Ad), Ld.
  split; [reflexivity|]. now rewrite (classify_some d Nd).
Qed.

(** X8. Every contact of the pipeline has an email [local@d] with both
    parts non-empty and a single [@]; its domain is [d], and its domain
    type is personal when [d] is a listed webmail domain and business
    otherwise. *)
Theorem pipeline_contact_domain (ws : list PdfWord) (url : string)
        (c : Contact) :
  In c (pipeline ws url) ->
  exists local d,
    email c = local ++ "@" ++ d /\
    local <> EmptyString /\ d <> EmptyString /\ no_at local /\ no_at d /\
    domain c = Some d /\
    domainType c
    = Some (if Py.mem d PERSONAL_DOMAINS then "personal" else "business").
Proof.
  intros Hin. unfold pipeline, process_pdf_contacts in Hin.
  apply in_map_iff in Hin as (pc & <- & Hin).
  destruct (extracted_email_parts ws pc Hin)
    as (local & d & E & Nl & Nd & Al & Ad & Ld).
  destruct (process_one_domain pc local d E Al Ad Nd Ld) as [D T].
  exists local, d.
  change (email (process_one pc)) with (pc_email pc).
  repeat split; auto.
Qed.

Lemma pipeline_contact_domain_witness :
  exists local d,
    "ann.lee@gmail.com" = local ++ "@" ++ d /\
    local <> EmptyString /\ d <> EmptyString /\ no_at local /\ no_at d /\
    Some "gmail.com" = Some d /\
    Some "personal"
    = Some (if Py.mem d PERSONAL_DOMAINS then "personal" else "business").
Proof.
  apply (pipeline_contact_domain
           [mkPdfWord "Ann.Lee@GMail.com" 70 60 190 72 0] "https://acme.org"
           (mkContact (Some "Ann Lee") "ann.lee@gmail.com" None None "pdf"
                      "medium" (Some "gmail.com") (Some "personal"))).
  vm_compute. left. reflexivity.
Defined.

End MoreExtraction.

(* ================================================================== *)
(** ** More on pairing, the contact properties and the summary *)

Section MorePairing.
Import Models PdfExtract Pairing Props MoreProps.

Lemma join_nonempty (sep : string) (xs : list string) :
  xs <> [] -> (forall x, In x xs -> x <> EmptyString) ->
  Py.join sep xs <> EmptyString.
Proof.
  destruct xs as [|x [|y rest]]; intros N H; [contradiction| |].
  - simpl. apply H. now left.
  - assert (Hx : x <> EmptyString) by (apply H; now left).
    cbn [Py.join]. destruct x; [contradiction | discriminate].
Qed.

Lemma name_part_nonempty (part x : string) :
  In x (name_part part) -> x <> EmptyString.
Proof.
  unfold name_part. destruct part as [|c s]; simpl; [contradiction|].
  destruct (Py.isdigit (String c s)); [contradiction|].
  destruct ((length s =? 0) && Py.isalpha (String c s));
    intros [<-|[]]; discriminate.
Qed.

Lemma derive_nonempty (e : string) : derive_name_from_email e <> EmptyString.
Proof.
  unfold derive_name_from_email.
  destruct (negb (Py.has_char "@" e)); [discriminate|].
  destruct (Py.mem (Py.lower (piece 0 e)) GENERIC_PREFIXES); [discriminate|].
  destruct (flat_map name_part (Py.split_on name_sep (Py.lower (piece 0 e))))
    as [|x xs] eqn:F; [discriminate|].
  apply join_nonempty; [discriminate|].
  intros y Hy. rewrite <- F in Hy. apply in_flat_map in Hy as (part & _ & Hy).
  now apply name_part_nonempty in Hy.
Qed.

(** The name of a contact of the pairing is absent, or a non-empty string
    other than the placeholder. *)
Lemma process_one_name_cases (pc : PdfContact) :
  name (process_one pc) = None \/
  exists n, name (process_one pc) = Some n /\
            n <> EmptyString /\ n <> "Unknown".
Proof.
  rewrite process_one_name.
  destruct (truthy_opt (pc_name pc)) eqn:T.
  - destruct (pc_name pc) as [n|]; [|discriminate T]. simpl in T.
    destruct (String.eqb_spec n "Unknown"); [now left | right].
    exists n. repeat split; auto. intros ->. discriminate.
  - destruct (String.eqb_spec (derive_name_from_email (pc_email pc))
                              "Unknown"); [now left | right].
    eexists. repeat split; eauto. apply derive_nonempty.
Qed.

Lemma process_one_has_name (pc : PdfContact) :
  Pairing.has_name (process_one pc)
  = ContactMethods.has_name (process_one pc) /\
  (ContactMethods.has_name (process_one pc) = true <->
   name (process_one pc) <> None).
Proof.
  unfold Pairing.has_name, ContactMethods.has_name.
  destruct (process_one_name_cases pc) as [->|(n & -> & Hn & Hu)]; simpl.
  - split; [reflexivity|]. split; [discriminate | congruence].
  - destruct n; [contradiction|].
    destruct (String.eqb_spec (String a n) "Unknown"); [contradiction|].
    split; [reflexivity|]. split; [discriminate | reflexivity].
Qed.

(** X9. The name derived from an email is never empty; so the name of a
    contact of the pairing is absent or a non-empty string that is not the
    placeholder, and a contact has a name exactly when its name is
    present. *)
Theorem pairing_names :
  (forall e, derive_name_from_email e <> EmptyString) /\
  (forall pcs url c,
      In c (process_pdf_contacts pcs url) ->
      (name c = None \/
       exists n, name c = Some n /\ n <> EmptyString /\ n <> "Unknown") /\
      (ContactMethods.has_name c = true <-> name c <> None)).
Proof.
  split; [exact derive_nonempty|].
  intros pcs url c H. unfold process_pdf_contacts in H.
  apply in_map_iff in H as (pc & <- & _).
  split; [apply process_one_name_cases | apply process_one_has_name].
Qed.

Lemma pairing_names_witness :
  ContactMethods.has_name
    (process_one (mkPdfContact "j.doe_99@acme.org" (Some "") None
                               (mkCoords 0 0 0) 0)) = true.
Proof.
  destruct pairing_names as [_ H].
  apply (H [mkPdfContact "j.doe_99@acme.org" (Some "") None
                         (mkCoords 0 0 0) 0] "").
  - simpl. left. reflexivity.
  - vm_compute. discriminate.
Defined.

Lemma classify_cases (d : option string) :
  classify_domain d = "business" \/ classify_domain d = "personal".
Proof.
  unfold classify_domain. destruct (negb (truthy_opt d)); [now right|].
  destruct d as [d|]; [|now right].
  destruct (Py.mem d PERSONAL_DOMAINS); auto.
Qed.

(** X10. The pairing keeps the order, the emails and the phones of its
    input and ignores the page URL; every contact it builds has the source
    "pdf", no profile URL, the domain of its email, a domain type that is
    business or personal (personal when there is no domain) and a
    confidence that is high, medium or low. *)
Theorem process_pdf_contacts_invariants
        (pcs : list PdfContact) (url : string) :
  map email (process_pdf_contacts pcs url) = map pc_email pcs /\
  map phone (process_pdf_contacts pcs url) = map pc_phone pcs /\
  (forall url', process_pdf_contacts pcs url' = process_pdf_contacts pcs url) /\
  (forall c,
      In c (process_pdf_contacts pcs url) ->
      source c = "pdf" /\ profileUrl c = None /\
      domain c = extract_domain (email c) /\
      (domainType c = Some "business" \/ domainType c = Some "personal") /\
      (domain c = None -> domainType c = Some "personal") /\
      (confidence c = "high" \/ confidence c = "medium" \/
       confidence c = "low")).
Proof.
  unfold process_pdf_contacts. rewrite !map_map.
  split; [reflexivity|]. split; [reflexivity|]. split; [reflexivity|].
  intros c H. apply in_map_iff in H as (pc & <- & _).
  split; [reflexivity|]. split; [reflexivity|]. split; [reflexivity|].
  change (domainType (process_one pc))
    with (Some (classify_domain (extract_domain (pc_email pc)))).
  change (domain (process_one pc)) with (extract_domain (pc_email pc)).
  split; [|split].
  - destruct (classify_cases (extract_domain (pc_email pc))) as [-> | ->];
      auto.
  - intros ->. reflexivity.
  - rewrite process_one_confidence, calculate_confidence_table.
    destruct (Pairing.has_name (process_one pc)), (has_email (process_one pc)),
      (has_phone (process_one pc)); auto.
Qed.

Lemma process_pdf_contacts_invariants_witness :
  source (process_one (mkPdfContact "no-at-sign" None None
                                    (mkCoords 0 0 0) 0)) = "pdf" /\
  domainType (process_one (mkPdfContact "no-at-sign" None None
                                        (mkCoords 0 0 0) 0))
  = Some "personal".
Proof.
  destruct (process_pdf_contacts_invariants
              [mkPdfContact "no-at-sign" None None (mkCoords 0 0 0) 0] "")
    as (_ & _ & _ & H).
  destruct (H (process_one (mkPdfContact "no-at-sign" None None
                                         (mkCoords 0 0 0) 0)))
    as (S & _ & _ & _ & P & _).
  - simpl. left. reflexivity.
  - split; [exact S | apply P; reflexivity].
Defined.

Lemma high_iff (c : Contact) :
  calculate_confidence c = "high" <->
  Pairing.has_name c && has_email c && has_phone c = true.
Proof.
  rewrite calculate_confidence_table.
  destruct (Pairing.has_name c), (has_email c), (has_phone c); simpl;
    split; intros; try reflexivity; discriminate.
Qed.

Lemma process_one_complete (pc : PdfContact) :
  ContactMethods.is_complete (process_one pc) = true <->
  confidence (process_one pc) = "high".
Proof.
  rewrite process_one_confidence, high_iff.
  destruct (process_one_has_name pc) as [-> _]. reflexivity.
Qed.

Lemma complete_of_pairing (pcs : list PdfContact) (url : string)
      (c : Contact) :
  In c (process_pdf_contacts pcs url) ->
  (ContactMethods.is_complete c = true <-> confidence c = "high").
Proof.
  unfold process_pdf_contacts. rewrite in_map_iff.
  intros (pc & <- & _). apply process_one_complete.
Qed.

(** X11. For the contacts of the pairing, a contact is complete exactly
    when its confidence is high. *)
Theorem complete_iff_high (pcs : list PdfContact) (url : string) (c : Contact) :
  In c (process_pdf_contacts pcs url) ->
  (ContactMethods.is_complete c = true <-> confidence c = "high").
Proof.
  intros H. unfold process_pdf_contacts in H.
  apply in_map_iff in H as (pc & <- & _). apply process_one_complete.
Qed.

Lemma complete_iff_high_witness :
  ContactMethods.is_complete
    (process_one (mkPdfContact "info@acme.org" (Some "Unknown")
                               (Some "+1-212-555-0100") (mkCoords 0 0 0) 0))
  = true <->
  confidence
    (process_one (mkPdfContact "info@acme.org" (Some "Unknown")
                               (Some "+1-212-555-0100") (mkCoords 0 0 0) 0))
  = "high".
Proof.
  apply (complete_iff_high
           [mkPdfContact "info@acme.org" (Some "Unknown")
                         (Some "+1-212-555-0100") (mkCoords 0 0 0) 0] "").
  simpl. left. reflexivity.
Defined.

Lemma count_if_le_length (p : Contact -> bool) (l : list Contact) :
  Cli.count_if p l <= List.length l.
Proof. apply filter_length_le. Qed.

Lemma count_if_mono (p q : Contact -> bool) (l : list Contact) :
  (forall c, In c l -> p c = true -> q c = true) ->
  Cli.count_if p l <= Cli.count_if q l.
Proof.
  unfold Cli.count_if. induction l as [|c l IH]; intros H; simpl; [lia|].
  assert (IH' : List.length (filter p l) <= List.length (filter q l)).
  { apply IH. intros c' Hc'. apply H. now right. }
  destruct (p c) eqn:P.
  - rewrite (H c (or_introl eq_refl) P). simpl. lia.
  - destruct (q c); simpl; lia.
Qed.

Lemma count_if_ext (p q : Contact -> bool) (l : list Contact) :
  (forall c, In c l -> p c = q c) -> Cli.count_if p l = Cli.count_if q l.
Proof.
  intros H. apply Nat.le_antisymm; apply count_if_mono; intros c Hc;
    rewrite (H c Hc); auto.
Qed.

(** X12. In the summary the complete contacts are at most the named ones
    and at most the ones with a phone, and no count exceeds the total; for
    the contacts of the pairing the complete ones are those of high
    confidence. *)
Theorem summary_counts (contacts : list Contact) :
  let s := Cli.print_summary_counts contacts in
  Cli.complete s <= Cli.with_names s /\
  Cli.complete s <= Cli.with_phones s /\
  Cli.with_names s <= Cli.total s /\
  Cli.with_phones s <= Cli.total s /\
  Cli.business s <= Cli.total s /\
  (forall pcs url,
      contacts = process_pdf_contacts pcs url ->
      Cli.complete s
      = Cli.count_if (fun c => String.eqb (confidence c) "high") contacts).
Proof.
  simpl. repeat split; try apply count_if_le_length.
  - apply count_if_mono. intros c _. unfold ContactMethods.is_complete.
    rewrite !andb_true_iff. tauto.
  - apply count_if_mono. intros c _. unfold ContactMethods.is_complete.
    rewrite !andb_true_iff. tauto.
  - intros pcs url ->. apply count_if_ext. intros c Hc.
    pose proof (complete_of_pairing pcs url c Hc) as H.
    destruct (ContactMethods.is_complete c),
      (String.eqb_spec (confidence c) "high") as [E|N];
      try reflexivity.
    + elim N. now apply H.
    + destruct H as [_ H]. now specialize (H E).
Qed.

Lemma summary_counts_witness :
  Cli.complete
    (Cli.print_summary_counts
       (process_pdf_contacts
          [ mkPdfContact "jane.doe@acme.org" (Some "Jane Doe")
                         (Some "+1-212-555-0100") (mkCoords 0 0 0) 0;
            mkPdfContact "info@acme.org" None None (mkCoords 0 0 0) 0 ]
          "https://acme.org")) = 1.
Proof.
  set (pcs := [ mkPdfContact "jane.doe@acme.org" (Some "Jane Doe")
                             (Some "+1-212-555-0100") (mkCoords 0 0 0) 0;
                mkPdfContact "info@acme.org" None None (mkCoords 0 0 0) 0 ]).
  pose proof (summary_counts (process_pdf_contacts pcs "https://acme.org"))
    as H.
  cbv zeta in H. destruct H as (_ & _ & _ & _ & _ & H).
  rewrite (H pcs "https://acme.org" eq_refl). reflexivity.
Defined.

(** X13. Without a limit, or with the limit 0, every extracted contact is
    paired; a positive limit keeps the first contacts up to the limit, in
    order; a negative limit drops that many contacts from the end. *)
Theorem limit_keeps_prefix (pcs : list PdfContact) (url : string) :
  Cli.main_contacts None pcs url = process_pdf_contacts pcs url /\
  Cli.main_contacts (Some 0%Z) pcs url = process_pdf_contacts pcs url /\
  (forall n,
      (0 < n)%Z ->
      Cli.main_contacts (Some n) pcs url
      = firstn (Z.to_nat n) (process_pdf_contacts pcs url) /\
      List.length (Cli.main_contacts (Some n) pcs url) <= Z.to_nat n) /\
  (forall n,
      (n < 0)%Z ->
      Cli.main_contacts (Some n) pcs url
      = firstn (List.length pcs - Z.to_nat (- n))
               (process_pdf_contacts pcs url)).
Proof.
  unfold Cli.main_contacts, Cli.apply_limit, process_pdf_contacts.
  split; [reflexivity|]. split; [reflexivity|]. split.
  - intros n Hn.
    assert (E : map process_one
                    (if negb (n =? 0)%Z && (n <? Z.of_nat (List.length pcs))%Z
                     then Cli.slice_to n pcs else pcs)
                = firstn (Z.to_nat n) (map process_one pcs)).
    { rewrite firstn_map. f_equal.
      destruct (Z.ltb_spec n (Z.of_nat (List.length pcs))) as [L|L].
      - replace (n =? 0)%Z with false by (symmetry; apply Z.eqb_neq; lia).
        simpl. unfold Cli.slice_to.
        now replace (0 <=? n)%Z with true by (symmetry; apply Z.leb_le; lia).
      - rewrite andb_false_r. symmetry. apply firstn_all2. lia. }
    rewrite E. split; [reflexivity | apply firstn_le_length].
  - intros n Hn. rewrite firstn_map. f_equal.
    replace (n =? 0)%Z with false by (symmetry; apply Z.eqb_neq; lia).
    replace (n <? Z.of_nat (List.length pcs))%Z with true
      by (symmetry; apply Z.ltb_lt; lia).
    simpl. unfold Cli.slice_to.
    now replace (0 <=? n)%Z with false by (symmetry; apply Z.leb_gt; lia).
Qed.

Lemma limit_keeps_prefix_witness :
  map email
      (Cli.main_contacts
         (Some 1%Z)
         [ mkPdfContact "a@acme.org" None None (mkCoords 0 0 0) 0;
           mkPdfContact "b@acme.org" None None (mkCoords 0 0 0) 0 ] "")
  = ["a@acme.org"] /\
  map email
      (Cli.main_contacts
         (Some (-1)%Z)
         [ mkPdfContact "a@acme.org" None None (mkCoords 0 0 0) 0;
           mkPdfContact "b@acme.org" None None (mkCoords 0 0 0) 0 ] "")
  = ["a@acme.org"].
Proof.
  destruct (limit_keeps_prefix
              [ mkPdfContact "a@acme.org" None None (mkCoords 0 0 0) 0;
                mkPdfContact "b@acme.org" None None (mkCoords 0 0 0) 0 ] "")
    as (_ & _ & Hpos & Hneg).
  split.
  - destruct (Hpos 1%Z) as [-> _]; [lia | reflexivity].
  - rewrite (Hneg (-1)%Z); [reflexivity | lia].
Defined.

End MorePairing.

(* ================================================================== *)
(** ** The validation of the test script *)

Section Validation.
Import Models PdfExtract Pairing Props MoreProps TestScraper.

Ltac split_checks :=
  unfold check_contact; rewrite !in_app_iff;
  repeat match goal with
         | |- context [match ?o with Some _ => _ | None => _ end] =>
             destruct o
         | |- context [if ?b then _ else _] => destruct b eqn:?
         end;
  simpl; rewrite ?in_app_iff; simpl.

Lemma in_check_duplicate (k : nat) (seen : list string) (c : Contact)
      (i : nat) (e : string) :
  In (Duplicate_email i e) (check_contact k seen c) <->
  i = k /\ e = email c /\ In (email c) seen.
Proof.
  rewrite <- mem_In. split_checks;
    intuition (try discriminate; try congruence).
Qed.

Lemma in_check_invalid (k : nat) (seen : list string) (c : Contact)
      (i : nat) (e : string) :
  In (Invalid_email_format i e) (check_contact k seen c) <->
  i = k /\ e = email c /\ Py.has_char "@" (email c) = false.
Proof.
  rewrite <- negb_true_iff. split_checks;
    intuition (try discriminate; try congruence).
Qed.

Lemma no_duplicate_issue_iff (cs : list Contact) :
  forall k seen,
    (forall i e, ~ In (Duplicate_email i e) (issues_from k seen cs)) <->
    NoDup (map email cs) /\ forall c, In c cs -> ~ In (email c) seen.
Proof.
  induction cs as [|c cs IH]; intros k seen; simpl.
  - split; [intros _; split; [constructor | tauto] | tauto].
  - split.
    + intros H.
      assert (Hc : ~ In (email c) seen).
      { intros Hin. apply (H k (email c)), in_app_iff. left.
        apply in_check_duplicate. auto. }
      assert (Hr : forall i e,
                 ~ In (Duplicate_email i e)
                      (issues_from (S k) (email c :: seen) cs)).
      { intros i e Hin. apply (H i e), in_app_iff. now right. }
      apply IH in Hr as [Nd Hs]. split.
      * constructor; [|assumption]. intros Hin.
        apply in_map_iff in Hin as (c' & E & Hc').
        apply (Hs c' Hc'). left. now symmetry.
      * intros c' [<-|Hc']; [assumption|].
        intros Hin. apply (Hs c' Hc'). now right.
    + intros [Nd Hs] i e Hin. inversion Nd as [|? ? Nc Nd']; subst.
      apply in_app_iff in Hin as [Hin|Hin].
      * apply in_check_duplicate in Hin as (_ & _ & Hin).
        apply (Hs c); auto.
      * revert Hin. apply (proj2 (IH (S k) (email c :: seen))).
        split; [assumption|].
        intros c' Hc' [E|Hin]; [|apply (Hs c'); auto].
        apply Nc. rewrite E. now apply in_map.
Qed.

Lemma no_invalid_issue_iff (cs : list Contact) :
  forall k seen,
    (forall i e, ~ In (Invalid_email_format i e) (issues_from k seen cs)) <->
    forall c, In c cs -> Py.has_char "@" (email c) = true.
Proof.
  induction cs as [|c cs IH]; intros k seen; simpl.
  - tauto.
  - split.
    + intros H c' [<-|Hc'].
      * destruct (Py.has_char "@" (email c)) eqn:A; [reflexivity|].
        exfalso. apply (H k (email c)), in_app_iff. left.
        apply in_check_invalid. auto.
      * revert c' Hc'. apply (IH (S k) (email c :: seen)).
        intros i e Hin. apply (H i e), in_app_iff. now right.
    + intros H i e Hin. apply in_app_iff in Hin as [Hin|Hin].
      * apply in_check_invalid in Hin as (_ & _ & Hin).
        rewrite (H c) in Hin; auto. discriminate.
      * revert Hin. apply (proj2 (IH (S k) (email c :: seen))). auto.
Qed.

Lemma passed_iff (cs : list Contact) :
  passed (validate_contacts cs) = true <-> issues_from 1 [] cs = [].
Proof.
  unfold validate_contacts. simpl. rewrite Nat.eqb_eq.
  apply length_zero_iff_nil.
Qed.

(** X14. The validation reports a duplicate email exactly when two
    contacts of the list share an email, and an invalid format exactly
    when some email has no [@]; so a list that passes has pairwise
    distinct emails that all contain [@], and it reports as many issue
    texts as it found issues. *)
Theorem validation_of_emails (contacts : list Contact) :
  ((forall i e, ~ In (Duplicate_email i e) (issues_from 1 [] contacts)) <->
   NoDup (map email contacts)) /\
  ((forall i e, ~ In (Invalid_email_format i e) (issues_from 1 [] contacts))
   <-> forall c, In c contacts -> Py.has_char "@" (email c) = true) /\
  (passed (validate_contacts contacts) = true ->
   NoDup (map email contacts) /\
   forall c, In c contacts -> Py.has_char "@" (email c) = true) /\
  (passed (validate_contacts contacts) = true <->
   issues (validate_contacts contacts) = []).
Proof.
  split; [|split; [|split]].
  - rewrite (no_duplicate_issue_iff contacts 1 []). simpl. tauto.
  - apply no_invalid_issue_iff.
  - intros P. apply passed_iff in P. split.
    + apply (no_duplicate_issue_iff contacts 1 []). rewrite P. auto.
    + apply (no_invalid_issue_iff contacts 1 []). rewrite P. auto.
  - rewrite passed_iff. unfold validate_contacts. simpl. split.
    + intros ->. reflexivity.
    + intros E. now apply map_eq_nil in E.
Qed.

Lemma validation_of_emails_witness :
  NoDup (map email
             [ mkContact (Some "Jane Doe") "jane.doe@acme.org" None None
                         "pdf" "medium" (Some "acme.org") (Some "business");
               mkContact None "info@acme.org" None None "pdf" "low"
                         (Some "acme.org") (Some "business") ]).
Proof.
  destruct (validation_of_emails
              [ mkContact (Some "Jane Doe") "jane.doe@acme.org" None None
                          "pdf" "medium" (Some "acme.org") (Some "business");
                mkContact None "info@acme.org" None None "pdf" "low"
                          (Some "acme.org") (Some "business") ])
    as (_ & _ & H & _).
  apply H. vm_compute. reflexivity.
Defined.

(** X15. On the output of the pipeline the validation finds no duplicate
    email and no email of invalid format. *)
Theorem pipeline_passes_email_checks (ws : list PdfWord) (url : string) :
  forall i e,
    ~ In (Duplicate_email i e) (issues_from 1 [] (pipeline ws url)) /\
    ~ In (Invalid_email_format i e) (issues_from 1 [] (pipeline ws url)).
Proof.
  intros i e. split.
  - revert i e. apply (no_duplicate_issue_iff (pipeline ws url) 1 []).
    split; [|auto].
    rewrite pipeline_emails. apply extract_contacts_spec.
  - revert i e. apply (no_invalid_issue_iff (pipeline ws url) 1 []).
    intros c Hc. unfold pipeline, process_pdf_contacts in Hc.
    apply in_map_iff in Hc as (pc & <- & Hc).
    change (email (process_one pc)) with (pc_email pc).
    destruct (proj2 (extract_contacts_spec ws) pc Hc)
      as (_ & w & _ & _ & He & _ & _).
    apply located_email_shape in He as [S _].
    destruct (email_shape_parts _ S) as (local & d & -> & _).
    apply has_at_app.
Qed.

Lemma pipeline_passes_email_checks_witness :
  ~ In (TestScraper.Duplicate_email 2 "ann.lee@acme.org")
       (issues_from 1 []
          (pipeline [ mkPdfWord "Ann.Lee@Acme.org" 10 60 90 72 0;
                      mkPdfWord "ann.lee@ACME.org" 10 160 90 172 0 ]
                    "https://acme.org/staff")).
Proof.
  apply (pipeline_passes_email_checks
           [ mkPdfWord "Ann.Lee@Acme.org" 10 60 90 72 0;
             mkPdfWord "ann.lee@ACME.org" 10 160 90 172 0 ]
           "https://acme.org/staff" 2 "ann.lee@acme.org").
Defined.

End Validation.

(* ================================================================== *)
(** ** The domain statistics *)

Section DomainStats.
Import Models PdfExtract Pairing Props MoreProps Writer.

Lemma get_incr (k k' : string) (d : counter) :
  get k (incr k' d) = if String.eqb k k' then S (get k d) else get k d.
Proof.
  induction d as [|[k0 n] d IH]; simpl.
  - destruct (String.eqb k k'); reflexivity.
  - destruct (String.eqb_spec k' k0) as [->|N]; simpl.
    + destruct (String.eqb k k0); reflexivity.
    + destruct (String.eqb_spec k k0) as [->|N'].
      * destruct (String.eqb_spec k0 k'); [congruence | reflexivity].
      * apply IH.
Qed.

Lemma incr_keys (k k' : string) (d : counter) :
  In k (map fst (incr k' d)) <-> k = k' \/ In k (map fst d).
Proof.
  induction d as [|[k0 n] d IH]; simpl; [intuition congruence|].
  destruct (String.eqb_spec k' k0) as [->|N]; simpl;
    [|rewrite IH]; intuition congruence.
Qed.

Lemma incr_nodup (k : string) (d : counter) :
  NoDup (map fst d) -> NoDup (map fst (incr k d)).
Proof.
  induction d as [|[k0 n] d IH]; simpl; intros H.
  - repeat constructor. auto.
  - inversion H as [|? ? Hn Hd]; subst.
    destruct (String.eqb_spec k k0) as [->|N]; simpl.
    + now constructor.
    + constructor; [|auto]. rewrite incr_keys. intuition congruence.
Qed.

Lemma incr_entries (k : string) (d : counter) (k' : string) (n : nat) :
  In (k', n) (incr k d) ->
  (k' = k /\ 1 <= n) \/ In (k', n) d.
Proof.
  induction d as [|[k0 m] d IH]; simpl.
  - intros [E|[]]. injection E as <- <-. left. split; [reflexivity | lia].
  - destruct (String.eqb_spec k k0) as [->|N]; simpl.
    + intros [E|H]; [|auto]. injection E as <- <-.
      left. split; [reflexivity | lia].
    + intros [E|H]; [auto|]. apply IH in H. tauto.
Qed.

Lemma incr_sum (k : string) (d : counter) :
  list_sum (map snd (incr k d)) = S (list_sum (map snd d)).
Proof.
  induction d as [|[k0 m] d IH]; simpl; [reflexivity|].
  destruct (String.eqb k k0); simpl; [lia | rewrite IH; lia].
Qed.

Lemma get_of_entry (d : counter) (k : string) (n : nat) :
  NoDup (map fst d) -> In (k, n) d -> get k d = n.
Proof.
  induction d as [|[k0 m] d IH]; simpl; [tauto|].
  intros H Hin. inversion H as [|? ? Hn Hd]; subst.
  destruct Hin as [E|Hin].
  - injection E as -> ->. now rewrite String.eqb_refl.
  - destruct (String.eqb_spec k k0) as [->|N]; [|auto].
    elim Hn. apply in_map_iff. now exists (k0, n).
Qed.

Lemma count_if_snoc (p : Contact -> bool) (l : list Contact) (c : Contact) :
  Cli.count_if p (l ++ [c]) = Cli.count_if p l + (if p c then 1 else 0).
Proof.
  unfold Cli.count_if. rewrite filter_app, length_app. simpl.
  destruct (p c); reflexivity.
Qed.

Lemma at_domain_true (d : string) (c : Contact) :
  at_domain d c = true <-> domain c = Some d.
Proof.
  unfold at_domain. destruct (domain c) as [d'|]; [|split; discriminate].
  rewrite String.eqb_eq. split; congruence.
Qed.

Lemma business_not_personal (c : Contact) :
  Cli.domainType_is "business" c = true ->
  Cli.domainType_is "personal" c = false.
Proof.
  unfold Cli.domainType_is. destruct (domainType c) as [x|]; [|discriminate].
  intros B. apply String.eqb_eq in B. now subst x.
Qed.

Lemma tally_step_inv (seen : list Contact) (t : tally) (c : Contact) :
  tally_inv seen t -> tally_inv (seen ++ [c]) (tally_step t c).
Proof.
  intros (Hnd & Hent & Hget & Hsum & Hb & Hp).
  assert (Skip : with_domain c = false ->
                 tally_inv (seen ++ [c]) t).
  { intros W.
    split; [assumption|]. split; [assumption|]. split; [|split; [|split]].
    - intros d Nd. rewrite count_if_snoc, (Hget d Nd).
      destruct (at_domain d c) eqn:A; [|lia].
      apply at_domain_true in A. unfold with_domain in W. rewrite A in W.
      simpl in W. destruct d; [contradiction | discriminate].
    - rewrite count_if_snoc, W. lia.
    - rewrite count_if_snoc, W. simpl. lia.
    - rewrite count_if_snoc, W. simpl. lia. }
  unfold tally_step. destruct (domain c) as [d|] eqn:D;
    [destruct (Py.truthy d) eqn:T|];
    try (apply Skip; unfold with_domain; rewrite D; simpl; auto; fail).
  assert (W : with_domain c = true) by (unfold with_domain; now rewrite D).
  assert (Nd : d <> EmptyString) by (intros ->; discriminate).
  assert (G : forall d', d' <> EmptyString ->
               get d' (incr d (domain_counts t))
               = Cli.count_if (at_domain d') (seen ++ [c])).
  { intros d' Nd'. rewrite count_if_snoc, get_incr, (Hget d' Nd').
    unfold at_domain. rewrite D. destruct (String.eqb d' d); lia. }
  assert (E : forall d' n, In (d', n) (incr d (domain_counts t)) ->
                           1 <= n /\ d' <> EmptyString).
  { intros d' n H. apply incr_entries in H as [[-> H]|H]; auto. }
  assert (Sum : list_sum (map snd (incr d (domain_counts t)))
                = Cli.count_if with_domain (seen ++ [c])).
  { rewrite incr_sum, count_if_snoc, W, Hsum. lia. }
  destruct (Cli.domainType_is "business" c) eqn:B;
    [|destruct (Cli.domainType_is "personal" c) eqn:P];
    (split; [now apply incr_nodup|]); (split; [exact E|]);
    (split; [exact G|]); (split; [exact Sum|]); simpl;
    rewrite !count_if_snoc, W, ?B, ?P; simpl.
  - rewrite (business_not_personal c B). lia.
  - lia.
  - lia.
Qed.

Lemma tally_fold_inv (l : list Contact) :
  forall seen t,
    tally_inv seen t -> tally_inv (seen ++ l) (fold_left tally_step l t).
Proof.
  induction l as [|c l IH]; intros seen t H; simpl.
  - now rewrite app_nil_r.
  - replace (seen ++ c :: l)%list with ((seen ++ [c]) ++ l)%list
      by (now rewrite <- app_assoc).
    apply IH, tally_step_inv, H.
Qed.

Lemma tally_of_inv (contacts : list Contact) :
  tally_inv contacts (tally_of contacts).
Proof.
  apply (tally_fold_inv contacts [] (mkTally [] [] 0 0)).
  split; [constructor|]. split; [intros d n []|].
  repeat split; reflexivity.
Qed.

Lemma insert_desc_perm (x : string * nat) (l : counter) :
  Permutation (insert_desc x l) (x :: l).
Proof.
  induction l as [|y l IH]; simpl; [reflexivity|].
  destruct (snd y <=? snd x); [reflexivity|].
  rewrite IH. apply perm_swap.
Qed.

Lemma sorted_desc_perm (d : counter) : Permutation (sorted_desc d) d.
Proof.
  induction d as [|x d IH]; simpl; [reflexivity|].
  rewrite insert_desc_perm. now constructor.
Qed.

Lemma insert_desc_sorted (x : string * nat) (l : counter) :
  StronglySorted count_ge l -> StronglySorted count_ge (insert_desc x l).
Proof.
  induction 1 as [|y l S IH F]; simpl.
  - repeat constructor.
  - destruct (Nat.leb_spec (snd y) (snd x)) as [L|L].
    + constructor; [now constructor|].
      constructor; [exact L|].
      eapply Forall_impl; [|exact F]. unfold count_ge. intros z Hz. lia.
    + constructor; [assumption|].
      eapply Permutation_Forall; [symmetry; apply insert_desc_perm|].
      constructor; [unfold count_ge; lia | assumption].
Qed.

Lemma sorted_desc_sorted (d : counter) :
  StronglySorted count_ge (sorted_desc d).
Proof.
  induction d; simpl; [constructor | now apply insert_desc_sorted].
Qed.

Lemma in_firstn {A : Type} (n : nat) (l : list A) (x : A) :
  In x (firstn n l) -> In x l.
Proof.
  revert l. induction n as [|n IH]; intros [|y l]; simpl; try tauto.
  intros [H|H]; [now left | right; now apply IH].
Qed.

Lemma firstn_sorted (n : nat) (l : counter) :
  StronglySorted count_ge l -> StronglySorted count_ge (firstn n l).
Proof.
  revert l. induction n as [|n IH]; intros l H; simpl; [constructor|].
  destruct l as [|x l]; [constructor|].
  inversion H as [|? ? S F]; subst. constructor; [now apply IH|].
  rewrite Forall_forall in *. intros y Hy. apply F.
  eapply in_firstn; eauto.
Qed.

Lemma firstn_nodup_keys (n : nat) (l : counter) :
  NoDup (map fst l) -> NoDup (map fst (firstn n l)).
Proof.
  revert l. induction n as [|n IH]; intros l H; simpl; [constructor|].
  destruct l as [|x l]; [constructor|]. simpl in *.
  inversion H as [|? ? Hn Hd]; subst. constructor; [|now apply IH].
  intros Hin. apply Hn. apply in_map_iff in Hin as (y & E & Hy).
  apply in_map_iff. exists y. split; [assumption|].
  eapply in_firstn; eauto.
Qed.

Lemma list_sum_perm (a b : list nat) :
  Permutation a b -> list_sum a = list_sum b.
Proof. induction 1; simpl; lia. Qed.

(** X16. In the statistics, the top domains are at most ten entries with
    distinct domains, in decreasing order of count; the count of an entry
    is the number of contacts with that domain and is at least 1; the
    number of unique domains is the number of counted domains; and when
    there are at most ten domains the counts add up to the number of
    contacts that have a domain. *)
Theorem top_domains_counts (contacts : list Contact) :
  let s := calculate_domain_stats contacts in
  List.length (topDomains s) <= 10 /\
  List.length (topDomains s) <= uniqueDomains s /\
  StronglySorted count_ge (topDomains s) /\
  NoDup (map fst (topDomains s)) /\
  (forall d n,
      In (d, n) (topDomains s) ->
      1 <= n /\ d <> EmptyString /\
      n = Cli.count_if (at_domain d) contacts) /\
  (forall d,
      d <> EmptyString ->
      (In d (map fst (domain_counts (tally_of contacts))) <->
       exists c, In c contacts /\ domain c = Some d)) /\
  (uniqueDomains s <= 10 ->
   list_sum (map snd (topDomains s)) = Cli.count_if with_domain contacts).
Proof.
  destruct (tally_of_inv contacts) as (Hnd & Hent & Hget & Hsum & _ & _).
  pose proof (sorted_desc_perm (domain_counts (tally_of contacts))) as P.
  assert (Hnd' : NoDup (map fst (sorted_desc (domain_counts (tally_of contacts))))).
  { eapply Permutation_NoDup; [|exact Hnd].
    apply Permutation_map. now symmetry. }
  cbv zeta. unfold calculate_domain_stats. cbn [topDomains uniqueDomains].
  split; [apply firstn_le_length|].
  split; [rewrite length_firstn, (Permutation_length P); lia|].
  split; [apply firstn_sorted, sorted_desc_sorted|].
  split; [now apply firstn_nodup_keys|].
  split; [|split].
  - intros d n H. apply in_firstn in H. apply (Permutation_in _ P) in H.
    destruct (Hent _ _ H) as [L Nd]. repeat split; auto.
    rewrite <- (Hget d Nd). symmetry. now apply get_of_entry.
  - intros d H. split.
    + intros Hin. apply in_map_iff in Hin as ([d' n] & E & Hin).
      simpl in E. subst d'.
      pose proof (Hent _ _ Hin) as [Ln _].
      rewrite <- (get_of_entry _ _ _ Hnd Hin), (Hget d H) in Ln.
      unfold Cli.count_if in Ln.
      destruct (filter (at_domain d) contacts) as [|c l] eqn:F;
        [simpl in Ln; lia|].
      assert (Hc : In c (filter (at_domain d) contacts))
        by (rewrite F; now left).
      apply filter_In in Hc as [Hc A]. apply at_domain_true in A.
      now exists c.
    + intros (c & Hc & D).
      assert (G : 1 <= get d (domain_counts (tally_of contacts))).
      { rewrite (Hget d H). unfold Cli.count_if.
        assert (Hf : In c (filter (at_domain d) contacts)).
        { apply filter_In. split; [assumption | now apply at_domain_true]. }
        destruct (filter (at_domain d) contacts); [contradiction|].
        simpl. lia. }
      clear -G.
      induction (domain_counts (tally_of contacts)) as [|[k n] l IH];
        simpl in *; [lia|].
      destruct (String.eqb_spec d k); [now left | right; auto].
  - intros U. rewrite firstn_all2.
    + rewrite <- Hsum. apply list_sum_perm, Permutation_map, P.
    + rewrite (Permutation_length P). exact U.
Qed.

Lemma top_domains_counts_witness :
  list_sum
    (map snd
         (topDomains
            (calculate_domain_stats
               [ mkContact None "a@acme.org" None None "pdf" "low"
                           (Some "acme.org") (Some "business");
                 mkContact None "b@gmail.com" None None "pdf" "low"
                           (Some "gmail.com") (Some "personal");
                 mkContact None "c@acme.org" None None "pdf" "low"
                           (Some "acme.org") (Some "business") ]))) = 3.
Proof.
  pose proof (top_domains_counts
                [ mkContact None "a@acme.org" None None "pdf" "low"
                            (Some "acme.org") (Some "business");
                  mkContact None "b@gmail.com" None None "pdf" "low"
                            (Some "gmail.com") (Some "personal");
                  mkContact None "c@acme.org" None None "pdf" "low"
                            (Some "acme.org") (Some "business") ]) as H.
  cbv zeta in H. destruct H as (_ & _ & _ & _ & _ & _ & H).
  rewrite H; [reflexivity | vm_compute; lia].
Defined.

Lemma count_if_exclusive (p q r : Contact -> bool) (l : list Contact) :
  (forall c, p c = true -> q c = false) ->
  (forall c, p c = true -> r c = true) ->
  (forall c, q c = true -> r c = true) ->
  Cli.count_if p l + Cli.count_if q l <= Cli.count_if r l.
Proof.
  intros X Pr Qr. unfold Cli.count_if.
  induction l as [|c l IH]; simpl; [lia|].
  destruct (p c) eqn:P, (q c) eqn:Q.
  - rewrite (X c P) in Q. discriminate.
  - rewrite (Pr c P). simpl. lia.
  - rewrite (Qr c Q). simpl. lia.
  - destruct (r c); simpl; lia.
Qed.

Lemma count_if_cover (p q : Contact -> bool) (l : list Contact) :
  (forall c, In c l -> p c = negb (q c)) ->
  Cli.count_if p l + Cli.count_if q l = List.length l.
Proof.
  unfold Cli.count_if. induction l as [|c l IH]; intros H; simpl;
    [reflexivity|].
  rewrite (H c (or_introl eq_refl)).
  assert (IH' := IH (fun c' Hc' => H c' (or_intror Hc'))).
  destruct (q c); simpl; lia.
Qed.

Lemma classified_business_has_domain (c : Contact) :
  classified c -> Cli.domainType_is "business" c = true ->
  with_domain c = true.
Proof.
  unfold classified, Cli.domainType_is, with_domain, classify_domain.
  intros ->. destruct (truthy_opt (domain c)); [reflexivity|].
  simpl. discriminate.
Qed.

Lemma process_one_classified (pc : PdfContact) : classified (process_one pc).
Proof. reflexivity. Qed.

(** X17. In the statistics the business and the personal email counts are
    the numbers of contacts with a domain of that type, and together they
    do not exceed the number of contacts; on the contacts of the pairing
    the business email count is the business count of the summary; on the
    output of the pipeline the two counts add up to the number of
    contacts. *)
Theorem email_type_counts (contacts : list Contact) :
  let s := calculate_domain_stats contacts in
  businessEmailCount s
  = Cli.count_if (fun c => with_domain c && Cli.domainType_is "business" c)
                 contacts /\
  personalEmailCount s
  = Cli.count_if (fun c => with_domain c && Cli.domainType_is "personal" c)
                 contacts /\
  businessEmailCount s + personalEmailCount s <= List.length contacts /\
  (forall pcs url,
      contacts = process_pdf_contacts pcs url ->
      businessEmailCount s = Cli.business (Cli.print_summary_counts contacts)) /\
  (forall ws url,
      contacts = pipeline ws url ->
      businessEmailCount s + personalEmailCount s = List.length contacts).
Proof.
  destruct (tally_of_inv contacts) as (_ & _ & _ & _ & Hb & Hp).
  cbv zeta. unfold calculate_domain_stats.
  cbn [businessEmailCount personalEmailCount]. rewrite Hb, Hp.
  split; [reflexivity|]. split; [reflexivity|]. split; [|split].
  - etransitivity; [|apply (count_if_le_length with_domain)].
    apply count_if_exclusive.
    + intros c H. apply andb_true_iff in H as [_ B].
      now rewrite (business_not_personal c B), andb_false_r.
    + intros c H. now apply andb_true_iff in H as [W _].
    + intros c H. now apply andb_true_iff in H as [W _].
  - intros pcs url ->. simpl. apply count_if_ext. intros c Hc.
    unfold process_pdf_contacts in Hc. apply in_map_iff in Hc as (pc & <- & _).
    destruct (Cli.domainType_is "business" (process_one pc)) eqn:B;
      [|apply andb_false_r].
    now rewrite (classified_business_has_domain _ (process_one_classified pc) B).
  - intros ws url ->. apply count_if_cover. intros c Hc.
    unfold pipeline, process_pdf_contacts in Hc.
    apply in_map_iff in Hc as (pc & <- & Hc).
    destruct (extracted_email_parts ws pc Hc)
      as (local & d & E & _ & Nd & Al & Ad & Ld).
    destruct (process_one_domain pc local d E Al Ad Nd Ld) as [D T].
    unfold with_domain, Cli.domainType_is. rewrite D, T.
    destruct (Py.mem d PERSONAL_DOMAINS);
      (destruct d; [contradiction | reflexivity]).
Qed.

Lemma email_type_counts_witness :
  businessEmailCount
    (calculate_domain_stats
       (pipeline [ mkPdfWord "ann@acme.org" 10 60 90 72 0;
                   mkPdfWord "bob@gmail.com" 10 160 90 172 0 ] ""))
  + personalEmailCount
      (calculate_domain_stats
         (pipeline [ mkPdfWord "ann@acme.org" 10 60 90 72 0;
                     mkPdfWord "bob@gmail.com" 10 160 90 172 0 ] ""))
  = List.length
      (pipeline [ mkPdfWord "ann@acme.org" 10 60 90 72 0;
                  mkPdfWord "bob@gmail.com" 10 160 90 172 0 ] "").
Proof.
  pose proof (email_type_counts
                (pipeline [ mkPdfWord "ann@acme.org" 10 60 90 72 0;
                            mkPdfWord "bob@gmail.com" 10 160 90 172 0 ] ""))
    as H.
  cbv zeta in H. destruct H as (_ & _ & _ & _ & H).
  apply (H [ mkPdfWord "ann@acme.org" 10 60 90 72 0;
             mkPdfWord "bob@gmail.com" 10 160 90 172 0 ] "").
  reflexivity.
Defined.

Lemma incr_keys_list (k : string) (d : counter) :
  map fst (incr k d)
  = if Py.mem k (map fst d) then map fst d else (map fst d ++ [k])%list.
Proof.
  unfold Py.mem. induction d as [|[k0 n] d IH]; simpl; [reflexivity|].
  destruct (String.eqb k k0); simpl; [reflexivity|].
  rewrite IH. now destruct (existsb (String.eqb k) (map fst d)).
Qed.

Lemma mem_filter (g : string -> bool) (k : string) (l : list string) :
  Py.mem k (filter g l) = Py.mem k l && g k.
Proof.
  unfold Py.mem. induction l as [|x l IH]; simpl; [reflexivity|].
  destruct (String.eqb_spec k x) as [->|N]; simpl.
  - destruct (g x); simpl; [now rewrite String.eqb_refl | rewrite IH].
    apply andb_false_r.
  - destruct (g x); simpl; [|assumption].
    destruct (String.eqb_spec k x); [contradiction | assumption].
Qed.

Lemma classified_type (c : Contact) (d : string) :
  classified c -> domain c = Some d -> d <> EmptyString ->
  domainType c
  = Some (if Py.mem d PERSONAL_DOMAINS then "personal" else "business").
Proof.
  unfold classified. intros -> -> N. now rewrite (classify_some d N).
Qed.

Lemma tally_step_keys (t : tally) (c : Contact) :
  classified c -> keys_inv t -> keys_inv (tally_step t c).
Proof.
  intros C K. unfold tally_step.
  destruct (domain c) as [d|] eqn:D; [|assumption].
  destruct (Py.truthy d) eqn:T; [|assumption].
  assert (N : d <> EmptyString) by (intros ->; discriminate).
  pose proof (classified_type c d C D N) as Ty.
  assert (B : Cli.domainType_is "business" c = business_key d).
  { unfold Cli.domainType_is, business_key. rewrite Ty.
    now destruct (Py.mem d PERSONAL_DOMAINS). }
  assert (P : Cli.domainType_is "personal" c = negb (business_key d)).
  { unfold Cli.domainType_is, business_key. rewrite Ty.
    now destruct (Py.mem d PERSONAL_DOMAINS). }
  rewrite B, P. unfold keys_inv in *.
  destruct (business_key d) eqn:G; cbn [negb domain_counts business_counts].
  - rewrite !incr_keys_list, K, mem_filter, G, andb_true_r.
    destruct (Py.mem d (map fst (domain_counts t))); [reflexivity|].
    rewrite filter_app. cbn [filter]. now rewrite G.
  - rewrite incr_keys_list, K.
    destruct (Py.mem d (map fst (domain_counts t))); [reflexivity|].
    rewrite filter_app. cbn [filter]. rewrite G. now rewrite app_nil_r.
Qed.

Lemma tally_fold_keys (l : list Contact) :
  forall t,
    (forall c, In c l -> classified c) ->
    keys_inv t -> keys_inv (fold_left tally_step l t).
Proof.
  induction l as [|c l IH]; intros t C K; simpl; [assumption|].
  apply IH; [intros c' Hc'; apply C; now right|].
  apply tally_step_keys; [apply C; now left | assumption].
Qed.

(** A counted domain is not empty and is the domain of some contact. *)
Lemma counted_domain (contacts : list Contact) (d : string) (n : nat) :
  In (d, n) (domain_counts (tally_of contacts)) ->
  d <> EmptyString /\ exists c, In c contacts /\ domain c = Some d.
Proof.
  destruct (tally_of_inv contacts) as (Hnd & Hent & Hget & _).
  intros Hin. pose proof (Hent _ _ Hin) as [Ln Nd]. split; [assumption|].
  rewrite <- (get_of_entry _ _ _ Hnd Hin), (Hget d Nd) in Ln.
  unfold Cli.count_if in Ln.
  destruct (filter (at_domain d) contacts) as [|c l] eqn:F;
    [simpl in Ln; lia|].
  assert (Hc : In c (filter (at_domain d) contacts)) by (rewrite F; now left).
  apply filter_In in Hc as [Hc A]. apply at_domain_true in A. now exists c.
Qed.

Lemma filter_split_length {A : Type} (f : A -> bool) (l : list A) :
  List.length (filter f l) + List.length (filter (fun x => negb (f x)) l)
  = List.length l.
Proof.
  induction l as [|x l IH]; simpl; [reflexivity|].
  destruct (f x); simpl; lia.
Qed.

Lemma filter_keys (g : string -> bool) (d : counter) :
  filter g (map fst d) = map fst (filter (fun x => g (fst x)) d).
Proof.
  induction d as [|x d IH]; simpl; [reflexivity|].
  destruct (g (fst x)); simpl; now rewrite IH.
Qed.

(** X18. When the domain type of every contact is the class of its domain,
    as for the contacts of the pairing, every counted domain is either a
    business domain or a personal domain: the unique domains are the
    business domains plus the personal domains. *)
Theorem domains_split_by_type (contacts : list Contact) :
  (forall c, In c contacts -> classified c) ->
  let s := calculate_domain_stats contacts in
  uniqueDomains s = businessDomains s + personalDomains s.
Proof.
  intros C. cbv zeta. unfold calculate_domain_stats.
  cbn [uniqueDomains businessDomains personalDomains].
  assert (K : keys_inv (tally_of contacts)).
  { apply tally_fold_keys; [assumption | reflexivity]. }
  unfold keys_inv in K.
  rewrite <- (length_map fst (business_counts (tally_of contacts))), K.
  rewrite filter_keys, length_map.
  rewrite <- (filter_split_length (fun x => business_key (fst x))
                                  (domain_counts (tally_of contacts))).
  f_equal. f_equal. apply filter_ext_in. intros [d n] Hin. simpl.
  destruct (counted_domain contacts d n Hin) as (Nd & c0 & Hc0 & D0).
  unfold business_key. rewrite negb_involutive. symmetry.
  destruct (Py.mem d PERSONAL_DOMAINS) eqn:M.
  - apply existsb_exists. exists c0. split; [assumption|].
    unfold personal_at, Cli.domainType_is.
    rewrite D0, (classified_type c0 d (C c0 Hc0) D0 Nd), M.
    now rewrite String.eqb_refl.
  - destruct (existsb (personal_at d) contacts) eqn:E; [|reflexivity].
    apply existsb_exists in E as (c & Hc & P).
    unfold personal_at, Cli.domainType_is in P.
    destruct (domain c) as [d'|] eqn:D; [|discriminate].
    apply andb_true_iff in P as [E P]. apply String.eqb_eq in E. subst d'.
    rewrite (classified_type c d (C c Hc) D Nd), M in P. discriminate.
Qed.

Lemma domains_split_by_type_witness :
  uniqueDomains
    (calculate_domain_stats
       (process_pdf_contacts
          [ mkPdfContact "ann@acme.org" None None (mkCoords 0 0 0) 0;
            mkPdfContact "bob@gmail.com" None None (mkCoords 0 0 0) 0;
            mkPdfContact "cy@acme.org" None None (mkCoords 0 0 0) 0 ] ""))
  = 1 + 1.
Proof.
  rewrite domains_split_by_type; [reflexivity|].
  intros c Hc. unfold process_pdf_contacts in Hc.
  apply in_map_iff in Hc as (pc & <- & _). reflexivity.
Defined.

End DomainStats.

(* ================================================================== *)
(** ** Line groups *)

Section LineGroups.
Import Models PdfExtract Pairing Props MoreProps.

Lemma Qlt_bool_lt (a b : Q) : Qlt_bool a b = true -> (a < b)%Q.
Proof.
  unfold Qlt_bool. intros H. apply negb_true_iff in H.
  apply Qnot_le_lt. intros C. apply Qle_bool_iff in C. congruence.
Qed.

Lemma last_snoc {A : Type} (l : list A) (x d : A) :
  last (l ++ [x])%list d = x.
Proof.
  induction l as [|y l IH]; simpl; [reflexivity|].
  destruct (l ++ [x])%list eqn:E; [now destruct l | assumption].
Qed.

Lemma last_cons {A : Type} (l : list A) :
  forall x d : A, last (x :: l) d = last l x.
Proof.
  induction l as [|y l IH]; intros x d; [reflexivity|].
  change (last (x :: y :: l) d) with (last (y :: l) d).
  now rewrite (IH y d), (IH y x).
Qed.

(** Adding a word that continues the line of the last word keeps a group
    chained. *)
Lemma chained_snoc (rest : group) :
  forall c0 c,
    chained (c0 :: rest) ->
    (Qabs (y0 (fst c) - y0 (fst (last rest c0))) < 5)%Q ->
    (Qabs (x0 (fst c) - x1 (fst (last rest c0))) < 150)%Q ->
    chained ((c0 :: rest) ++ [c])%list.
Proof.
  induction rest as [|c1 rest IH]; intros c0 c H Hy Hx.
  - simpl in *. auto.
  - rewrite (last_cons rest c1 c0) in Hy, Hx.
    destruct H as (H1 & H2 & H3).
    change (chained (c0 :: (c1 :: rest) ++ [c])%list).
    cbn [chained app]. repeat split; auto.
    apply (IH c1 c H3 Hy Hx).
Qed.

Lemma gwalk_step_inv (st : gwalk) (c : PdfWord * Q) :
  gwalk_inv st -> gwalk_inv (gwalk_step st c).
Proof.
  intros (Hf & Ho & Hl). unfold gwalk_step, g_same_line.
  destruct (g_last_y st) as [ly|] eqn:Ly.
  - destruct (g_last_x st) as [lx|] eqn:Lx.
    + destruct (Qlt_bool (Qabs (y0 (fst c) - ly)) 5
                && Qlt_bool (Qabs (x0 (fst c) - lx)) 150) eqn:S.
      * apply andb_true_iff in S as [Sy Sx].
        apply Qlt_bool_lt in Sy, Sx.
        destruct (open_group st) as [|c0 rest] eqn:O; [discriminate|].
        destruct Hl as [Ey Ex]. injection Ey as ->. injection Ex as ->.
        split; [exact Hf|]. simpl. split.
        -- apply (chained_snoc rest c0 c Ho Sy Sx).
        -- rewrite last_snoc. auto.
      * split; [|simpl; auto].
        intros g Hg. simpl in Hg. unfold close_group in Hg.
        destruct (open_group st) as [|c0 rest] eqn:O; [auto|].
        apply in_app_iff in Hg as [Hg|[<-|[]]]; [auto|].
        split; [discriminate | assumption].
    + split; [|simpl; auto].
      intros g Hg. simpl in Hg. unfold close_group in Hg.
      destruct (open_group st) as [|c0 rest] eqn:O; [auto|].
      apply in_app_iff in Hg as [Hg|[<-|[]]]; [auto|].
      split; [discriminate | assumption].
  - split; [|simpl; auto].
    intros g Hg. simpl in Hg. unfold close_group in Hg.
    destruct (open_group st) as [|c0 rest] eqn:O; [auto|].
    apply in_app_iff in Hg as [Hg|[<-|[]]]; [auto|].
    split; [discriminate | assumption].
Qed.

Lemma gwalk_fold_inv (l : list (PdfWord * Q)) :
  forall st, gwalk_inv st -> gwalk_inv (fold_left gwalk_step l st).
Proof.
  induction l as [|c l IH]; intros st H; simpl; [assumption|].
  now apply IH, gwalk_step_inv.
Qed.

Lemma groups_of_chained (l : list (PdfWord * Q)) (g : group) :
  In g (groups_of l) -> g <> [] /\ chained g.
Proof.
  unfold groups_of.
  assert (I : gwalk_inv (fold_left gwalk_step l (mkGwalk [] [] None None))).
  { apply gwalk_fold_inv. split; [intros g' []|].
    split; [exact Logic.I | reflexivity]. }
  destruct I as (Hf & Ho & _). unfold close_group.
  destruct (open_group _) as [|c0 rest]; [apply Hf|].
  intros Hg. apply in_app_iff in Hg as [Hg|[<-|[]]]; [now apply Hf|].
  split; [discriminate | assumption].
Qed.

(** X19. The groups of the walk are not empty and each continues one
    line: from one word to the next the top edge moves by less than 5
    units and the left edge is less than 150 units from the previous right
    edge.  The name the search returns is the joined text of such a group,
    made of candidates of the window. *)
Theorem found_name_from_one_line :
  (forall l g, In g (groups_of l) -> g <> [] /\ chained g) /\
  (forall e ws sd xt n,
      find_name_above_email_with e ws sd xt = Some n ->
      exists g,
        g <> [] /\ chained g /\ accepted g /\ n = combined_text g /\
        forall c, In c g ->
                  In (fst c) ws /\ name_candidate e sd xt (fst c) = true).
Proof.
  split; [exact groups_of_chained|].
  intros e ws sd xt n H.
  apply find_name_with_accepted in H as (g & (l & Hg) & V & E & M).
  exists g. destruct (groups_of_chained l g Hg) as [N C].
  repeat split; auto; now apply M.
Qed.

Lemma found_name_from_one_line_witness :
  exists g,
    g <> [] /\ chained g /\ accepted g /\ "Jane Doe" = combined_text g /\
    forall c, In c g ->
              In (fst c)
                 [ mkPdfWord "Senior" 60 20 100 32 0;
                   mkPdfWord "Jane" 60 40 92 52 0;
                   mkPdfWord "Doe" 96 40 124 52 0 ] /\
              name_candidate (mkPdfWord "jane.doe@example.com" 40 60 150 72 0)
                             60 100 (fst c) = true.
Proof.
  apply (proj2 found_name_from_one_line). vm_compute. reflexivity.
Defined.

End LineGroups.

(* ================================================================== *)
(** ** Retry with backoff *)

Section RetryFacts.
Import RateLimiter MoreProps.
Context {A E : Type}.
Variable is_Exception : E -> bool.
Variable func : nat -> attempt_result A E.
Variable max_retries : nat.

(** After [j] caught failures from call [i] on, the loop is at call
    [i + j], having slept after each of them. *)
Lemma retry_from_failures (k : nat) :
  k < max_retries ->
  fails_first is_Exception func k ->
  forall j i remaining last_exception sl,
    k = i + j -> j < remaining ->
    exists last remaining',
      0 < remaining' /\ k + remaining' = i + remaining /\
      retry_from is_Exception func max_retries i remaining last_exception sl
      = retry_from is_Exception func max_retries k remaining' last
                   (sl ++ map (Nat.pow 2) (seq i j)).
Proof.
  intros Hk Hf. induction j as [|j IH]; intros i rem le sl Hij L.
  - exists le, rem. replace i with k by lia. simpl. rewrite app_nil_r.
    repeat split; lia.
  - destruct rem as [|rem]; [lia|].
    destruct (Hf i) as (e & He & Ce); [lia|].
    destruct (IH (S i) rem (Some e) (sl ++ [2 ^ i])%list)
      as (last & rem' & Hpos & Hsum & Eq); [lia | lia|].
    exists last, rem'. split; [assumption|]. split; [lia|].
    simpl. rewrite He, Ce.
    replace (i <? max_retries - 1) with true
      by (symmetry; apply Nat.ltb_lt; lia).
    rewrite Eq. now rewrite <- app_assoc.
Qed.

Lemma retry_from_success (k : nat) (a : A) :
  k < max_retries ->
  fails_first is_Exception func k ->
  func k = Call_returns a ->
  retry_with_backoff is_Exception func max_retries
  = mkRun (Retry_returns a) (S k) (map (Nat.pow 2) (seq 0 k)).
Proof.
  intros Hk Hf Ha. unfold retry_with_backoff.
  destruct (retry_from_failures k Hk Hf k 0 max_retries None [])
    as (last & rem & Hpos & _ & ->); [reflexivity | assumption|].
  destruct rem as [|rem]; [lia|]. simpl. now rewrite Ha.
Qed.

Lemma retry_from_escape (k : nat) (e : E) :
  k < max_retries ->
  fails_first is_Exception func k ->
  func k = Call_raises e -> is_Exception e = false ->
  retry_with_backoff is_Exception func max_retries
  = mkRun (Retry_raises e) (S k) (map (Nat.pow 2) (seq 0 k)).
Proof.
  intros Hk Hf He Ce. unfold retry_with_backoff.
  destruct (retry_from_failures k Hk Hf k 0 max_retries None [])
    as (last & rem & Hpos & _ & ->); [reflexivity | assumption|].
  destruct rem as [|rem]; [lia|]. simpl. now rewrite He, Ce.
Qed.

Lemma retry_from_exhausted (e : E) :
  0 < max_retries ->
  fails_first is_Exception func max_retries ->
  func (max_retries - 1) = Call_raises e ->
  retry_with_backoff is_Exception func max_retries
  = mkRun (Retry_raises e) max_retries
          (map (Nat.pow 2) (seq 0 (max_retries - 1))).
Proof.
  intros Hm Hf He. unfold retry_with_backoff.
  assert (Hf' : fails_first is_Exception func (max_retries - 1)).
  { intros i Hi. apply Hf. lia. }
  destruct (retry_from_failures (max_retries - 1) ltac:(lia) Hf'
                                (max_retries - 1) 0 max_retries None [])
    as (last & rem & Hpos & Hsum & ->); [reflexivity | lia|].
  assert (rem = 1) by lia. subst rem. simpl.
  destruct (Hf (max_retries - 1)) as (e' & He' & Ce'); [lia|].
  rewrite He in He'. injection He' as <-.
  rewrite He, Ce'.
  replace (max_retries - 1 <? max_retries - 1) with false
    by (symmetry; apply Nat.ltb_ge; lia).
  f_equal. lia.
Qed.

Lemma backoff_total (k : nat) :
  total_slept (map (Nat.pow 2) (seq 0 k)) = 2 ^ k - 1.
Proof.
  unfold total_slept. induction k as [|k IH]; [reflexivity|].
  rewrite seq_S, map_app, list_sum_app, IH. simpl.
  pose proof (Nat.pow_nonzero 2 k). lia.
Qed.

(** X20. Retrying returns the value of the first call that succeeds,
    after sleeping 1, 2, 4, ... seconds between the calls that failed
    with an [Exception], 2^k - 1 seconds in all after k failures; an
    exception that is no [Exception] leaves at once, with no sleep after
    it; when all the allowed calls fail with an [Exception] it raises
    that of the last call without sleeping after it; and with no call
    allowed it raises a TypeError without calling. *)
Theorem retry_with_backoff_outcomes :
  (max_retries = 0 ->
   retry_with_backoff is_Exception func max_retries
   = mkRun Retry_raises_TypeError 0 []) /\
  (forall k a,
      k < max_retries -> fails_first is_Exception func k ->
      func k = Call_returns a ->
      retry_with_backoff is_Exception func max_retries
      = mkRun (Retry_returns a) (S k) (map (Nat.pow 2) (seq 0 k)) /\
      total_slept (slept (retry_with_backoff is_Exception func max_retries))
      = 2 ^ k - 1) /\
  (forall k e,
      k < max_retries -> fails_first is_Exception func k ->
      func k = Call_raises e -> is_Exception e = false ->
      retry_with_backoff is_Exception func max_retries
      = mkRun (Retry_raises e) (S k) (map (Nat.pow 2) (seq 0 k))) /\
  (forall e,
      0 < max_retries -> fails_first is_Exception func max_retries ->
      func (max_retries - 1) = Call_raises e ->
      retry_with_backoff is_Exception func max_retries
      = mkRun (Retry_raises e) max_retries
              (map (Nat.pow 2) (seq 0 (max_retries - 1))) /\
      total_slept (slept (retry_with_backoff is_Exception func max_retries))
      = 2 ^ (max_retries - 1) - 1).
Proof.
  split; [|split; [|split]].
  - intros ->. reflexivity.
  - intros k a Hk Hf Ha. rewrite (retry_from_success k a Hk Hf Ha).
    split; [reflexivity | apply backoff_total].
  - intros k e. apply retry_from_escape.
  - intros e Hm Hf He. rewrite (retry_from_exhausted e Hm Hf He).
    split; [reflexivity | apply backoff_total].
Qed.

End RetryFacts.

Section RetryExample.
Import RateLimiter MoreProps.

Lemma retry_with_backoff_outcomes_witness :
  retry_with_backoff
    (fun e => negb (String.eqb e "KeyboardInterrupt"))
    (fun i => if i <? 2 then Call_raises "timeout" else Call_returns 7) 3
  = mkRun (Retry_returns 7) 3 [1; 2] /\
  retry_with_backoff
    (fun e => negb (String.eqb e "KeyboardInterrupt"))
    (fun i => if i <? 1 then Call_raises "timeout"
              else @Call_raises nat string "KeyboardInterrupt") 3
  = mkRun (Retry_raises "KeyboardInterrupt") 2 [1].
Proof.
  split.
  - apply (proj1 (proj2 (retry_with_backoff_outcomes
             (fun e => negb (String.eqb e "KeyboardInterrupt"))
             (fun i => if i <? 2 then Call_raises "timeout"
                       else Call_returns 7)
             3)) 2 7).
    + lia.
    + intros i Hi. exists "timeout".
      destruct i as [|[|i]]; [split; reflexivity | split; reflexivity | lia].
    + reflexivity.
  - apply (proj1 (proj2 (proj2 (retry_with_backoff_outcomes
             (fun e => negb (String.eqb e "KeyboardInterrupt"))
             (fun i => if i <? 1 then Call_raises "timeout"
                       else @Call_raises nat string "KeyboardInterrupt")
             3))) 1 "KeyboardInterrupt").
    + lia.
    + intros i Hi. exists "timeout".
      destruct i as [|i]; [split; reflexivity | lia].
    + reflexivity.
    + reflexivity.
Defined.

End RetryExample.
